(** * Switch error rate: a shallow embedding of [main.cc]

    The program compares an estimated phasing with a true phasing, both
    given as text streams holding one locus per line and two allele
    characters per sample.  This file embeds the per-locus loop of
    [main], the reading of a locus, the per-sample comparison with its
    trio filter and local-ancestry bookkeeping, and proves properties of
    these definitions.

    Conventions of the embedding.
    - A [FILE*] opened for reading is the list of characters that are
      still unread; [fgetc] at the end of that list gives [EOF].
    - C [int] counters are unbounded integers ([Z]): signed overflow is
      undefined in the source and is not modelled.
    - [numSamples] is a natural number: a negative value makes the
      array allocations of [main] throw before the loop is reached.
    - The posteriors read by [getLocalAnc] are rationals; the rounding
      of [float] arithmetic is not modelled.
    - Text written to [stdout] and [stderr] is not modelled, except the
      record that verbose mode writes at each switch and the final
      switch rate. *)

From Stdlib Require Import ZArith QArith Ascii String List Lia.
From stdpp Require Import base tactics option numbers list gmap strings.

Set Default Proof Using "Type".

(** ** Outcomes of a run *)

Inductive outcome (A : Type) : Type :=
| Ok (a : A)        (* normal completion *)
| AssertFail        (* a failed [assert]: the process aborts *)
| Exit1             (* [exit(1)] *)
| OutOfBounds       (* an array accessed outside its allocation *)
| Hang              (* a loop of the source that never ends *)
| OutOfFuel.        (* the fuel of a loop of this embedding ran out *)

Arguments Ok {A} a.
Arguments AssertFail {A}.
Arguments Exit1 {A}.
Arguments OutOfBounds {A}.
Arguments Hang {A}.
Arguments OutOfFuel {A}.

Definition outcome_bind {A B : Type} (f : A → outcome B) (o : outcome A)
  : outcome B :=
  match o with
  | Ok a => f a
  | AssertFail => AssertFail
  | Exit1 => Exit1
  | OutOfBounds => OutOfBounds
  | Hang => Hang
  | OutOfFuel => OutOfFuel
  end.

Definition outcome_map {A B : Type} (f : A → B) (o : outcome A) : outcome B :=
  outcome_bind (λ a, Ok (f a)) o.

#[global] Instance outcome_mret : MRet outcome := @Ok.
#[global] Instance outcome_mbind : MBind outcome := @outcome_bind.

(** [assert(b)] *)
Definition assert (b : bool) : outcome unit :=
  if b then Ok tt else AssertFail.

(** ** Arrays

    An array is a list; an access outside it is [OutOfBounds]. *)

Definition arr {A : Type} (l : list A) (i : nat) : outcome A :=
  match l !! i with
  | Some x => Ok x
  | None => OutOfBounds
  end.

(** An access at an [int] index, which may be negative. *)
Definition arrZ {A : Type} (l : list A) (i : Z) : outcome A :=
  if (i <? 0)%Z then OutOfBounds else arr l (Z.to_nat i).

(** [l[i] = v] *)
Definition store {A : Type} (l : list A) (i : nat) (v : A)
  : outcome (list A) :=
  if (i <? length l)%nat then Ok (<[i := v]> l) else OutOfBounds.

(** [l[i]++] *)
Definition incrAt (l : list Z) (i : nat) : outcome (list Z) :=
  x ← arr l i; Ok (<[i := (x + 1)%Z]> l).

(** ** Characters *)

Definition nl : ascii := "010"%char.          (* '\n' *)
Definition eofChar : ascii := "255"%char.     (* (char) EOF *)
Definition c0 : ascii := "0"%char.
Definition c1 : ascii := "1"%char.
Definition c9 : ascii := "9"%char.            (* missing, truth set *)
Definition cQ : ascii := "?"%char.            (* missing, estimate *)

Notation "a =c b" := (Ascii.eqb a b) (at level 70, no associativity).
Notation "a ≠c b" := (negb (Ascii.eqb a b)) (at level 70, no associativity).

(** ** Configuration: the globals set by [parseCmdLine] and the start
    of [main] *)

Record config : Type := Config {
  numSamples : nat;
  skipNumInEst : Z;                      (* -s *)
  trioParentsInSuccession : bool;        (* -t *)
  otherParentIdx : option (list Z);      (* -p: [None] is the NULL pointer *)
  verbose : bool;                        (* -v *)
  omitIndSet : gset Z;                   (* -o *)
  useLocalAnc : bool                     (* -l *)
}.

(** ** The Site Reader *)

(** The loop that skips the first [2 * skipNumInEst] characters of a
    line; [k] is the number of characters still to skip.  [EOF] is not
    ['\n'], so it is counted like a character. *)
Fixpoint skipLoop (k : nat) (s : list ascii) : outcome (list ascii) :=
  match k with
  | O => Ok s
  | S k' =>
      match s with
      | [] => skipLoop k' []
      | c :: s' => if c =c nl then AssertFail else skipLoop k' s'
      end
  end.

(** With a negative bound the loop does not run and
    [assert(i == 2 * skipNumInEst)] fails with [i = 0]. *)
Definition skipInitial (cfg : config) (s : list ascii)
  : outcome (list ascii) :=
  if (2 * skipNumInEst cfg <? 0)%Z then AssertFail
  else skipLoop (Z.to_nat (2 * skipNumInEst cfg)) s.

(** The loop that fills [allEstAlleles], followed by
    [assert(i == 2*numSamples)] and the [ungetc] of a newline.  The
    result is the list of the characters stored at [i], [i+1], ... and
    the stream that is left.  The character is read before [i] is
    tested, so the character after the last allele is consumed unless it
    is the newline.  At the end of the stream every further read gives
    [EOF], stored as [(char) EOF] unless the haplotype is omitted; the
    omitted set is finite, so the loop fills the rest of the array. *)
Fixpoint readEstAlleles (omit : gset Z) (n2 : nat) (s : list ascii)
    (curHap : Z) (i : nat) : outcome (list ascii * list ascii) :=
  match s with
  | [] =>
      if (i <? n2)%nat then Ok (replicate (n2 - i) eofChar, [])
      else (assert (i =? n2)%nat;; Ok ([], []))
  | c :: s' =>
      if c =c nl then (assert (i =? n2)%nat;; Ok ([], s))
      else if (i <? n2)%nat then
        if bool_decide ((curHap / 2)%Z ∈ omit)
        then readEstAlleles omit n2 s' (curHap + 1)%Z i
        else '(al, r) ← readEstAlleles omit n2 s' (curHap + 1)%Z (S i);
             Ok (c :: al, r)
      else (assert (i =? n2)%nat;; Ok ([], s'))
  end.

(** The loop that fills [allTrueAlleles]. *)
Fixpoint readTrueAlleles (n2 : nat) (s : list ascii) (i : nat)
  : outcome (list ascii * list ascii) :=
  match s with
  | [] =>
      if (i <? n2)%nat then Ok (replicate (n2 - i) eofChar, [])
      else (assert (i =? n2)%nat;; Ok ([], []))
  | c :: s' =>
      if c =c nl then (assert (i =? n2)%nat;; Ok ([], s))
      else if (i <? n2)%nat then
        '(al, r) ← readTrueAlleles n2 s' (S i); Ok (c :: al, r)
      else (assert (i =? n2)%nat;; Ok ([], s'))
  end.

(** [while ((c = getc(f)) != '\n');] never ends once [f] is at its end. *)
Fixpoint toEndline (s : list ascii) : outcome (list ascii) :=
  match s with
  | [] => Hang
  | c :: s' => if c =c nl then Ok s' else toEndline s'
  end.

(** ** Local ancestry *)

(** One line of a HAPMIX file as [fscanf] sees it. *)
Inductive hapmixLine : Type :=
| Malformed
| Posterior (pos : Z) (homozyPop1 het homozyPop2 : Q).

Definition Qgtb (a b : Q) : bool := negb (Qle_bool a b).

Definition getLocalAnc (f : list hapmixLine)
  : outcome (Z * list hapmixLine) :=
  match f with
  | [] => Exit1
  | Malformed :: _ => Exit1
  | Posterior _ homozyPop1 het homozyPop2 :: f' =>
      let sum := (homozyPop1 + het + homozyPop2)%Q in
      assert (Qle_bool (997 # 1000) sum && Qle_bool sum (1003 # 1000));;
      Ok (if Qgtb homozyPop1 (9 # 10) then 0%Z
          else if Qgtb het (9 # 10) then 1%Z
          else if Qgtb homozyPop2 (9 # 10) then 2%Z
          else (-1)%Z, f')
  end.

(** ** The variables of [main] that the per-sample loop updates *)

Record tracker : Type := Tracker {
  hapmixFiles : list (list hapmixLine);
  prevLocalAnc : list Z;
  homologsInverted : list Z;
  prevSwitchError : list Z;
  indivNumSwitches : list Z;
  numMissing : Z;
  numSwitchErrors : Z;
  totalHetSites : Z;
  numAncClassSwitchErrors : list Z;
  totalAncClassHetSites : list Z;
  oneHapTruthWarn : bool;
  blockLog : list (Z * Z * Z * Z)   (* verbose records, oldest first *)
}.

Definition set_hapmixFiles v '(Tracker _ b c d e f g h i j k l) :=
  Tracker v b c d e f g h i j k l.
Definition set_prevLocalAnc v '(Tracker a _ c d e f g h i j k l) :=
  Tracker a v c d e f g h i j k l.
Definition set_homologsInverted v '(Tracker a b _ d e f g h i j k l) :=
  Tracker a b v d e f g h i j k l.
Definition set_prevSwitchError v '(Tracker a b c _ e f g h i j k l) :=
  Tracker a b c v e f g h i j k l.
Definition set_indivNumSwitches v '(Tracker a b c d _ f g h i j k l) :=
  Tracker a b c d v f g h i j k l.
Definition set_numMissing v '(Tracker a b c d e _ g h i j k l) :=
  Tracker a b c d e v g h i j k l.
Definition set_numSwitchErrors v '(Tracker a b c d e f _ h i j k l) :=
  Tracker a b c d e f v h i j k l.
Definition set_totalHetSites v '(Tracker a b c d e f g _ i j k l) :=
  Tracker a b c d e f g v i j k l.
Definition set_numAncClassSwitchErrors v '(Tracker a b c d e f g h _ j k l) :=
  Tracker a b c d e f g h v j k l.
Definition set_totalAncClassHetSites v '(Tracker a b c d e f g h i _ k l) :=
  Tracker a b c d e f g h i v k l.
Definition set_oneHapTruthWarn v '(Tracker a b c d e f g h i j _ l) :=
  Tracker a b c d e f g h i j v l.
Definition set_blockLog v '(Tracker a b c d e f g h i j k _) :=
  Tracker a b c d e f g h i j k v.

(** ** The body of the per-sample loop *)

(** Lines 198-211: the ancestry class shared by the previous and the
    current locus, or -1. *)
Definition localAncStep (cfg : config) (samp : nat) (t : tracker)
  : outcome (Z * tracker) :=
  if useLocalAnc cfg then
    f ← arr (hapmixFiles t) samp;
    '(curLocalAncClass, f') ← getLocalAnc f;
    prevLocalAncClass ← arr (prevLocalAnc t) samp;
    let t' := set_prevLocalAnc (<[samp := curLocalAncClass]> (prevLocalAnc t))
                (set_hapmixFiles (<[samp := f']> (hapmixFiles t)) t) in
    Ok (if (curLocalAncClass =? prevLocalAncClass)%Z
           && (0 <=? curLocalAncClass)%Z
        then curLocalAncClass else (-1)%Z, t')
  else Ok ((-1)%Z, t).

Definition isTrueCode (c : ascii) : bool :=
  (c =c c0) || (c =c c1) || (c =c c9).

(** Line 242: is the trio check made for this sample? *)
Definition trioApplies (cfg : config) (samp : nat) : bool :=
  (trioParentsInSuccession cfg && (samp mod 2 =? 0)%nat)
  || bool_decide (otherParentIdx cfg ≠ None).

(** Lines 246-250.  Without a table, [otherParentIdx] is the NULL
    pointer. *)
Definition otherParent (cfg : config) (samp : nat) : outcome Z :=
  if trioParentsInSuccession cfg then Ok (Z.of_nat samp + 1)%Z
  else match otherParentIdx cfg with
       | Some tbl => arr tbl samp
       | None => OutOfBounds
       end.

(** Lines 252-254; [&&] reads the partner's alleles only when the
    sample itself is heterozygous. *)
Definition tripleHet (allTrueAlleles : list ascii) (t0 t1 : ascii) (op : Z)
  : outcome bool :=
  if t0 ≠c t1 then
    p0 ← arrZ allTrueAlleles (op * 2)%Z;
    p1 ← arrZ allTrueAlleles (op * 2 + 1)%Z;
    Ok ((p0 ≠c p1) && (t0 ≠c p0))
  else Ok false.

Definition trioCheck (cfg : config) (allTrueAlleles : list ascii)
    (samp : nat) (t0 t1 : ascii) : outcome bool :=
  if trioApplies cfg samp then
    op ← otherParent cfg samp; tripleHet allTrueAlleles t0 t1 op
  else Ok false.

(** The bucket of an ancestry class: the class itself, or 3. *)
Definition ancBucket (prevAndCurAncClass : Z) : nat :=
  if (0 <=? prevAndCurAncClass)%Z then Z.to_nat prevAndCurAncClass
  else 3%nat.

(** Lines 279-312: no heterozygous locus seen yet. *)
Definition setOrientation (samp : nat) (e0 e1 t0 t1 : ascii) (t : tracker)
  : outcome tracker :=
  if t0 =c t1 then
    assert ((e0 =c e1) && (e0 =c t0));; Ok t
  else if e0 =c t0 then
    assert (e1 =c t1);;
    Ok (set_homologsInverted (<[samp := 0%Z]> (homologsInverted t)) t)
  else
    assert ((e0 =c t1) && (e1 =c t0));;
    Ok (set_homologsInverted (<[samp := 1%Z]> (homologsInverted t)) t).

(** Lines 318-324: a heterozygous site is counted. *)
Definition countHetSite (prevAndCurAncClass : Z) (t0 t1 : ascii)
    (t : tracker) : outcome tracker :=
  if t0 ≠c t1 then
    b ← incrAt (totalAncClassHetSites t) (ancBucket prevAndCurAncClass);
    Ok (set_totalAncClassHetSites b
          (set_totalHetSites (totalHetSites t + 1)%Z t))
  else Ok t.

(** Lines 345-360: a switch error is counted and the orientation is
    inverted for the next locus. *)
Definition recordSwitch (cfg : config) (numMarkers prevAndCurAncClass : Z)
    (samp : nat) (h : Z) (t : tracker) : outcome tracker :=
  b ← incrAt (numAncClassSwitchErrors t) (ancBucket prevAndCurAncClass);
  let t := set_numAncClassSwitchErrors b
             (set_numSwitchErrors (numSwitchErrors t + 1)%Z t) in
  let t := set_homologsInverted
             (<[samp := (1 - h)%Z]> (homologsInverted t)) t in
  let locus := (numMarkers - 1)%Z in
  t ← (if verbose cfg then
         p ← arr (prevSwitchError t) samp;
         n ← arr (indivNumSwitches t) samp;
         Ok (set_blockLog
               (blockLog t ++ [(Z.of_nat samp, n, locus, locus - p)%Z]) t)
       else Ok t);
  p ← store (prevSwitchError t) samp locus;
  n ← incrAt (indivNumSwitches t) samp;
  Ok (set_indivNumSwitches n (set_prevSwitchError p t)).

(** Lines 313-361: check for a switch error.  [estAlleles[h1]] is
    inside the pair exactly when [estAlleles[h0]] is, so both are read
    before the comparison. *)
Definition checkSwitch (cfg : config) (numMarkers prevAndCurAncClass : Z)
    (samp : nat) (h : Z) (e0 e1 t0 t1 : ascii) (t : tracker)
  : outcome tracker :=
  let h0 := h in
  let h1 := (1 - h)%Z in
  t ← countHetSite prevAndCurAncClass t0 t1 t;
  eh0 ← arrZ [e0; e1] h0;
  eh1 ← arrZ [e0; e1] h1;
  if eh0 =c t0 then
    assert (eh1 =c t1);; Ok t
  else
    assert ((eh0 =c t1) && (eh1 =c t0));;
    recordSwitch cfg numMarkers prevAndCurAncClass samp h t.

Definition phaseTrack (cfg : config) (numMarkers prevAndCurAncClass : Z)
    (samp : nat) (e0 e1 t0 t1 : ascii) (t : tracker) : outcome tracker :=
  h ← arr (homologsInverted t) samp;
  if (h =? -1)%Z then setOrientation samp e0 e1 t0 t1 t
  else checkSwitch cfg numMarkers prevAndCurAncClass samp h e0 e1 t0 t1 t.

(** Lines 272-362: what is left of the body once the trio check is
    passed. *)
Definition afterTrio (cfg : config) (numMarkers prevAndCurAncClass : Z)
    (samp : nat) (e0 e1 t0 t1 : ascii) (t : tracker) : outcome tracker :=
  if (e0 =c cQ) || (e1 =c cQ) then
    assert (e0 =c e1);; Ok (set_numMissing (numMissing t + 1)%Z t)
  else phaseTrack cfg numMarkers prevAndCurAncClass samp e0 e1 t0 t1 t.

(** One turn of [for(int samp = 0; samp < numSamples; samp++)].  The
    result is the tracker and the value of [samp] once the turn and the
    [samp++] of the loop header are done. *)
Definition sampleBody (cfg : config) (numMarkers : Z)
    (allEstAlleles allTrueAlleles : list ascii) (samp : nat) (t : tracker)
  : outcome (tracker * nat) :=
  '(prevAndCurAncClass, t) ← localAncStep cfg samp t;
  e0 ← arr allEstAlleles (samp * 2);
  t0 ← arr allTrueAlleles (samp * 2);
  assert (isTrueCode t0);;
  e1 ← arr allEstAlleles (samp * 2 + 1);
  t1 ← arr allTrueAlleles (samp * 2 + 1);
  assert (isTrueCode t1);;
  if (t0 =c c9) || (t1 =c c9) then
    Ok (if negb (oneHapTruthWarn t) && ((t0 ≠c c9) || (t1 ≠c c9))
        then set_oneHapTruthWarn true t else t, S samp)
  else
    assert ((e0 ≠c c9) && (e1 ≠c c9));;
    ambiguous ← trioCheck cfg allTrueAlleles samp t0 t1;
    if (ambiguous : bool) then
      Ok (t, if trioParentsInSuccession cfg then S (S samp) else S samp)
    else
      t ← afterTrio cfg numMarkers prevAndCurAncClass samp e0 e1 t0 t1 t;
      Ok (t, S samp).

(** The per-sample loop from index [samp] on. *)
Fixpoint sampLoop (cfg : config) (numMarkers : Z)
    (allEstAlleles allTrueAlleles : list ascii)
    (fuel : nat) (samp : nat) (t : tracker) : outcome tracker :=
  if (samp <? numSamples cfg)%nat then
    match fuel with
    | O => OutOfFuel
    | S fuel' =>
        '(t', next) ← sampleBody cfg numMarkers allEstAlleles allTrueAlleles
                        samp t;
        sampLoop cfg numMarkers allEstAlleles allTrueAlleles fuel' next t'
    end
  else Ok t.

(** Lines 197-363; every turn advances [samp], so [numSamples] turns
    are enough. *)
Definition compareLocus (cfg : config) (numMarkers : Z)
    (allEstAlleles allTrueAlleles : list ascii) (t : tracker)
  : outcome tracker :=
  sampLoop cfg numMarkers allEstAlleles allTrueAlleles (numSamples cfg) 0 t.

(** ** The per-locus loop *)

Record state : Type := State {
  estG : list ascii;
  trueG : list ascii;
  numMarkers : Z;
  trk : tracker
}.

(** Lines 153-192: both arrays of a locus and what is left of the two
    streams, each stopped at or before its newline. *)
Definition readSite (cfg : config) (est tru : list ascii)
  : outcome (list ascii * list ascii * list ascii * list ascii) :=
  e ← skipInitial cfg est;
  '(allEstAlleles, e) ←
      readEstAlleles (omitIndSet cfg) (2 * numSamples cfg) e 0%Z 0;
  '(allTrueAlleles, g) ← readTrueAlleles (2 * numSamples cfg) tru 0;
  Ok (allEstAlleles, allTrueAlleles, e, g).

(** One turn of [while ((c = fgetc(estG)) != EOF)], lines 151-367. *)
Definition locusStep (cfg : config) (st : state) : outcome state :=
  let nm := (numMarkers st + 1)%Z in
  '(allEstAlleles, allTrueAlleles, e, g) ← readSite cfg (estG st) (trueG st);
  t ← compareLocus cfg nm allEstAlleles allTrueAlleles (trk st);
  e ← toEndline e;
  g ← toEndline g;
  Ok (State e g nm t).

Fixpoint mainLoop (cfg : config) (fuel : nat) (st : state) : outcome state :=
  match estG st with
  | [] => Ok st
  | _ :: _ =>
      match fuel with
      | O => OutOfFuel
      | S fuel' => st' ← locusStep cfg st; mainLoop cfg fuel' st'
      end
  end.

(** Lines 98-146: the variables before the first locus.  [hapmix]
    holds the HAPMIX files by sample index; the first [numSamples] of
    them are opened. *)
Definition initTracker (cfg : config) (hapmix : list (list hapmixLine))
  : tracker :=
  {| hapmixFiles :=
       if useLocalAnc cfg then take (numSamples cfg) hapmix else [];
     prevLocalAnc :=
       if useLocalAnc cfg then replicate (numSamples cfg) (-1)%Z else [];
     homologsInverted := replicate (numSamples cfg) (-1)%Z;
     prevSwitchError := replicate (numSamples cfg) 0%Z;
     indivNumSwitches := replicate (numSamples cfg) 0%Z;
     numMissing := 0; numSwitchErrors := 0; totalHetSites := 0;
     numAncClassSwitchErrors := replicate 4 0%Z;
     totalAncClassHetSites := replicate 4 0%Z;
     oneHapTruthWarn := false;
     blockLog := [] |}.

Definition initState (cfg : config) (est tru : list ascii)
    (hapmix : list (list hapmixLine)) : state :=
  State est tru 0 (initTracker cfg hapmix).

(** The loop of [main] on its inputs.  A turn that ends normally has
    read at least one character of the estimated stream, so its length
    is enough fuel.  [openFile] leaves with [exit(1)] when a HAPMIX file
    of a sample cannot be opened. *)
Definition main (cfg : config) (est tru : list ascii)
    (hapmix : list (list hapmixLine)) : outcome state :=
  if useLocalAnc cfg && (length hapmix <? numSamples cfg)%nat
  then Exit1
  else mainLoop cfg (length est) (initState cfg est tru hapmix).

(** Lines 382-385: the switch rate that is printed; no value stands for
    the division by zero. *)
Definition switchRate (st : state) : option Q :=
  let denom1 := totalHetSites (trk st) in
  if (denom1 =? 0)%Z then None
  else Some (Qred (inject_Z (numSwitchErrors (trk st)) / inject_Z denom1)).

Definition str (s : string) : list ascii := list_ascii_of_string s.


(** ** Inputs of the scenarios *)

(** Scenario A: one sample, default options. *)
Definition cfgA : config :=
  {| numSamples := 1; skipNumInEst := 0; trioParentsInSuccession := false;
     otherParentIdx := None; verbose := false; omitIndSet := ∅;
     useLocalAnc := false |}.

Definition estA : list ascii :=
  str "01" ++ [nl] ++ str "10" ++ [nl] ++ str "01" ++ [nl].
Definition trueA : list ascii :=
  str "01" ++ [nl] ++ str "01" ++ [nl] ++ str "10" ++ [nl].

(** ** Notions used by the statements *)

(** The two trackers agree on every variable except the HAPMIX streams
    and [prevLocalAnc]: orientation, counters, logs. *)
Definition sameCounts (t u : tracker) : Prop :=
  homologsInverted u = homologsInverted t
  ∧ prevSwitchError u = prevSwitchError t
  ∧ indivNumSwitches u = indivNumSwitches t
  ∧ numMissing u = numMissing t
  ∧ numSwitchErrors u = numSwitchErrors t
  ∧ totalHetSites u = totalHetSites t
  ∧ numAncClassSwitchErrors u = numAncClassSwitchErrors t
  ∧ totalAncClassHetSites u = totalAncClassHetSites t
  ∧ oneHapTruthWarn u = oneHapTruthWarn t
  ∧ blockLog u = blockLog t.

(** The alleles of sample [samp] in an array of a locus. *)
Definition allelesOf (a : list ascii) (samp : nat) (x0 x1 : ascii) : Prop :=
  a !! (samp * 2) = Some x0 ∧ a !! (samp * 2 + 1) = Some x1.

(** A HAPMIX line that [getLocalAnc] accepts. *)
Definition goodLine : hapmixLine := Posterior 0 1 0 0.

(** Inputs on which the last sample of an odd-sized run is reached:
    every true genotype is missing, except the last one, which is
    heterozygous. *)
Definition lastHetTrue (n : nat) : list ascii :=
  replicate (2 * (n - 1)) c9 ++ [c0; c1].
Definition lastHetEst (n : nat) : list ascii :=
  replicate (2 * (n - 1)) c0 ++ [c0; c1].

(** When local ancestry is in use, the HAPMIX streams of the samples
    from index [k] on are unread. *)
Definition unreadFrom (cfg : config) (k : nat) (t : tracker) : Prop :=
  useLocalAnc cfg = true →
  ∀ s, k ≤ s < numSamples cfg →
    hapmixFiles t !! s = Some [goodLine]
    ∧ prevLocalAnc t !! s = Some (-1)%Z.

(** A site is informative for a sample when its true genotype is not
    missing and heterozygous, the trio check does not flag it, and its
    estimated genotype is not missing. *)
Definition informative (cfg : config) (E T : list ascii) (samp : nat)
  : Prop :=
  ∃ e0 e1 x0 x1,
    allelesOf E samp e0 e1 ∧ allelesOf T samp x0 x1
    ∧ x0 ≠ c9 ∧ x1 ≠ c9 ∧ x0 ≠ x1
    ∧ trioCheck cfg T samp x0 x1 = Ok false
    ∧ e0 ≠ cQ ∧ e1 ≠ cQ.

(** Orientation, personal switch counts and the two global counters
    are the same in both trackers. *)
Definition coreUnchanged (t t' : tracker) : Prop :=
  homologsInverted t' = homologsInverted t
  ∧ indivNumSwitches t' = indivNumSwitches t
  ∧ numSwitchErrors t' = numSwitchErrors t
  ∧ totalHetSites t' = totalHetSites t.

(** What a turn of the per-sample loop can do to the orientation of
    its sample and to the counters. *)
Inductive turnEffect (cfg : config) (E T : list ascii) (samp : nat)
    (t t' : tracker) : Prop :=
| TurnQuiet :
    coreUnchanged t t' →
    (homologsInverted t !! samp = Some (-1)%Z → ¬ informative cfg E T samp) →
    turnEffect cfg E T samp t t'
| TurnFirstHet (v : Z) :
    homologsInverted t !! samp = Some (-1)%Z →
    informative cfg E T samp →
    v = 0%Z ∨ v = 1%Z →
    homologsInverted t' = <[samp := v]> (homologsInverted t) →
    indivNumSwitches t' = indivNumSwitches t →
    numSwitchErrors t' = numSwitchErrors t →
    totalHetSites t' = totalHetSites t →
    turnEffect cfg E T samp t t'
| TurnHetMatch (h : Z) :
    homologsInverted t !! samp = Some h → h = 0%Z ∨ h = 1%Z →
    informative cfg E T samp →
    homologsInverted t' = homologsInverted t →
    indivNumSwitches t' = indivNumSwitches t →
    numSwitchErrors t' = numSwitchErrors t →
    totalHetSites t' = (totalHetSites t + 1)%Z →
    turnEffect cfg E T samp t t'
| TurnSwitch (h n : Z) :
    homologsInverted t !! samp = Some h → h = 0%Z ∨ h = 1%Z →
    informative cfg E T samp →
    homologsInverted t' = <[samp := (1 - h)%Z]> (homologsInverted t) →
    indivNumSwitches t !! samp = Some n →
    indivNumSwitches t' = <[samp := (n + 1)%Z]> (indivNumSwitches t) →
    numSwitchErrors t' = (numSwitchErrors t + 1)%Z →
    totalHetSites t' = (totalHetSites t + 1)%Z →
    turnEffect cfg E T samp t t'.

Definition sumZ (l : list Z) : Z := foldr Z.add 0%Z l.

(** The trackers that turns of the per-sample loop can produce from the
    initial one, each with a tally kept beside the program: for every
    sample, the number of turns of that sample that counted a
    heterozygous site in [totalHetSites]. *)
Inductive Reach (cfg : config) : tracker → list Z → Prop :=
| Reach_init hapmix :
    Reach cfg (initTracker cfg hapmix) (replicate (numSamples cfg) 0%Z)
| Reach_turn t hets nm E T samp t' next :
    Reach cfg t hets →
    samp < numSamples cfg →
    sampleBody cfg nm E T samp t = Ok (t', next) →
    Reach cfg t'
      (alter (Z.add (totalHetSites t' - totalHetSites t)) samp hets).

(** What holds of every reachable tracker and its tally. *)
Definition countsOK (cfg : config) (t : tracker) (hets : list Z) : Prop :=
  length hets = numSamples cfg
  ∧ length (indivNumSwitches t) = numSamples cfg
  ∧ (∀ s n k, indivNumSwitches t !! s = Some n → hets !! s = Some k →
       (0 ≤ n ≤ k)%Z)
  ∧ sumZ (indivNumSwitches t) = numSwitchErrors t
  ∧ sumZ hets = totalHetSites t
  ∧ (numSwitchErrors t ≤ totalHetSites t)%Z.

(** ** Lines of the two streams *)

(** The characters of a line that the loop of [readEstAlleles] keeps:
    those of the haplotypes that are not omitted. *)
Fixpoint keptAlleles (omit : gset Z) (curHap : Z) (l : list ascii)
  : list ascii :=
  match l with
  | [] => []
  | c :: l' =>
      if bool_decide ((curHap / 2)%Z ∈ omit)
      then keptAlleles omit (curHap + 1)%Z l'
      else c :: keptAlleles omit (curHap + 1)%Z l'
  end.

(** The allele characters of an estimated line, after skipping and
    omission. *)
Definition estAlleleChars (cfg : config) (line : list ascii) : list ascii :=
  keptAlleles (omitIndSet cfg) 0%Z
    (drop (Z.to_nat (2 * skipNumInEst cfg)) line).

(** The arrays that a locus is compared on. *)
Definition estArray (cfg : config) (line : list ascii) : list ascii :=
  take (2 * numSamples cfg) (estAlleleChars cfg line).
Definition trueArray (cfg : config) (line : list ascii) : list ascii :=
  take (2 * numSamples cfg) line.

(** A line, without its newline, that holds enough characters. *)
Definition estLineOK (cfg : config) (line : list ascii) : Prop :=
  (nl ∉ line)
  ∧ (0 ≤ skipNumInEst cfg)%Z
  ∧ Z.to_nat (2 * skipNumInEst cfg) ≤ length line
  ∧ 2 * numSamples cfg ≤ length (estAlleleChars cfg line).
Definition trueLineOK (cfg : config) (line : list ascii) : Prop :=
  (nl ∉ line) ∧ 2 * numSamples cfg ≤ length line.

(** The text of a stream made of the given lines. *)
Definition joinLines (lines : list (list ascii)) : list ascii :=
  concat (map (λ l, l ++ [nl]) lines).

(** The comparison of a sequence of loci given by their arrays,
    [nm] loci having been read before. *)
Fixpoint processLoci (cfg : config) (nm : Z)
    (loci : list (list ascii * list ascii)) (t : tracker)
  : outcome tracker :=
  match loci with
  | [] => Ok t
  | (E, T) :: loci' =>
      t' ← compareLocus cfg (nm + 1)%Z E T t;
      processLoci cfg (nm + 1)%Z loci' t'
  end.

(** Scenario with trio parents in succession and two samples. *)
Definition cfgTrio : config :=
  {| numSamples := 2; skipNumInEst := 0; trioParentsInSuccession := true;
     otherParentIdx := None; verbose := false; omitIndSet := ∅;
     useLocalAnc := false |}.

(** ** Well-formed inputs *)

(** The genotypes of a sample at a locus are consistent: the true
    alleles are valid, and unless one of them is missing, the estimated
    pair is missing on both haplotypes or is the true pair in one of
    the two orders. *)
Definition siteOK (E T : list ascii) (s : nat) : Prop :=
  ∃ e0 e1 x0 x1,
    allelesOf E s e0 e1 ∧ allelesOf T s x0 x1
    ∧ isTrueCode x0 = true ∧ isTrueCode x1 = true
    ∧ (x0 = c9 ∨ x1 = c9 ∨ (e0 = cQ ∧ e1 = cQ)
       ∨ (e0 = x0 ∧ e1 = x1) ∨ (e0 = x1 ∧ e1 = x0)).


(** The trio options are usable: parents in succession need an even
    number of samples, a pairing table names samples. *)
Definition trioConfigOK (cfg : config) : Prop :=
  match otherParentIdx cfg with
  | None => trioParentsInSuccession cfg = true → Nat.Even (numSamples cfg)
  | Some tbl =>
      trioParentsInSuccession cfg = false
      ∧ length tbl = numSamples cfg
      ∧ ∀ s p, tbl !! s = Some p → (0 ≤ p < Z.of_nat (numSamples cfg))%Z
  end.

(** The arrays of the tracker have their sizes and every orientation is
    -1, 0 or 1. *)
Definition trackerOK (cfg : config) (t : tracker) : Prop :=
  length (homologsInverted t) = numSamples cfg
  ∧ (∀ s h, homologsInverted t !! s = Some h →
       h = (-1)%Z ∨ h = 0%Z ∨ h = 1%Z)
  ∧ length (prevSwitchError t) = numSamples cfg
  ∧ length (indivNumSwitches t) = numSamples cfg
  ∧ length (numAncClassSwitchErrors t) = 4
  ∧ length (totalAncClassHetSites t) = 4.

(** A pair of lines, estimated and true, of a well-formed input: both
    hold enough characters and the genotypes of every sample are
    consistent. *)
Definition linesOK (cfg : config) (p : list ascii * list ascii) : Prop :=
  estLineOK cfg p.1 ∧ trueLineOK cfg p.2
  ∧ ∀ s, s < numSamples cfg →
      siteOK (estArray cfg p.1) (trueArray cfg p.2) s.

(** Trio parents in succession together with local ancestry, two
    samples, one locus at which both parents are heterozygous and
    transmit different alleles. *)
Definition cfgTrioAnc : config :=
  {| numSamples := 2; skipNumInEst := 0; trioParentsInSuccession := true;
     otherParentIdx := None; verbose := false; omitIndSet := ∅;
     useLocalAnc := true |}.
Definition estTripleHet : list ascii := str "0110" ++ [nl].
Definition trueTripleHet : list ascii := str "0110" ++ [nl].

(** ** Swapping the estimated homologs of a sample *)

(** The two estimated alleles of sample [s] exchanged in an array. *)
Definition swapAlleles (s : nat) (E : list ascii) : list ascii :=
  match E !! (s * 2), E !! (s * 2 + 1) with
  | Some a, Some b => <[s * 2 := b]> (<[s * 2 + 1 := a]> E)
  | _, _ => E
  end.

(** Aligned and Inverted exchanged; Unset stays. *)
Definition flipOrient (h : Z) : Z :=
  if (h =? -1)%Z then (-1)%Z else (1 - h)%Z.

Definition flipSample (s : nat) (t : tracker) : tracker :=
  set_homologsInverted (alter flipOrient s (homologsInverted t)) t.

Definition flipState (s : nat) (st : state) : state :=
  State (estG st) (trueG st) (numMarkers st) (flipSample s (trk st)).

(** The orientation of sample [s], when there is one, is -1, 0 or 1. *)
Definition orientValid (s : nat) (t : tracker) : Prop :=
  ∀ h, homologsInverted t !! s = Some h →
    h = (-1)%Z ∨ h = 0%Z ∨ h = 1%Z.

(** Two estimated lines that give the same arrays up to the exchange of
    the two alleles of sample [s]. *)
Definition swappedLine (cfg : config) (s : nat) (l l' : list ascii) : Prop :=
  estLineOK cfg l ∧ estLineOK cfg l'
  ∧ estArray cfg l' = swapAlleles s (estArray cfg l).

(** Further configurations of the examples: local ancestry with one
    sample; trio parents in succession with three samples; a pairing
    table for two samples. *)
Definition cfgAnc : config :=
  {| numSamples := 1; skipNumInEst := 0; trioParentsInSuccession := false;
     otherParentIdx := None; verbose := false; omitIndSet := ∅;
     useLocalAnc := true |}.
Definition cfgTrio3 : config :=
  {| numSamples := 3; skipNumInEst := 0; trioParentsInSuccession := true;
     otherParentIdx := None; verbose := false; omitIndSet := ∅;
     useLocalAnc := false |}.
Definition cfgTable : config :=
  {| numSamples := 2; skipNumInEst := 0; trioParentsInSuccession := false;
     otherParentIdx := Some [1%Z; 0%Z]; verbose := false; omitIndSet := ∅;
     useLocalAnc := false |}.

Definition estLinesA : list (list ascii) := [str "01"; str "10"; str "01"].
Definition estLinesA' : list (list ascii) := [str "10"; str "01"; str "10"].




(** * The rest of [main]: what is read before the loop and what is
    reported after it *)

(** ** The pairing table, lines 82-86 and 456-473 *)

(** The loop of [readTrioParentsPairs].  The file is the sequence of
    pairs that [fscanf(in, "%d %d", &id1, &id2)] reads before it first
    gives something other than 2.  The first [assert] reads the table
    at [id1], and at [id2] when the entry of [id1] is -1, before the
    second one compares the two ids with [numSamples]. *)
Fixpoint readPairsLoop (numSamples : nat) (pairs : list (Z * Z))
    (otherParentIdx : list Z) (numPairs : Z) : outcome (list Z * Z) :=
  match pairs with
  | [] => Ok (otherParentIdx, numPairs)
  | (id1, id2) :: pairs' =>
      let numPairs := (numPairs + 1)%Z in
      p1 ← arrZ otherParentIdx id1;
      (if (p1 =? -1)%Z
       then p2 ← arrZ otherParentIdx id2; assert (p2 =? -1)%Z
       else AssertFail);;
      assert (negb (id1 =? id2)%Z && (id1 <? Z.of_nat numSamples)%Z
              && (id2 <? Z.of_nat numSamples)%Z);;
      let otherParentIdx := <[Z.to_nat id1 := id2]> otherParentIdx in
      let otherParentIdx := <[Z.to_nat id2 := id1]> otherParentIdx in
      readPairsLoop numSamples pairs' otherParentIdx numPairs
  end.

Definition readTrioParentsPairs (pairs : list (Z * Z))
    (otherParentIdx : list Z) (numSamples : nat) : outcome (list Z) :=
  '(otherParentIdx, numPairs) ←
      readPairsLoop numSamples pairs otherParentIdx 0%Z;
  assert (numPairs * 2 =? Z.of_nat numSamples)%Z;;
  Ok otherParentIdx.

(** Lines 82-86: the table starts with -1 everywhere. *)
Definition loadTrioParents (numSamples : nat) (pairs : list (Z * Z))
  : outcome (list Z) :=
  readTrioParentsPairs pairs (replicate numSamples (-1)%Z) numSamples.

(** ** The omitted individuals, lines 88-96 *)


(** ** The report, lines 370-403 *)

(** Lines 370-378: in verbose mode, the record of the last block of
    every sample. *)
Definition lastBlocks (cfg : config) (st : state)
  : outcome (list (Z * Z * Z * Z)) :=
  if verbose cfg then
    mapM (λ samp,
            p ← arr (prevSwitchError (trk st)) samp;
            n ← arr (indivNumSwitches (trk st)) samp;
            let locus := (numMarkers st - 1)%Z in
            Ok (Z.of_nat samp, n, locus, locus - p)%Z)
         (seq 0 (numSamples cfg))
  else Ok [].

(** Lines 386-388: the missing rate is printed when there is a missing
    estimated genotype; no value stands for no line printed. *)
Definition missingRate (cfg : config) (st : state) : option Q :=
  let denom2 := (Z.of_nat (numSamples cfg) * numMarkers st)%Z in
  if (0 <? numMissing (trk st))%Z
  then Some (inject_Z (numMissing (trk st)) / inject_Z denom2)%Q
  else None.

(** ** Notions used by the statements on this part *)

(** The options that select the alleles of an estimated line, set to
    their defaults. *)
Definition plainLayout (cfg : config) : config :=
  {| numSamples := numSamples cfg; skipNumInEst := 0;
     trioParentsInSuccession := trioParentsInSuccession cfg;
     otherParentIdx := otherParentIdx cfg; verbose := verbose cfg;
     omitIndSet := ∅; useLocalAnc := useLocalAnc cfg |}.

Definition setVerbose (b : bool) (cfg : config) : config :=
  {| numSamples := numSamples cfg; skipNumInEst := skipNumInEst cfg;
     trioParentsInSuccession := trioParentsInSuccession cfg;
     otherParentIdx := otherParentIdx cfg; verbose := b;
     omitIndSet := omitIndSet cfg; useLocalAnc := useLocalAnc cfg |}.

Definition eraseLog (t : tracker) : tracker := set_blockLog [] t.
Definition eraseLogState (st : state) : state :=
  State (estG st) (trueG st) (numMarkers st) (eraseLog (trk st)).

(** The block lengths that the verbose records give for a sample, added
    up, and the number of those records. *)
Definition blockSum (s : nat) (log : list (Z * Z * Z * Z)) : Z :=
  sumZ ((λ '(a, _, _, d), if (a =? Z.of_nat s)%Z then d else 0%Z) <$> log).
Definition blockCount (s : nat) (log : list (Z * Z * Z * Z)) : Z :=
  sumZ ((λ '(a, _, _, _), if (a =? Z.of_nat s)%Z then 1%Z else 0%Z) <$> log).

(** A table in which every sample has a partner, other than itself,
    whose partner it is. *)
Definition pairedTable (n : nat) (tbl : list Z) : Prop :=
  length tbl = n
  ∧ ∀ i, i < n →
      ∃ p, tbl !! i = Some (Z.of_nat p) ∧ p < n ∧ p ≠ i
           ∧ tbl !! p = Some (Z.of_nat i).

(** The number of entries of a table that are not -1. *)
Definition setCount (tbl : list Z) : Z :=
  sumZ ((λ p, if (p =? -1)%Z then 0%Z else 1%Z) <$> tbl).

(** A table while the pairs are read: every entry is -1 or names a
    partner as in [pairedTable], and [2 * k] entries are set. *)
Definition partialTable (n : nat) (k : Z) (tbl : list Z) : Prop :=
  length tbl = n
  ∧ (∀ i p, tbl !! i = Some p →
       p = (-1)%Z
       ∨ ∃ q, p = Z.of_nat q ∧ q < n ∧ q ≠ i
              ∧ tbl !! q = Some (Z.of_nat i))
  ∧ setCount tbl = (2 * k)%Z.

(** What a turn can do to the counters stratified by ancestry class,
    [b] being the bucket of the turn. *)
Definition hetSame (t t' : tracker) : Prop :=
  totalAncClassHetSites t' = totalAncClassHetSites t
  ∧ totalHetSites t' = totalHetSites t.
Definition hetCounted (b : nat) (t t' : tracker) : Prop :=
  ∃ x, totalAncClassHetSites t !! b = Some x
       ∧ totalAncClassHetSites t'
         = <[b := (x + 1)%Z]> (totalAncClassHetSites t)
       ∧ totalHetSites t' = (totalHetSites t + 1)%Z.
Definition switchSame (t t' : tracker) : Prop :=
  numAncClassSwitchErrors t' = numAncClassSwitchErrors t
  ∧ numSwitchErrors t' = numSwitchErrors t.
Definition switchCounted (b : nat) (t t' : tracker) : Prop :=
  ∃ y, numAncClassSwitchErrors t !! b = Some y
       ∧ numAncClassSwitchErrors t'
         = <[b := (y + 1)%Z]> (numAncClassSwitchErrors t)
       ∧ numSwitchErrors t' = (numSwitchErrors t + 1)%Z.
Definition tallyEffect (b : nat) (t t' : tracker) : Prop :=
  (hetSame t t' ∧ switchSame t t')
  ∨ (hetCounted b t t' ∧ switchSame t t')
  ∨ (hetCounted b t t' ∧ switchCounted b t t').

(** The stratified counters partition the global ones. *)
Definition tallyOK (t : tracker) : Prop :=
  length (numAncClassSwitchErrors t) = 4
  ∧ length (totalAncClassHetSites t) = 4
  ∧ sumZ (numAncClassSwitchErrors t) = numSwitchErrors t
  ∧ sumZ (totalAncClassHetSites t) = totalHetSites t
  ∧ ∀ c y x, numAncClassSwitchErrors t !! c = Some y →
             totalAncClassHetSites t !! c = Some x → (0 ≤ y ≤ x)%Z.

(** Without local ancestry the three class buckets are not used. *)
Definition classBucketsZero (cfg : config) (t : tracker) : Prop :=
  useLocalAnc cfg = false →
  ∀ c, c < 3 → numAncClassSwitchErrors t !! c = Some 0%Z
               ∧ totalAncClassHetSites t !! c = Some 0%Z.

(** The number of newlines of a stream. *)
Definition countNl (s : list ascii) : nat :=
  length (filter (λ c, c = nl) s).

(** The arrays of the loci given by pairs of lines, estimated and
    true. *)
Definition lociOf (cfg : config) (lines : list (list ascii * list ascii))
  : list (list ascii * list ascii) :=
  map (λ p, (estArray cfg p.1, trueArray cfg p.2)) lines.

(** The true genotype of a sample is valid and missing on a
    haplotype. *)
Definition truthMissing (T : list ascii) (s : nat) : Prop :=
  ∃ x0 x1, allelesOf T s x0 x1
           ∧ isTrueCode x0 = true ∧ isTrueCode x1 = true
           ∧ (x0 = c9 ∨ x1 = c9).

(** The trio check flags the site of a sample. *)
Definition trioFlagged (cfg : config) (T : list ascii) (s : nat) : Prop :=
  ∃ x0 x1, allelesOf T s x0 x1 ∧ trioCheck cfg T s x0 x1 = Ok true.

(** In verbose mode: the arrays of the last switches have their size,
    and for every sample the block lengths logged so far add up to the
    locus of its last switch and the number of its records is its
    personal switch count. *)
Definition logOK (cfg : config) (t : tracker) : Prop :=
  length (prevSwitchError t) = numSamples cfg
  ∧ length (indivNumSwitches t) = numSamples cfg
  ∧ ∀ s, s < numSamples cfg →
      ∃ p k, prevSwitchError t !! s = Some p
             ∧ indivNumSwitches t !! s = Some k
             ∧ blockSum s (blockLog t) = p
             ∧ blockCount s (blockLog t) = k.

(** ** Inputs of the examples on this part *)

(** One sample read after one skipped individual and one omitted
    individual, number 0 after the skipped one. *)
Definition cfgSkipOmit : config :=
  {| numSamples := 1; skipNumInEst := 1; trioParentsInSuccession := false;
     otherParentIdx := None; verbose := false; omitIndSet := {[0%Z]};
     useLocalAnc := false |}.
Definition linesSkipOmit : list (list ascii) :=
  [str "110001"; str "001110"].


(** Scenario A in verbose mode. *)
Definition cfgVerbose : config := setVerbose true cfgA.

(** One locus at which the estimated genotype is missing. *)
Definition estMissing : list ascii := str "??" ++ [nl].
Definition trueOne : list ascii := str "01" ++ [nl].

(** A HAPMIX stream with a record for each locus of scenario A. *)
Definition hapmixA : list (list hapmixLine) :=
  [[goodLine; goodLine; goodLine]].

(** * Properties *)

(** ** Reasoning about outcomes *)

Lemma bind_Ok {A B : Type} (m : outcome A) (f : A → outcome B) (r : B) :
  m ≫= f = Ok r ↔ ∃ a, m = Ok a ∧ f a = Ok r.
Proof.
  split.
  - destruct m as [a| | | | |]; simpl; try discriminate. eauto.
  - intros (a & -> & Hf). exact Hf.
Qed.

Lemma assert_Ok (b : bool) (u : unit) : assert b = Ok u ↔ b = true.
Proof. destruct b, u; simpl; split; congruence. Qed.

Lemma arr_Ok {A : Type} (l : list A) (i : nat) (x : A) :
  arr l i = Ok x ↔ l !! i = Some x.
Proof. unfold arr. destruct (l !! i); split; congruence. Qed.

Lemma arr_lookup {A : Type} (l : list A) (i : nat) (x : A) :
  l !! i = Some x → arr l i = Ok x.
Proof. apply arr_Ok. Qed.

Lemma arrZ_of_nat {A : Type} (l : list A) (i : nat) :
  arrZ l (Z.of_nat i) = arr l i.
Proof.
  unfold arrZ. destruct (Z.ltb_spec (Z.of_nat i) 0); [lia|].
  by rewrite Nat2Z.id.
Qed.

Lemma incrAt_Ok (l l' : list Z) (i : nat) :
  incrAt l i = Ok l' ↔ ∃ x, l !! i = Some x ∧ l' = <[i := (x + 1)%Z]> l.
Proof.
  unfold incrAt. rewrite bind_Ok. split.
  - intros (x & Hx%arr_Ok & [= <-]). eauto.
  - intros (x & Hx & ->). exists x. by rewrite arr_Ok.
Qed.

Lemma store_Ok {A : Type} (l l' : list A) (i : nat) (v : A) :
  store l i v = Ok l' ↔ i < length l ∧ l' = <[i := v]> l.
Proof.
  unfold store. destruct (Nat.ltb_spec i (length l)); split.
  - intros [= <-]. done.
  - by intros [_ ->].
  - discriminate.
  - lia.
Qed.

Lemma eqb_neq_true (a b : ascii) : (a ≠c b) = true ↔ a ≠ b.
Proof. rewrite negb_true_iff. apply Ascii.eqb_neq. Qed.

(** Splits a hypothesis [m ≫= f = Ok r] into its two runs. *)
Ltac inv_bind H :=
  let a := fresh "a" in
  let Ha := fresh "Hrun" in
  apply bind_Ok in H; destruct H as (a & Ha & H).

Tactic Notation "bind_inv" hyp(H) "as" ident(a) ident(Ha) :=
  apply bind_Ok in H; destruct H as (a & Ha & H).

(** ** C1: scenario A *)

(** C1.  One sample, estimated lines 01, 10, 01 and true lines 01, 01,
    10.  The first locus sets the orientation to Aligned (0) and counts
    nothing; the second is a heterozygous site with a switch error, and
    the orientation becomes Inverted (1); the third is a heterozygous
    site without a switch.  The run ends with numSwitchErrors = 1,
    totalHetSites = 2 and the rate 1/2. *)
Theorem scenarioA_run :
  ∃ st1 st2 st3,
    locusStep cfgA (initState cfgA estA trueA []) = Ok st1
    ∧ homologsInverted (trk st1) = [0%Z]
    ∧ numSwitchErrors (trk st1) = 0%Z ∧ totalHetSites (trk st1) = 0%Z
    ∧ locusStep cfgA st1 = Ok st2
    ∧ homologsInverted (trk st2) = [1%Z]
    ∧ numSwitchErrors (trk st2) = 1%Z ∧ totalHetSites (trk st2) = 1%Z
    ∧ locusStep cfgA st2 = Ok st3
    ∧ homologsInverted (trk st3) = [1%Z]
    ∧ numSwitchErrors (trk st3) = 1%Z ∧ totalHetSites (trk st3) = 2%Z
    ∧ indivNumSwitches (trk st3) = [1%Z]
    ∧ main cfgA estA trueA [] = Ok st3
    ∧ switchRate st3 = Some (1 # 2)%Q.
Proof.
  eexists _, _, _.
  split; [vm_compute; reflexivity|].
  do 3 (split; [reflexivity|]).
  split; [vm_compute; reflexivity|].
  do 3 (split; [reflexivity|]).
  split; [vm_compute; reflexivity|].
  do 4 (split; [reflexivity|]).
  split; vm_compute; reflexivity.
Qed.

(** ** The body of the per-sample loop, step by step *)

Lemma sameCounts_refl (t : tracker) : sameCounts t t.
Proof. by repeat split. Qed.

Lemma localAncStep_frame cfg samp t pac t1 :
  localAncStep cfg samp t = Ok (pac, t1) → sameCounts t t1.
Proof.
  unfold localAncStep. destruct (useLocalAnc cfg).
  - intros H. inv_bind H. inv_bind H. destruct a0 as [cur f'].
    inv_bind H. injection H as _ <-. destruct t. by repeat split.
  - intros [= _ <-]. apply sameCounts_refl.
Qed.


(** Up to the trio check: the alleles are read and validated, a missing
    true allele ends the turn. *)
Lemma sampleBody_to_trio cfg nm E T samp t pac t1 e0 e1 x0 x1 :
  localAncStep cfg samp t = Ok (pac, t1) →
  allelesOf E samp e0 e1 → allelesOf T samp x0 x1 →
  isTrueCode x0 = true → isTrueCode x1 = true →
  x0 ≠ c9 → x1 ≠ c9 → e0 ≠ c9 → e1 ≠ c9 →
  sampleBody cfg nm E T samp t =
    (ambiguous ← trioCheck cfg T samp x0 x1;
     if (ambiguous : bool) then
       Ok (t1, if trioParentsInSuccession cfg then S (S samp) else S samp)
     else t' ← afterTrio cfg nm pac samp e0 e1 x0 x1 t1; Ok (t', S samp)).
Proof.
  intros Hanc [He0 He1] [Hx0 Hx1] Hc0 Hc1 Hn0 Hn1 Hm0 Hm1.
  unfold sampleBody. rewrite Hanc. simpl.
  rewrite (arr_lookup _ _ _ He0), (arr_lookup _ _ _ Hx0). simpl.
  rewrite Hc0. simpl.
  rewrite (arr_lookup _ _ _ He1), (arr_lookup _ _ _ Hx1). simpl.
  rewrite Hc1. simpl.
  apply Ascii.eqb_neq in Hn0, Hn1, Hm0, Hm1.
  rewrite Hn0, Hn1, Hm0, Hm1. reflexivity.
Qed.

Lemma tripleHet_in_bounds (T : list ascii) x0 x1 (p : Z) p0 p1 :
  arrZ T (p * 2) = Ok p0 → arrZ T (p * 2 + 1) = Ok p1 →
  tripleHet T x0 x1 p = Ok ((x0 ≠c x1) && (p0 ≠c p1) && (x0 ≠c p0)).
Proof.
  intros H0 H1. unfold tripleHet. rewrite H0, H1. simpl.
  by destruct (x0 =c x1).
Qed.

(** ** C2: the trio filter *)

(** C2.  Trio-awareness is on and the check is made for sample [samp]
    (under the in-succession convention: at an even index, with the
    partner [samp + 1]); the partner's true alleles are [p0], [p1]; the
    sample's true alleles are valid and not missing and its estimated
    alleles are not the truth-set missing marker.  Without a pairing
    table the check is only made at even indices.  If the sample is
    heterozygous, the partner is heterozygous and their first true
    alleles differ, the turn ends at once: orientation, counters and
    logs are the ones before the turn, and under the in-succession
    convention the loop index also passes the partner.  If one of the
    three fails, the turn is not ended by the filter: it goes on with
    the missing-estimate check and the phase tracker, and the loop index
    advances by one. *)
Theorem trio_filter_skips_exactly_triple_het
    cfg nm E T samp t pac t1 e0 e1 x0 x1 p p0 p1 :
  trioApplies cfg samp = true →
  otherParent cfg samp = Ok p →
  arrZ T (p * 2) = Ok p0 → arrZ T (p * 2 + 1) = Ok p1 →
  localAncStep cfg samp t = Ok (pac, t1) →
  allelesOf E samp e0 e1 → allelesOf T samp x0 x1 →
  isTrueCode x0 = true → isTrueCode x1 = true →
  x0 ≠ c9 → x1 ≠ c9 → e0 ≠ c9 → e1 ≠ c9 →
  (trioParentsInSuccession cfg = true → p = (Z.of_nat samp + 1)%Z)
  ∧ (otherParentIdx cfg = None →
     trioParentsInSuccession cfg = true ∧ samp mod 2 = 0)
  ∧ sameCounts t t1
  ∧ (x0 ≠ x1 ∧ p0 ≠ p1 ∧ x0 ≠ p0 →
     sampleBody cfg nm E T samp t =
       Ok (t1, if trioParentsInSuccession cfg then S (S samp) else S samp))
  ∧ (¬ (x0 ≠ x1 ∧ p0 ≠ p1 ∧ x0 ≠ p0) →
     sampleBody cfg nm E T samp t =
       (t' ← afterTrio cfg nm pac samp e0 e1 x0 x1 t1; Ok (t', S samp))).
Proof.
  intros Happ Hop Hp0 Hp1 Hanc HE HT Hc0 Hc1 Hn0 Hn1 Hm0 Hm1.
  split; [|split; [|split; [by eapply localAncStep_frame|]]].
  { intros Hs. unfold otherParent in Hop. rewrite Hs in Hop. congruence. }
  { intros Hnone. unfold trioApplies in Happ. rewrite Hnone in Happ.
    rewrite bool_decide_eq_false_2 in Happ by (intros H; by apply H).
    rewrite orb_false_r in Happ.
    apply andb_true_iff in Happ as [? ?%Nat.eqb_eq]. done. }
  rewrite (sampleBody_to_trio _ _ _ _ _ _ _ _ _ _ _ _ Hanc HE HT)
    by assumption.
  unfold trioCheck. rewrite Happ, Hop. simpl.
  rewrite (tripleHet_in_bounds _ _ _ _ _ _ Hp0 Hp1). simpl.
  split.
  - intros (H1 & H2 & H3). apply Ascii.eqb_neq in H1, H2, H3.
    by rewrite H1, H2, H3.
  - intros Hno.
    destruct (Ascii.eqb_spec x0 x1); simpl; [done|].
    destruct (Ascii.eqb_spec p0 p1); simpl; [done|].
    destruct (Ascii.eqb_spec x0 p0); simpl; [done|].
    exfalso. by apply Hno.
Qed.

(** ** C10: the table convention is symmetric within a pair *)

Lemma trioCheck_table cfg tbl (T : list ascii) s p x0 x1 p0 p1 :
  trioParentsInSuccession cfg = false →
  otherParentIdx cfg = Some tbl →
  tbl !! s = Some (Z.of_nat p) →
  allelesOf T p p0 p1 →
  trioCheck cfg T s x0 x1
  = Ok ((x0 ≠c x1) && (p0 ≠c p1) && (x0 ≠c p0)).
Proof.
  intros Hs Htbl Hsp [Hp0 Hp1].
  unfold trioCheck, trioApplies, otherParent. rewrite Hs, Htbl. simpl.
  rewrite (arr_lookup _ _ _ Hsp). simpl.
  apply tripleHet_in_bounds.
  - replace (Z.of_nat p * 2)%Z with (Z.of_nat (p * 2)) by lia.
    rewrite arrZ_of_nat. by apply arr_lookup.
  - replace (Z.of_nat p * 2 + 1)%Z with (Z.of_nat (p * 2 + 1)) by lia.
    rewrite arrZ_of_nat. by apply arr_lookup.
Qed.

(** C10.  With a pairing table in which [s] and [p] are partners of
    each other, the trio check gives the same answer at [s] and at [p]
    on every locus.  So when the check ends the turn of [s], the turn
    of [p] is ended by the check too, orientation and counters
    untouched, whenever that turn reaches the check: the true alleles
    of [p] are valid and not missing and its estimated alleles are not
    the truth-set missing marker.  The loop index advances by one only:
    the partner is skipped in its own turn. *)
Theorem trio_table_symmetric cfg tbl nm (E T : list ascii) s p s0 s1 p0 p1 :
  trioParentsInSuccession cfg = false →
  otherParentIdx cfg = Some tbl →
  tbl !! s = Some (Z.of_nat p) → tbl !! p = Some (Z.of_nat s) →
  allelesOf T s s0 s1 → allelesOf T p p0 p1 →
  trioCheck cfg T s s0 s1 = trioCheck cfg T p p0 p1
  ∧ (trioCheck cfg T s s0 s1 = Ok true ↔ s0 ≠ s1 ∧ p0 ≠ p1 ∧ s0 ≠ p0)
  ∧ (trioCheck cfg T s s0 s1 = Ok true →
     ∀ t pac t1 e0 e1,
       localAncStep cfg p t = Ok (pac, t1) →
       allelesOf E p e0 e1 →
       isTrueCode p0 = true → isTrueCode p1 = true →
       p0 ≠ c9 → p1 ≠ c9 → e0 ≠ c9 → e1 ≠ c9 →
       sampleBody cfg nm E T p t = Ok (t1, S p) ∧ sameCounts t t1).
Proof.
  intros Hs Htbl Hsp Hps HTs HTp.
  rewrite (trioCheck_table _ _ _ _ _ _ _ _ _ Hs Htbl Hsp HTp).
  rewrite (trioCheck_table _ _ _ _ _ _ _ _ _ Hs Htbl Hps HTs).
  assert (Hsym : (s0 ≠c s1) && (p0 ≠c p1) && (s0 ≠c p0)
                 = (p0 ≠c p1) && (s0 ≠c s1) && (p0 ≠c s0)).
  { rewrite (Ascii.eqb_sym p0 s0). by destruct (s0 =c s1), (p0 =c p1). }
  split; [by rewrite Hsym|]. split.
  - split.
    + intros [= H]. rewrite !andb_true_iff, !eqb_neq_true in H. tauto.
    + intros H. f_equal. rewrite !andb_true_iff, !eqb_neq_true. tauto.
  - intros Hskip t pac t1 e0 e1 Hanc HE Hc0 Hc1 Hn0 Hn1 Hm0 Hm1.
    split; [|by eapply localAncStep_frame].
    rewrite (sampleBody_to_trio _ _ _ _ _ _ _ _ _ _ _ _ Hanc HE HTp)
      by assumption.
    rewrite (trioCheck_table _ _ _ _ _ _ _ _ _ Hs Htbl Hps HTs).
    rewrite <- Hsym. injection Hskip as ->. simpl. by rewrite Hs.
Qed.

(** ** C9: the partner's alleles under the in-succession convention *)

Lemma trioCheck_succession cfg (T : list ascii) samp x0 x1 :
  trioParentsInSuccession cfg = true → samp mod 2 = 0 →
  trioCheck cfg T samp x0 x1 = tripleHet T x0 x1 (Z.of_nat samp + 1)%Z.
Proof.
  intros Hs Hev. unfold trioCheck, trioApplies, otherParent.
  rewrite Hs, Hev. reflexivity.
Qed.

Lemma tripleHet_partner_inside (T : list ascii) samp x0 x1 :
  2 * samp + 3 < length T →
  tripleHet T x0 x1 (Z.of_nat samp + 1)%Z ≠ OutOfBounds.
Proof.
  intros Hlen.
  destruct (lookup_lt_is_Some_2 T ((samp + 1) * 2)) as [p0 Hp0]; [lia|].
  destruct (lookup_lt_is_Some_2 T ((samp + 1) * 2 + 1)) as [p1 Hp1]; [lia|].
  erewrite tripleHet_in_bounds; [done| |].
  - replace ((Z.of_nat samp + 1) * 2)%Z with (Z.of_nat ((samp + 1) * 2))
      by lia.
    rewrite arrZ_of_nat. by apply arr_lookup.
  - replace ((Z.of_nat samp + 1) * 2 + 1)%Z
      with (Z.of_nat ((samp + 1) * 2 + 1)) by lia.
    rewrite arrZ_of_nat. by apply arr_lookup.
Qed.

Lemma tripleHet_partner_outside (T : list ascii) samp x0 x1 :
  length T ≤ 2 * samp + 2 → x0 ≠ x1 →
  tripleHet T x0 x1 (Z.of_nat samp + 1)%Z = OutOfBounds.
Proof.
  intros Hlen Hne. unfold tripleHet.
  apply Ascii.eqb_neq in Hne. rewrite Hne. simpl.
  replace ((Z.of_nat samp + 1) * 2)%Z with (Z.of_nat ((samp + 1) * 2))
    by lia.
  rewrite arrZ_of_nat. unfold arr.
  rewrite (lookup_ge_None_2 T ((samp + 1) * 2)) by lia. reflexivity.
Qed.

(** ** The per-sample loop *)

Lemma sampLoop_done cfg nm E T fuel samp t :
  numSamples cfg ≤ samp → sampLoop cfg nm E T fuel samp t = Ok t.
Proof.
  intros H. destruct fuel; simpl;
    by destruct (Nat.ltb_spec samp (numSamples cfg)); [lia|].
Qed.

Lemma sampLoop_step cfg nm E T fuel samp t :
  samp < numSamples cfg →
  sampLoop cfg nm E T (S fuel) samp t =
    ('(t', next) ← sampleBody cfg nm E T samp t;
     sampLoop cfg nm E T fuel next t').
Proof.
  intros H. simpl. by destruct (Nat.ltb_spec samp (numSamples cfg)); [|lia].
Qed.

(** A turn moves the loop index forward by one or two. *)
Lemma sampleBody_next cfg nm E T samp t t' next :
  sampleBody cfg nm E T samp t = Ok (t', next) →
  next = S samp
  ∨ (next = S (S samp) ∧ trioParentsInSuccession cfg = true).
Proof.
  unfold sampleBody. intros H.
  inv_bind H. destruct a as [pac t1].
  do 2 inv_bind H. inv_bind H. do 2 inv_bind H. inv_bind H.
  destruct ((a0 =c c9) || (a3 =c c9)).
  { injection H as _ <-. by left. }
  inv_bind H. inv_bind H. destruct a6.
  - injection H as _ <-. destruct (trioParentsInSuccession cfg); auto.
  - inv_bind H. injection H as _ <-. by left.
Qed.











(** A turn at a sample whose true genotype is missing on both
    haplotypes only reads the ancestry record. *)
Lemma sampleBody_missing cfg nm (E T : list ascii) samp t pac t1 e0 e1 :
  localAncStep cfg samp t = Ok (pac, t1) →
  allelesOf E samp e0 e1 → allelesOf T samp c9 c9 →
  sampleBody cfg nm E T samp t = Ok (t1, S samp).
Proof.
  intros Hanc [He0 He1] [Hx0 Hx1]. unfold sampleBody. rewrite Hanc. simpl.
  rewrite (arr_lookup _ _ _ He0), (arr_lookup _ _ _ Hx0). simpl.
  rewrite (arr_lookup _ _ _ He1), (arr_lookup _ _ _ Hx1). simpl.
  by rewrite andb_false_r.
Qed.

Lemma localAncStep_unread cfg k t :
  k < numSamples cfg → unreadFrom cfg k t →
  ∃ pac t1, localAncStep cfg k t = Ok (pac, t1) ∧ unreadFrom cfg (S k) t1.
Proof.
  intros Hk Hun. unfold localAncStep.
  destruct (useLocalAnc cfg) eqn:Hu.
  - destruct (Hun Hu k) as [Hf Hp]; [lia|].
    rewrite (arr_lookup _ _ _ Hf). simpl.
    rewrite (arr_lookup _ _ _ Hp). simpl.
    eexists _, _. split; [reflexivity|].
    intros _ s Hs. destruct (Hun Hu s) as [Hf' Hp']; [lia|].
    destruct t; simpl in *.
    rewrite !list_lookup_insert_ne by lia. done.
  - eexists _, _. split; [reflexivity|]. intros Hu'. congruence.
Qed.

Lemma lastHet_lookup_prefix n c s i :
  s < n - 1 → i < 2 →
  (replicate (2 * (n - 1)) c ++ [c0; c1]) !! (s * 2 + i) = Some c.
Proof.
  intros Hs Hi. rewrite lookup_app_l by (rewrite length_replicate; lia).
  apply lookup_replicate_2. lia.
Qed.

Lemma lastHet_lookup_last n c :
  0 < n →
  allelesOf (replicate (2 * (n - 1)) c ++ [c0; c1]) (n - 1) c0 c1.
Proof.
  intros Hn. split.
  - rewrite lookup_app_r by (rewrite length_replicate; lia).
    rewrite length_replicate.
    by replace ((n - 1) * 2 - 2 * (n - 1)) with 0 by lia.
  - rewrite lookup_app_r by (rewrite length_replicate; lia).
    rewrite length_replicate.
    by replace ((n - 1) * 2 + 1 - 2 * (n - 1)) with 1 by lia.
Qed.

(** With an odd number of samples the last turn is reached and reads
    the alleles of a partner that does not exist. *)
Lemma sampLoop_lastHet cfg nm fuel k t :
  trioParentsInSuccession cfg = true →
  Nat.Odd (numSamples cfg) →
  k < numSamples cfg → numSamples cfg - k ≤ fuel →
  unreadFrom cfg k t →
  sampLoop cfg nm (lastHetEst (numSamples cfg))
    (lastHetTrue (numSamples cfg)) fuel k t = OutOfBounds.
Proof.
  intros Hs [m Hm]. revert k t.
  induction fuel as [|fuel IH]; intros k t Hk Hf Hun; [lia|].
  rewrite sampLoop_step by done.
  destruct (localAncStep_unread cfg k t Hk Hun) as (pac & t1 & Hanc & Hun1).
  destruct (decide (k = numSamples cfg - 1)) as [->|Hne].
  - erewrite sampleBody_to_trio;
      [|exact Hanc|apply lastHet_lookup_last; lia
       |apply lastHet_lookup_last; lia|done..].
    rewrite trioCheck_succession; [|done|].
    2:{ replace (numSamples cfg - 1) with (m * 2) by lia.
        apply Nat.Div0.mod_mul. }
    rewrite tripleHet_partner_outside; [done| |done].
    unfold lastHetTrue. rewrite length_app, length_replicate. simpl. lia.
  - erewrite sampleBody_missing; [|exact Hanc| |].
    + simpl. apply IH; [lia|lia|done].
    + split; [|by apply lastHet_lookup_prefix; lia].
      replace (k * 2) with (k * 2 + 0) by lia.
      apply lastHet_lookup_prefix; lia.
    + split; [|by apply lastHet_lookup_prefix; lia].
      replace (k * 2) with (k * 2 + 0) by lia.
      apply lastHet_lookup_prefix; lia.
Qed.

Lemma initTracker_unread cfg :
  unreadFrom cfg 0 (initTracker cfg (replicate (numSamples cfg) [goodLine])).
Proof.
  intros Hu s Hs. unfold initTracker. simpl. rewrite Hu.
  rewrite take_replicate, Nat.min_id.
  split; apply lookup_replicate_2; lia.
Qed.

(** C9.  Under the in-succession convention the partner of [samp] is
    [samp + 1], and the check reads [allTrueAlleles] at
    [2 * (samp + 1)] and [2 * (samp + 1) + 1].  For an array of
    [2 * numSamples] alleles, these reads stay inside the array at
    every even sample index and for all alleles of the sample exactly
    when [numSamples] is even.  When [numSamples] is odd the last index
    is even, the check made there for a heterozygous sample reads
    outside the array, and that turn is reached by a run of the
    per-sample loop. *)
Theorem succession_partner_in_bounds_iff_even cfg (T : list ascii) :
  trioParentsInSuccession cfg = true →
  length T = 2 * numSamples cfg →
  (∀ samp, otherParent cfg samp = Ok (Z.of_nat samp + 1)%Z)
  ∧ ((∀ samp x0 x1, samp < numSamples cfg → samp mod 2 = 0 →
        trioCheck cfg T samp x0 x1 ≠ OutOfBounds)
     ↔ Nat.Even (numSamples cfg))
  ∧ (Nat.Odd (numSamples cfg) →
     (numSamples cfg - 1) mod 2 = 0
     ∧ (∀ x0 x1, x0 ≠ x1 →
          trioCheck cfg T (numSamples cfg - 1) x0 x1 = OutOfBounds)
     ∧ ∀ nm, compareLocus cfg nm (lastHetEst (numSamples cfg))
               (lastHetTrue (numSamples cfg))
               (initTracker cfg (replicate (numSamples cfg) [goodLine]))
             = OutOfBounds).
Proof.
  intros Hs Hlen.
  assert (Hlast : Nat.Odd (numSamples cfg) →
            (numSamples cfg - 1) mod 2 = 0
            ∧ ∀ x0 x1, x0 ≠ x1 →
                trioCheck cfg T (numSamples cfg - 1) x0 x1 = OutOfBounds).
  { intros [m Hm].
    assert (Hev : (numSamples cfg - 1) mod 2 = 0).
    { replace (numSamples cfg - 1) with (m * 2) by lia.
      apply Nat.Div0.mod_mul. }
    split; [done|]. intros x0 x1 Hne.
    rewrite trioCheck_succession by done.
    apply tripleHet_partner_outside; [lia|done]. }
  split; [|split].
  - intros samp. unfold otherParent. by rewrite Hs.
  - split.
    + intros Hin. destruct (Nat.Even_or_Odd (numSamples cfg)) as [|Hodd];
        [done|]. exfalso.
      destruct (Hlast Hodd) as [Hev Hout].
      apply (Hin (numSamples cfg - 1) c0 c1); [destruct Hodd; lia|done|].
      by apply Hout.
    + intros [m Hm] samp x0 x1 Hlt Hev.
      rewrite trioCheck_succession by done.
      apply tripleHet_partner_inside.
      assert (samp ≠ numSamples cfg - 1).
      { intros ->. replace (numSamples cfg - 1) with (1 + (m - 1) * 2) in Hev
          by lia. rewrite Nat.Div0.mod_add in Hev. discriminate. }
      lia.
  - intros Hodd. destruct (Hlast Hodd) as [Hev Hout].
    split; [done|]. split; [done|]. intros nm.
    apply sampLoop_lastHet; [done|done|destruct Hodd; lia|lia|].
    apply initTracker_unread.
Qed.

(** ** What a turn does *)


Lemma sameCounts_core t t' : sameCounts t t' → coreUnchanged t t'.
Proof. intros (?&?&?&?&?&?&?). by repeat split. Qed.

Lemma allelesOf_inj (a : list ascii) samp x0 x1 y0 y1 :
  allelesOf a samp x0 x1 → allelesOf a samp y0 y1 → x0 = y0 ∧ x1 = y1.
Proof. intros [H0 H1] [G0 G1]. split; congruence. Qed.

Lemma arrZ_pair_Ok (e0 e1 : ascii) (h : Z) (x : ascii) :
  arrZ [e0; e1] h = Ok x → (h = 0%Z ∧ x = e0) ∨ (h = 1%Z ∧ x = e1).
Proof.
  unfold arrZ. destruct (Z.ltb_spec h 0); [done|].
  rewrite arr_Ok. intros Hl.
  assert (Z.to_nat h < 2) by (apply lookup_lt_Some in Hl; simpl in Hl; lia).
  destruct (Z.to_nat h) as [|[|k]] eqn:Hh; [| |lia].
  - left. split; [lia|]. by injection Hl.
  - right. split; [lia|]. by injection Hl.
Qed.

Lemma setOrientation_Ok samp e0 e1 x0 x1 t t' :
  setOrientation samp e0 e1 x0 x1 t = Ok t' →
  (x0 = x1 ∧ t' = t)
  ∨ (x0 ≠ x1 ∧ ∃ v, (v = 0%Z ∨ v = 1%Z)
       ∧ t' = set_homologsInverted (<[samp := v]> (homologsInverted t)) t).
Proof.
  unfold setOrientation. destruct (Ascii.eqb_spec x0 x1) as [->|Hne].
  - intros H. inv_bind H. injection H as <-. by left.
  - right. split; [done|]. destruct (e0 =c x0).
    + inv_bind H. injection H as <-. exists 0%Z. auto.
    + inv_bind H. injection H as <-. exists 1%Z. auto.
Qed.

Lemma checkSwitch_Ok cfg nm pac samp h e0 e1 x0 x1 t t' :
  checkSwitch cfg nm pac samp h e0 e1 x0 x1 t = Ok t' →
  (h = 0%Z ∨ h = 1%Z)
  ∧ ((homologsInverted t' = homologsInverted t
      ∧ indivNumSwitches t' = indivNumSwitches t
      ∧ numSwitchErrors t' = numSwitchErrors t
      ∧ ((x0 = x1 ∧ totalHetSites t' = totalHetSites t)
         ∨ (x0 ≠ x1 ∧ totalHetSites t' = (totalHetSites t + 1)%Z)))
     ∨ (x0 ≠ x1
        ∧ homologsInverted t' = <[samp := (1 - h)%Z]> (homologsInverted t)
        ∧ ∃ n, indivNumSwitches t !! samp = Some n
            ∧ indivNumSwitches t' = <[samp := (n + 1)%Z]> (indivNumSwitches t)
            ∧ numSwitchErrors t' = (numSwitchErrors t + 1)%Z
            ∧ totalHetSites t' = (totalHetSites t + 1)%Z)).
Proof.
  unfold checkSwitch, countHetSite, recordSwitch. intros H.
  inv_bind H. rename a into tm.
  assert (Htm : homologsInverted tm = homologsInverted t
                ∧ indivNumSwitches tm = indivNumSwitches t
                ∧ numSwitchErrors tm = numSwitchErrors t
                ∧ ((x0 = x1 ∧ totalHetSites tm = totalHetSites t)
                   ∨ (x0 ≠ x1 ∧ totalHetSites tm = (totalHetSites t + 1)%Z))).
  { destruct (Ascii.eqb_spec x0 x1) as [->|Hne]; simpl in Hrun.
    - injection Hrun as <-. repeat split. by left.
    - inv_bind Hrun. injection Hrun as <-. destruct t. repeat split.
      by right. }
  clear Hrun. destruct Htm as (Hhi & Hin & Hns & Hth).
  inv_bind H. rename a into eh0. inv_bind H. rename a into eh1.
  apply arrZ_pair_Ok in Hrun, Hrun0.
  split; [tauto|].
  destruct (Ascii.eqb_spec eh0 x0) as [->|Hmis].
  - inv_bind H. injection H as <-. left. by rewrite Hhi, Hin, Hns.
  - inv_bind H. apply assert_Ok, andb_true_iff in Hrun1.
    destruct Hrun1 as [->%Ascii.eqb_eq ->%Ascii.eqb_eq].
    inv_bind H. rename a0 into b.
    inv_bind H. rename a0 into tv.
    assert (Htv : homologsInverted tv
                  = <[samp := (1 - h)%Z]> (homologsInverted t)
                  ∧ indivNumSwitches tv = indivNumSwitches t
                  ∧ prevSwitchError tv = prevSwitchError tm
                  ∧ numSwitchErrors tv = (numSwitchErrors t + 1)%Z
                  ∧ totalHetSites tv = totalHetSites tm).
    { rewrite <- Hhi, <- Hin, <- Hns. destruct (verbose cfg).
      - inv_bind Hrun2. inv_bind Hrun2. injection Hrun2 as <-.
        destruct tm. by repeat split.
      - injection Hrun2 as <-. destruct tm. by repeat split. }
    clear Hrun2. destruct Htv as (Vhi & Vin & Vps & Vns & Vth).
    inv_bind H. rename a0 into ps. inv_bind H. rename a0 into ins.
    injection H as <-.
    apply incrAt_Ok in Hrun3 as (n & Hn & ->).
    right. split; [congruence|].
    destruct Hth as [[-> _]|[_ Hth]]; [done|].
    rewrite Vin in Hn.
    split; [destruct tv; simpl in *; congruence|]. exists n.
    destruct tv; simpl in *. subst. by repeat split.
Qed.

Lemma sampleBody_effect cfg nm E T samp t t' next :
  sampleBody cfg nm E T samp t = Ok (t', next) →
  turnEffect cfg E T samp t t'.
Proof.
  unfold sampleBody. intros H.
  bind_inv H as r Hanc. destruct r as [pac t1].
  apply localAncStep_frame, sameCounts_core in Hanc.
  destruct Hanc as (Hhi & Hin & Hns & Hth).
  bind_inv H as e0 He0. bind_inv H as x0 Hx0. bind_inv H as u0 Hc0.
  bind_inv H as e1 He1. bind_inv H as x1 Hx1. bind_inv H as u1 Hc1.
  apply arr_Ok in He0, Hx0, He1, Hx1.
  assert (HE : allelesOf E samp e0 e1) by done.
  assert (HT : allelesOf T samp x0 x1) by done.
  destruct ((x0 =c c9) || (x1 =c c9)) eqn:Hmiss.
  { injection H as <- _. apply TurnQuiet.
    - destruct (_ && _); destruct t1; by repeat split.
    - intros _ (e0' & e1' & y0 & y1 & _ & HT' & Hy0 & Hy1 & _).
      destruct (allelesOf_inj _ _ _ _ _ _ HT HT') as [<- <-].
      apply orb_true_iff in Hmiss as [?%Ascii.eqb_eq|?%Ascii.eqb_eq]; done. }
  bind_inv H as u2 Hm. bind_inv H as amb Htrio. destruct amb.
  { injection H as <- _. apply TurnQuiet; [by repeat split|].
    intros _ (e0' & e1' & y0 & y1 & _ & HT' & _ & _ & _ & Hno & _).
    destruct (allelesOf_inj _ _ _ _ _ _ HT HT') as [<- <-]. congruence. }
  bind_inv H as t2 Hafter. injection H as <- _.
  unfold afterTrio in Hafter.
  destruct ((e0 =c cQ) || (e1 =c cQ)) eqn:HQ.
  { bind_inv Hafter as u3 Hq. injection Hafter as <-. apply TurnQuiet.
    - destruct t1; by repeat split.
    - intros _ (e0' & e1' & y0 & y1 & HE' & _ & _ & _ & _ & _ & Hq0 & Hq1).
      destruct (allelesOf_inj _ _ _ _ _ _ HE HE') as [<- <-].
      apply orb_true_iff in HQ as [?%Ascii.eqb_eq|?%Ascii.eqb_eq]; done. }
  apply orb_false_iff in Hmiss as [Hn0%Ascii.eqb_neq Hn1%Ascii.eqb_neq].
  apply orb_false_iff in HQ as [Hq0%Ascii.eqb_neq Hq1%Ascii.eqb_neq].
  unfold phaseTrack in Hafter. bind_inv Hafter as h Hh.
  apply arr_Ok in Hh. rewrite Hhi in Hh.
  assert (Hinf : x0 ≠ x1 → informative cfg E T samp).
  { intros Hne. by exists e0, e1, x0, x1. }
  destruct (Z.eqb_spec h (-1)) as [->|Hset].
  - apply setOrientation_Ok in Hafter as [[-> ->]|(Hne & v & Hv & ->)].
    + apply TurnQuiet; [by repeat split|].
      intros _ (e0' & e1' & y0 & y1 & _ & HT' & _ & _ & Hy & _).
      by destruct (allelesOf_inj _ _ _ _ _ _ HT HT') as [<- <-].
    + apply (TurnFirstHet _ _ _ _ _ _ v); auto;
        destruct t1; simpl in *; congruence.
  - apply checkSwitch_Ok in Hafter as (Hv & Hcase).
    destruct Hcase as [(Ghi & Gin & Gns & [[Heq Gth]|[Hne Gth]])
                      |(Hne & Ghi & n & Gn & Gin & Gns & Gth)].
    + apply TurnQuiet; [repeat split; congruence|].
      intros Hm'. rewrite Hm' in Hh. injection Hh as <-. lia.
    + apply (TurnHetMatch _ _ _ _ _ _ h); auto; congruence.
    + apply (TurnSwitch _ _ _ _ _ _ h n); auto; congruence.
Qed.

Lemma countHetSite_hapmix pac x0 x1 t t' :
  countHetSite pac x0 x1 t = Ok t' →
  hapmixFiles t' = hapmixFiles t ∧ prevLocalAnc t' = prevLocalAnc t.
Proof.
  unfold countHetSite. destruct (x0 ≠c x1).
  - intros H. bind_inv H as b Hb. injection H as <-. by destruct t.
  - by intros [= <-].
Qed.

Lemma recordSwitch_hapmix cfg nm pac samp h t t' :
  recordSwitch cfg nm pac samp h t = Ok t' →
  hapmixFiles t' = hapmixFiles t ∧ prevLocalAnc t' = prevLocalAnc t.
Proof.
  unfold recordSwitch. intros H. bind_inv H as b Hb.
  bind_inv H as t1 Ht1. bind_inv H as p Hp. bind_inv H as n Hn.
  injection H as <-.
  assert (hapmixFiles t1 = hapmixFiles t ∧ prevLocalAnc t1 = prevLocalAnc t)
    as [<- <-].
  { destruct (verbose cfg).
    - bind_inv Ht1 as p' Hp'. bind_inv Ht1 as n' Hn'. injection Ht1 as <-.
      by destruct t.
    - injection Ht1 as <-. by destruct t. }
  by destruct t1.
Qed.

Lemma afterTrio_hapmix cfg nm pac samp e0 e1 x0 x1 t t' :
  afterTrio cfg nm pac samp e0 e1 x0 x1 t = Ok t' →
  hapmixFiles t' = hapmixFiles t ∧ prevLocalAnc t' = prevLocalAnc t.
Proof.
  unfold afterTrio, phaseTrack. destruct (_ || _).
  { intros H. bind_inv H as u Hu. injection H as <-. by destruct t. }
  intros H. bind_inv H as h Hh. destruct (h =? -1)%Z.
  - apply setOrientation_Ok in H as [[_ ->]|(_ & v & _ & ->)];
      [done|by destruct t].
  - unfold checkSwitch in H. bind_inv H as t1 Ht1.
    apply countHetSite_hapmix in Ht1 as [<- <-].
    bind_inv H as eh0 H0. bind_inv H as eh1 H1. destruct (eh0 =c x0).
    + bind_inv H as u Hu. by injection H as <-.
    + bind_inv H as u Hu. by apply recordSwitch_hapmix in H.
Qed.


(** ** Invariants of the loops *)

(** A property of the tracker that every turn keeps is kept by the
    per-sample loop and by the per-locus loop. *)
Section Preserved.
Context (cfg : config) (P : tracker → Prop).
Hypothesis turn : ∀ nm E T samp t t' next,
  samp < numSamples cfg → P t →
  sampleBody cfg nm E T samp t = Ok (t', next) → P t'.

Lemma sampLoop_preserves nm E T fuel samp t t' :
  P t → sampLoop cfg nm E T fuel samp t = Ok t' → P t'.
Proof using turn.
  revert samp t. induction fuel as [|fuel IH]; intros samp t Ht H.
  - simpl in H. destruct (samp <? numSamples cfg); [done|congruence].
  - destruct (decide (samp < numSamples cfg)) as [Hlt|Hge].
    + rewrite sampLoop_step in H by done.
      bind_inv H as r Hb. destruct r as [t1 next].
      eapply IH; [|exact H]. by eapply turn.
    + rewrite sampLoop_done in H by lia. congruence.
Qed.

Lemma locusStep_preserves st st' :
  P (trk st) → locusStep cfg st = Ok st' → P (trk st').
Proof using turn.
  unfold locusStep. intros Ht H.
  bind_inv H as r Hr. destruct r as [[[E T] e] g].
  bind_inv H as t' Hc. bind_inv H as e' He. bind_inv H as g' Hg.
  injection H as <-. simpl. by eapply sampLoop_preserves.
Qed.

Lemma mainLoop_preserves fuel st fin :
  P (trk st) → mainLoop cfg fuel st = Ok fin → P (trk fin).
Proof using turn.
  revert st. induction fuel as [|fuel IH]; intros st Ht H.
  - simpl in H. destruct (estG st); congruence.
  - simpl in H. destruct (estG st); [congruence|].
    bind_inv H as st' Hs. eapply IH; [|exact H].
    by eapply locusStep_preserves.
Qed.
End Preserved.

(** ** C4: the orientation of a sample *)

(** C4.  Before the first locus every orientation is Unset (-1).  In a
    turn of the per-sample loop (a) only the orientation of the turn's
    own sample can change; (b) when that orientation is Unset, the turn
    changes neither totalHetSites nor numSwitchErrors nor a personal
    switch count, the orientation stays Unset when the site is not
    informative (heterozygous, not missing, not flagged by the trio
    check) and becomes Aligned (0) or Inverted (1) when it is; (c) when
    it is Aligned or Inverted, either it stays as it is and no switch
    error is counted, or it is toggled and exactly one switch error is
    counted, globally and for the sample.  Over a whole run of the
    per-locus loop, an orientation that is Aligned or Inverted is still
    Aligned or Inverted at the end. *)
Theorem orientation_set_once_then_toggles cfg :
  (∀ hapmix s, s < numSamples cfg →
     homologsInverted (initTracker cfg hapmix) !! s = Some (-1)%Z)
  ∧ (∀ nm E T samp t t' next,
       sampleBody cfg nm E T samp t = Ok (t', next) →
       (∀ s, s ≠ samp →
          homologsInverted t' !! s = homologsInverted t !! s)
       ∧ (homologsInverted t !! samp = Some (-1)%Z →
          totalHetSites t' = totalHetSites t
          ∧ numSwitchErrors t' = numSwitchErrors t
          ∧ indivNumSwitches t' = indivNumSwitches t
          ∧ (¬ informative cfg E T samp →
             homologsInverted t' !! samp = Some (-1)%Z)
          ∧ (informative cfg E T samp →
             homologsInverted t' !! samp = Some 0%Z
             ∨ homologsInverted t' !! samp = Some 1%Z))
       ∧ (∀ h, homologsInverted t !! samp = Some h → h = 0%Z ∨ h = 1%Z →
          (homologsInverted t' !! samp = Some h
           ∧ indivNumSwitches t' = indivNumSwitches t
           ∧ numSwitchErrors t' = numSwitchErrors t)
          ∨ (homologsInverted t' !! samp = Some (1 - h)%Z
             ∧ (∃ n, indivNumSwitches t !! samp = Some n
                  ∧ indivNumSwitches t'
                    = <[samp := (n + 1)%Z]> (indivNumSwitches t))
             ∧ numSwitchErrors t' = (numSwitchErrors t + 1)%Z)))
  ∧ (∀ fuel st fin s h,
       mainLoop cfg fuel st = Ok fin →
       homologsInverted (trk st) !! s = Some h → h = 0%Z ∨ h = 1%Z →
       ∃ h', homologsInverted (trk fin) !! s = Some h'
             ∧ (h' = 0%Z ∨ h' = 1%Z)).
Proof.
  assert (Hturn : ∀ nm E T samp t t' next,
    sampleBody cfg nm E T samp t = Ok (t', next) →
    (∀ s, s ≠ samp → homologsInverted t' !! s = homologsInverted t !! s)
    ∧ (homologsInverted t !! samp = Some (-1)%Z →
       totalHetSites t' = totalHetSites t
       ∧ numSwitchErrors t' = numSwitchErrors t
       ∧ indivNumSwitches t' = indivNumSwitches t
       ∧ (¬ informative cfg E T samp →
          homologsInverted t' !! samp = Some (-1)%Z)
       ∧ (informative cfg E T samp →
          homologsInverted t' !! samp = Some 0%Z
          ∨ homologsInverted t' !! samp = Some 1%Z))
    ∧ (∀ h, homologsInverted t !! samp = Some h → h = 0%Z ∨ h = 1%Z →
       (homologsInverted t' !! samp = Some h
        ∧ indivNumSwitches t' = indivNumSwitches t
        ∧ numSwitchErrors t' = numSwitchErrors t)
       ∨ (homologsInverted t' !! samp = Some (1 - h)%Z
          ∧ (∃ n, indivNumSwitches t !! samp = Some n
               ∧ indivNumSwitches t'
                 = <[samp := (n + 1)%Z]> (indivNumSwitches t))
          ∧ numSwitchErrors t' = (numSwitchErrors t + 1)%Z))).
  { intros nm E T samp t t' next Hb.
    destruct (sampleBody_effect _ _ _ _ _ _ _ _ Hb)
      as [(Hhi & Hin & Hns & Hth) Hni
         |v Hun Hinf Hv Hhi Hin Hns Hth
         |h Hh Hv Hinf Hhi Hin Hns Hth
         |h n Hh Hv Hinf Hhi Hn Hin Hns Hth].
    - rewrite Hhi. split; [done|]. split.
      + intros Hun. repeat split; try done. intros Hinf.
        by destruct (Hni Hun).
      + intros h Hh Hv. by left.
    - rewrite Hhi. split; [|split].
      + intros s Hs. by rewrite list_lookup_insert_ne.
      + intros _. repeat split; try done.
        rewrite list_lookup_insert_eq by (by eapply lookup_lt_Some).
        destruct Hv as [-> | ->]; auto.
      + intros h Hh Hv'. rewrite Hun in Hh. injection Hh as <-. lia.
    - rewrite Hhi. split; [done|]. split.
      + intros Hun. rewrite Hun in Hh. injection Hh as <-. lia.
      + intros h' Hh' _. by left.
    - rewrite Hhi. split; [|split].
      + intros s Hs. by rewrite list_lookup_insert_ne.
      + intros Hun. rewrite Hun in Hh. injection Hh as <-. lia.
      + intros h' Hh' _. rewrite Hh in Hh'. injection Hh' as <-. right.
        rewrite list_lookup_insert_eq by (by eapply lookup_lt_Some).
        split; [done|]. split; [|done]. by exists n. }
  split; [|split; [exact Hturn|]].
  - intros hapmix s Hs. simpl. by apply lookup_replicate_2.
  - intros fuel st fin s h Hrun Hh Hv.
    eapply (mainLoop_preserves cfg
              (λ t, ∃ h', homologsInverted t !! s = Some h'
                          ∧ (h' = 0%Z ∨ h' = 1%Z))); [|by eauto|exact Hrun].
    clear. intros nm E T samp t t' next _ (h & Hh & Hv) Hb.
    destruct (sampleBody_effect _ _ _ _ _ _ _ _ Hb)
      as [(Hhi & _) _|v Hun _ Hv' Hhi _ _ _|h0 _ _ _ Hhi _ _ _
         |h0 n Hh0 Hv0 _ Hhi _ _ _ _]; rewrite Hhi.
    + eauto.
    + destruct (decide (s = samp)) as [->|Hne].
      * rewrite Hun in Hh. injection Hh as <-. lia.
      * rewrite list_lookup_insert_ne by done. eauto.
    + eauto.
    + destruct (decide (s = samp)) as [->|Hne].
      * rewrite list_lookup_insert_eq by (by eapply lookup_lt_Some).
        exists (1 - h0)%Z. split; [done|lia].
      * rewrite list_lookup_insert_ne by done. eauto.
Qed.

(** ** C7: switch errors against heterozygous sites *)

Lemma sumZ_cons x l : sumZ (x :: l) = (x + sumZ l)%Z.
Proof. reflexivity. Qed.

Lemma sumZ_insert (l : list Z) i x v :
  l !! i = Some x → sumZ (<[i := v]> l) = (sumZ l - x + v)%Z.
Proof.
  revert i. induction l as [|y l IH]; intros [|i] H; try done; simpl in H.
  - injection H as ->. change (<[0 := v]> (x :: l)) with (v :: l).
    rewrite !sumZ_cons. lia.
  - change (<[S i := v]> (y :: l)) with (y :: <[i := v]> l).
    rewrite !sumZ_cons, (IH i H). lia.
Qed.

Lemma sumZ_alter (f : Z → Z) (l : list Z) i x :
  l !! i = Some x → sumZ (alter f i l) = (sumZ l - x + f x)%Z.
Proof.
  revert i. induction l as [|y l IH]; intros [|i] H; try done; simpl in H.
  - injection H as ->. change (alter f 0 (x :: l)) with (f x :: l).
    rewrite !sumZ_cons. lia.
  - change (alter f (S i) (y :: l)) with (y :: alter f i l).
    rewrite !sumZ_cons, (IH i H). lia.
Qed.

Lemma sumZ_replicate n : sumZ (replicate n 0%Z) = 0%Z.
Proof.
  induction n as [|n IH]; [done|].
  change (replicate (S n) 0%Z) with (0%Z :: replicate n 0%Z).
  rewrite sumZ_cons. lia.
Qed.

Lemma alter_add_0 (l : list Z) i : alter (Z.add 0) i l = l.
Proof. by apply list_alter_id. Qed.

Lemma Reach_countsOK cfg t hets : Reach cfg t hets → countsOK cfg t hets.
Proof.
  induction 1 as [hapmix|t hets nm E T samp t' next _ IH Hlt Hb].
  - unfold countsOK. simpl. rewrite !length_replicate, !sumZ_replicate.
    split; [done|]. split; [done|]. split; [|done].
    intros s n k [-> _]%lookup_replicate [-> _]%lookup_replicate. lia.
  - destruct IH as (Lg & Li & Hle & Si & Sg & Hglob).
    destruct (lookup_lt_is_Some_2 hets samp) as [k Hk]; [lia|].
    destruct (sampleBody_effect _ _ _ _ _ _ _ _ Hb)
      as [(Hhi & Hin & Hns & Hth) _
         |v _ _ _ _ Hin Hns Hth
         |h _ _ _ _ Hin Hns Hth
         |h n _ _ _ _ Hn Hin Hns Hth].
    + rewrite Hth, Z.sub_diag, alter_add_0. unfold countsOK.
      by rewrite Hin, Hns, Hth.
    + rewrite Hth, Z.sub_diag, alter_add_0. unfold countsOK.
      by rewrite Hin, Hns, Hth.
    + replace (totalHetSites t' - totalHetSites t)%Z with 1%Z by lia.
      unfold countsOK. rewrite Hin, Hns, Hth, length_alter.
      rewrite (sumZ_alter _ _ _ _ Hk).
      split; [done|]. split; [done|]. split; [|lia].
      intros s n0 k0 Hn0.
      destruct (decide (s = samp)) as [->|Hne].
      * rewrite list_lookup_alter_eq, Hk. intros [= <-].
        specialize (Hle _ _ _ Hn0 Hk). lia.
      * rewrite list_lookup_alter_ne by done. intros Hk0.
        specialize (Hle _ _ _ Hn0 Hk0). lia.
    + replace (totalHetSites t' - totalHetSites t)%Z with 1%Z by lia.
      unfold countsOK. rewrite Hin, Hns, Hth, length_alter, length_insert.
      rewrite (sumZ_alter _ _ _ _ Hk), (sumZ_insert _ _ _ _ Hn).
      split; [done|]. split; [done|]. split; [|lia].
      intros s n0 k0.
      destruct (decide (s = samp)) as [->|Hne].
      * rewrite list_lookup_insert_eq by (by eapply lookup_lt_Some).
        rewrite list_lookup_alter_eq, Hk. intros [= <-] [= <-].
        specialize (Hle _ _ _ Hn Hk). lia.
      * rewrite list_lookup_insert_ne, list_lookup_alter_ne by done.
        intros Hn0 Hk0. specialize (Hle _ _ _ Hn0 Hk0). lia.
Qed.

(** C7.  Every tracker reachable from the initial one by turns of the
    per-sample loop, with the tally [hets] of the heterozygous sites
    counted for each sample, satisfies: the personal switch count of a
    sample is at most the tally of that sample; the personal counts add
    up to numSwitchErrors and the tallies to totalHetSites; so
    numSwitchErrors is at most totalHetSites.  A turn counts at most one
    switch error, and only together with a heterozygous site, at an
    informative site of a sample whose orientation is already set.  The
    tracker at the end of a run of [main] is reachable. *)
Theorem switch_errors_bounded_by_het_sites cfg :
  (∀ t hets, Reach cfg t hets →
     (∀ s n k, indivNumSwitches t !! s = Some n → hets !! s = Some k →
        (0 ≤ n ≤ k)%Z)
     ∧ sumZ (indivNumSwitches t) = numSwitchErrors t
     ∧ sumZ hets = totalHetSites t
     ∧ (numSwitchErrors t ≤ totalHetSites t)%Z)
  ∧ (∀ nm E T samp t t' next,
       sampleBody cfg nm E T samp t = Ok (t', next) →
       (numSwitchErrors t' = numSwitchErrors t
        ∧ indivNumSwitches t' = indivNumSwitches t
        ∧ (totalHetSites t' = totalHetSites t
           ∨ totalHetSites t' = (totalHetSites t + 1)%Z))
       ∨ (numSwitchErrors t' = (numSwitchErrors t + 1)%Z
          ∧ totalHetSites t' = (totalHetSites t + 1)%Z
          ∧ informative cfg E T samp
          ∧ (∃ h, homologsInverted t !! samp = Some h
                  ∧ (h = 0%Z ∨ h = 1%Z))
          ∧ ∃ n, indivNumSwitches t !! samp = Some n
                 ∧ indivNumSwitches t'
                   = <[samp := (n + 1)%Z]> (indivNumSwitches t)))
  ∧ (∀ est tru hapmix fin,
       main cfg est tru hapmix = Ok fin →
       (∃ hets, Reach cfg (trk fin) hets)
       ∧ (numSwitchErrors (trk fin) ≤ totalHetSites (trk fin))%Z).
Proof.
  split; [|split].
  - intros t hets HR.
    by destruct (Reach_countsOK _ _ _ HR) as (_ & _ & ? & ? & ? & ?).
  - intros nm E T samp t t' next Hb.
    destruct (sampleBody_effect _ _ _ _ _ _ _ _ Hb)
      as [(Hhi & Hin & Hns & Hth) _
         |v _ _ _ _ Hin Hns Hth
         |h _ _ _ _ Hin Hns Hth
         |h n Hh Hv Hinf _ Hn Hin Hns Hth].
    + left. auto.
    + left. auto.
    + left. auto.
    + right. repeat split; try done; eauto.
  - intros est tru hapmix fin. unfold main.
    destruct (useLocalAnc cfg && _); [done|]. intros Hrun.
    assert (HR : ∃ hets, Reach cfg (trk fin) hets).
    { eapply (mainLoop_preserves cfg (λ t, ∃ hets, Reach cfg t hets));
        [| |exact Hrun].
      2:{ exists (replicate (numSamples cfg) 0%Z). apply Reach_init. }
      intros nm E T samp t t' next Hlt [hets HR] Hb.
      eexists. by eapply Reach_turn. }
    split; [done|]. destruct HR as [hets HR].
    by destruct (Reach_countsOK _ _ _ HR) as (_ & _ & _ & _ & _ & ?).
Qed.

(** ** The Site Reader on a line *)

Lemma toEndline_line (l rest : list ascii) :
  nl ∉ l → toEndline (l ++ nl :: rest) = Ok rest.
Proof.
  induction l as [|c l IH]; intros Hnl; simpl.
  - reflexivity.
  - destruct (Ascii.eqb_spec c nl) as [->|_].
    + exfalso. apply Hnl. by left.
    + apply IH. intros Hin. apply Hnl. by right.
Qed.

Lemma skipLoop_line k (l rest : list ascii) :
  nl ∉ l →
  skipLoop k (l ++ nl :: rest)
  = if (k <=? length l)%nat then Ok (drop k l ++ nl :: rest) else AssertFail.
Proof.
  revert l. induction k as [|k IH]; intros l Hnl.
  - reflexivity.
  - destruct l as [|c l]; simpl.
    + reflexivity.
    + destruct (Ascii.eqb_spec c nl) as [->|_].
      * exfalso. apply Hnl. by left.
      * rewrite IH; [done|]. intros Hin. apply Hnl. by right.
Qed.


Lemma readEstAlleles_line omit n2 (l rest : list ascii) curHap i :
  nl ∉ l → i ≤ n2 → n2 ≤ i + length (keptAlleles omit curHap l) →
  ∃ r, readEstAlleles omit n2 (l ++ nl :: rest) curHap i
       = Ok (take (n2 - i) (keptAlleles omit curHap l), r)
       ∧ toEndline r = Ok rest.
Proof.
  revert curHap i. induction l as [|c l IH]; intros curHap i Hnl Hi Hlen.
  - simpl in *. assert (i = n2) as -> by lia. rewrite Nat.eqb_refl.
    exists (nl :: rest). by rewrite take_nil.
  - simpl in *. destruct (Ascii.eqb_spec c nl) as [->|_].
    { exfalso. apply Hnl. by left. }
    assert (Hnl' : nl ∉ l) by (intros Hin; apply Hnl; by right).
    destruct (Nat.ltb_spec i n2) as [Hlt|Hge].
    + destruct (bool_decide _).
      * by apply IH.
      * simpl in Hlen.
        destruct (IH (curHap + 1)%Z (S i) Hnl') as (r & Hr & He); [lia..|].
        exists r. rewrite Hr. simpl. split; [|done].
        replace (n2 - i) with (S (n2 - S i)) by lia. reflexivity.
    + assert (i = n2) as -> by lia. rewrite Nat.eqb_refl. simpl.
      exists (l ++ nl :: rest). rewrite Nat.sub_diag, take_0.
      split; [done|]. by apply toEndline_line.
Qed.



Lemma readTrueAlleles_line n2 (l rest : list ascii) i :
  nl ∉ l → i ≤ n2 → n2 ≤ i + length l →
  ∃ r, readTrueAlleles n2 (l ++ nl :: rest) i = Ok (take (n2 - i) l, r)
       ∧ toEndline r = Ok rest.
Proof.
  revert i. induction l as [|c l IH]; intros i Hnl Hi Hlen.
  - simpl in *. assert (i = n2) as -> by lia. rewrite Nat.eqb_refl.
    exists (nl :: rest). by rewrite take_nil.
  - simpl in *. destruct (Ascii.eqb_spec c nl) as [->|_].
    { exfalso. apply Hnl. by left. }
    assert (Hnl' : nl ∉ l) by (intros Hin; apply Hnl; by right).
    destruct (Nat.ltb_spec i n2) as [Hlt|Hge].
    + destruct (IH (S i) Hnl') as (r & Hr & He); [lia..|].
      exists r. rewrite Hr. simpl. split; [|done].
      replace (n2 - i) with (S (n2 - S i)) by lia. reflexivity.
    + assert (i = n2) as -> by lia. rewrite Nat.eqb_refl. simpl.
      exists (l ++ nl :: rest). rewrite Nat.sub_diag, take_0.
      split; [done|]. by apply toEndline_line.
Qed.

Lemma not_nl_drop k (l : list ascii) : nl ∉ l → nl ∉ drop k l.
Proof.
  intros Hnl Hin. apply Hnl.
  rewrite <- (take_drop k l). apply elem_of_app. by right.
Qed.


Lemma readEst_line cfg (line rest : list ascii) :
  estLineOK cfg line →
  ∃ e, (e0 ← skipInitial cfg (line ++ nl :: rest);
        readEstAlleles (omitIndSet cfg) (2 * numSamples cfg) e0 0%Z 0)
       = Ok (estArray cfg line, e)
       ∧ toEndline e = Ok rest.
Proof.
  intros (Hnl & Hs & Hk & Hlen). unfold skipInitial.
  destruct (Z.ltb_spec (2 * skipNumInEst cfg) 0); [lia|].
  rewrite skipLoop_line by done.
  destruct (Nat.leb_spec (Z.to_nat (2 * skipNumInEst cfg)) (length line));
    [|lia]. cbn [mbind outcome_mbind outcome_bind].
  destruct (readEstAlleles_line (omitIndSet cfg) (2 * numSamples cfg)
              (drop (Z.to_nat (2 * skipNumInEst cfg)) line) rest 0%Z 0)
    as (e & He & Hend); [by apply not_nl_drop|lia|done|].
  exists e. rewrite He. by rewrite Nat.sub_0_r.
Qed.


Lemma readSite_lines cfg (line rest tline trest : list ascii) :
  estLineOK cfg line → trueLineOK cfg tline →
  ∃ e g, readSite cfg (line ++ nl :: rest) (tline ++ nl :: trest)
         = Ok (estArray cfg line, trueArray cfg tline, e, g)
         ∧ toEndline e = Ok rest ∧ toEndline g = Ok trest.
Proof.
  intros Hok [Hnl Hlen]. unfold readSite.
  destruct (readEst_line cfg line rest Hok) as (e & He & Hend).
  destruct (readTrueAlleles_line (2 * numSamples cfg) tline trest 0)
    as (g & Hg & Hgend); [done|lia|done|].
  exists e, g. unfold mbind, outcome_mbind in *.
  destruct (skipInitial cfg (line ++ nl :: rest)); try done.
  simpl in *. rewrite He. simpl. rewrite Hg. simpl.
  by rewrite Nat.sub_0_r.
Qed.

(** A turn of the per-locus loop on two good lines: the arrays hold the
    first [2 * numSamples] allele characters, what follows on a line is
    dropped, and both streams move to the next line. *)
Lemma locusStep_lines cfg (line rest tline trest : list ascii) nm t :
  estLineOK cfg line → trueLineOK cfg tline →
  locusStep cfg (State (line ++ nl :: rest) (tline ++ nl :: trest) nm t)
  = (t' ← compareLocus cfg (nm + 1)%Z (estArray cfg line)
            (trueArray cfg tline) t;
     Ok (State rest trest (nm + 1)%Z t')).
Proof.
  intros Hok Htok. unfold locusStep. simpl.
  destruct (readSite_lines cfg line rest tline trest Hok Htok)
    as (e & g & -> & He & Hg). simpl.
  destruct (compareLocus _ _ _ _ _); simpl; try done.
  by rewrite He, Hg.
Qed.

(** ** C6: what the Site Reader rejects *)






(** ** The per-locus loop *)












Lemma joinLines_cons (l : list ascii) ls :
  joinLines (l :: ls) = l ++ nl :: joinLines ls.
Proof. unfold joinLines. simpl. by rewrite <- app_assoc. Qed.

Lemma mainLoop_step cfg fuel st :
  estG st ≠ [] →
  mainLoop cfg (S fuel) st = (st' ← locusStep cfg st; mainLoop cfg fuel st').
Proof. simpl. by destruct (estG st). Qed.

Lemma mainLoop_nil cfg fuel st : estG st = [] → mainLoop cfg fuel st = Ok st.
Proof. intros H. destruct fuel; simpl; by rewrite H. Qed.

(** On good lines the per-locus loop is the comparison of the arrays of
    the lines in turn, and it stops when the estimated lines are used
    up. *)
Lemma mainLoop_lines cfg (lines : list (list ascii * list ascii)) :
  Forall (λ p, estLineOK cfg p.1 ∧ trueLineOK cfg p.2) lines →
  ∀ fuel nm t trest,
    length lines ≤ fuel →
    mainLoop cfg fuel
      (State (joinLines (lines.*1)) (joinLines (lines.*2) ++ trest) nm t)
    = outcome_map (λ t', State [] trest (nm + Z.of_nat (length lines))%Z t')
        (processLoci cfg nm
           (map (λ p, (estArray cfg p.1, trueArray cfg p.2)) lines) t).
Proof.
  induction 1 as [|[l tl] lines [Hl Htl] _ IH]; intros fuel nm t trest Hf.
  - rewrite mainLoop_nil by done. simpl. by rewrite Z.add_0_r.
  - destruct fuel as [|fuel]; [simpl in Hf; lia|].
    rewrite !fmap_cons, !joinLines_cons. simpl fst. simpl snd.
    rewrite <- app_assoc, <- app_comm_cons.
    rewrite mainLoop_step by (simpl; by destruct l).
    rewrite locusStep_lines by done.
    change (map ?f ((l, tl) :: lines)) with (f (l, tl) :: map f lines).
    cbn [processLoci fst snd].
    destruct (compareLocus cfg (nm + 1)%Z (estArray cfg l)
                (trueArray cfg tl) t) as [t'| | | | |]; try done.
    cbn [mbind outcome_mbind outcome_bind].
    rewrite IH by (simpl in Hf; lia).
    replace (nm + 1 + Z.of_nat (length lines))%Z
      with (nm + Z.of_nat (length ((l, tl) :: lines)))%Z
      by (simpl length; lia).
    reflexivity.
Qed.

(** ** Consistent data pass every check *)


Lemma trackerOK_init cfg hapmix : trackerOK cfg (initTracker cfg hapmix).
Proof.
  unfold trackerOK. simpl. rewrite !length_replicate.
  repeat split; try done.
  intros s h [-> _]%lookup_replicate. by left.
Qed.












Lemma trackerOK_frame cfg t t1 :
  sameCounts t t1 → trackerOK cfg t → trackerOK cfg t1.
Proof.
  intros (H1 & H2 & H3 & _ & _ & _ & H7 & H8 & _).
  unfold trackerOK. by rewrite H1, H2, H3, H7, H8.
Qed.







Lemma joinLines_length (lines : list (list ascii)) :
  length lines ≤ length (joinLines lines).
Proof.
  induction lines as [|l lines IH]; [done|].
  rewrite joinLines_cons, length_app. simpl. lia.
Qed.


(** ** C5: the per-locus loop ends at the end of the estimated stream *)


(** ** C3: one ancestry record per sample and locus *)

(** A turn reads one record of the stream of its own sample and of no
    other stream. *)
Lemma sampleBody_hapmix cfg nm E T samp t t' next :
  useLocalAnc cfg = true →
  sampleBody cfg nm E T samp t = Ok (t', next) →
  ∃ r f, hapmixFiles t !! samp = Some (r :: f)
         ∧ hapmixFiles t' = <[samp := f]> (hapmixFiles t).
Proof.
  intros Hu H. unfold sampleBody in H.
  bind_inv H as p Hanc. destruct p as [pac t1].
  assert (Hread : ∃ r f, hapmixFiles t !! samp = Some (r :: f)
                         ∧ hapmixFiles t1 = <[samp := f]> (hapmixFiles t)).
  { unfold localAncStep in Hanc. rewrite Hu in Hanc.
    bind_inv Hanc as fl Hfl. bind_inv Hanc as p Hg. destruct p as [cur f'].
    bind_inv Hanc as prev Hprev. injection Hanc as _ <-.
    apply arr_Ok in Hfl. destruct fl as [|r f]; [done|].
    exists r, f. split; [done|].
    destruct r; [done|]. simpl in Hg. bind_inv Hg as u Hu'.
    injection Hg as _ <-. by destruct t. }
  destruct Hread as (r & f & Hl & Hf). exists r, f. split; [done|].
  rewrite <- Hf. clear Hl Hf Hanc.
  bind_inv H as e0 He0. bind_inv H as x0 Hx0. bind_inv H as u0 Hc0.
  bind_inv H as e1 He1. bind_inv H as x1 Hx1. bind_inv H as u1 Hc1.
  destruct (_ || _).
  { injection H as <- _. destruct (_ && _); [|done]. by destruct t1. }
  bind_inv H as u2 Hm. bind_inv H as amb Htrio. destruct amb.
  { by injection H as <- _. }
  bind_inv H as t2 Hafter. injection H as <- _.
  by apply afterTrio_hapmix in Hafter as [? _].
Qed.

Lemma sampLoop_lockstep cfg nm E T :
  useLocalAnc cfg = true → trioParentsInSuccession cfg = false →
  ∀ fuel k t t',
    sampLoop cfg nm E T fuel k t = Ok t' →
    (∀ s, s < k → hapmixFiles t' !! s = hapmixFiles t !! s)
    ∧ (∀ s, k ≤ s < numSamples cfg →
         ∃ r f, hapmixFiles t !! s = Some (r :: f)
                ∧ hapmixFiles t' !! s = Some f).
Proof.
  intros Hu Hs. induction fuel as [|fuel IH]; intros k t t' H.
  - simpl in H. destruct (Nat.ltb_spec k (numSamples cfg)); [done|].
    injection H as <-. split; [done|]. intros s Hk. lia.
  - destruct (decide (k < numSamples cfg)) as [Hlt|Hge].
    2:{ rewrite sampLoop_done in H by lia. injection H as <-.
        split; [done|]. intros s Hk. lia. }
    rewrite sampLoop_step in H by done.
    bind_inv H as p Hb. destruct p as [t1 next].
    destruct (sampleBody_hapmix _ _ _ _ _ _ _ _ Hu Hb) as (r & f & Hl & Hf).
    apply sampleBody_next in Hb as [->|[_ Hs']]; [|congruence].
    destruct (IH _ _ _ H) as [Hbefore Hafter]. rewrite Hf in *.
    split.
    + intros s Hsk. rewrite Hbefore by lia.
      by rewrite list_lookup_insert_ne by lia.
    + intros s Hsk. destruct (decide (s = k)) as [->|Hne].
      * exists r, f. split; [done|]. rewrite Hbefore by lia.
        apply list_lookup_insert_eq. by eapply lookup_lt_Some.
      * destruct (Hafter s) as (r' & f' & Hl' & Hf'); [lia|].
        rewrite list_lookup_insert_ne in Hl' by done. eauto.
Qed.

(** C3 fails on the code.  With trio parents in succession and a
    triple-heterozygous locus, the loop index passes the partner and
    the turn of the partner, which holds the call of [getLocalAnc], is
    not taken: after the locus the stream of sample 0 has been read and
    the stream of sample 1 still holds its record.  Without the
    in-succession convention every turn is taken and a comparison that
    ends normally has read exactly one record of every stream. *)
Theorem ancestry_record_not_read_for_skipped_partner :
  (∃ fin,
     main cfgTrioAnc estTripleHet trueTripleHet [[goodLine]; [goodLine]]
     = Ok fin
     ∧ numMarkers fin = 1%Z
     ∧ hapmixFiles (trk fin) = [[]; [goodLine]])
  ∧ (∀ cfg nm E T t t',
       useLocalAnc cfg = true → trioParentsInSuccession cfg = false →
       compareLocus cfg nm E T t = Ok t' →
       ∀ s, s < numSamples cfg →
         ∃ r f, hapmixFiles t !! s = Some (r :: f)
                ∧ hapmixFiles t' !! s = Some f).
Proof.
  split.
  - eexists. vm_compute. repeat split.
  - intros cfg nm E T t t' Hu Hs H s Hlt.
    destruct (sampLoop_lockstep cfg nm E T Hu Hs _ _ _ _ H) as [_ Hall].
    apply Hall. lia.
Qed.

(** ** C8: swapping the estimated homologs of a sample *)

Lemma alter_insert_eq {A : Type} (f : A → A) (l : list A) i v :
  alter f i (<[i := v]> l) = <[i := f v]> l.
Proof.
  rewrite !list_insert_alter, list_alter_alter_eq.
  by apply list_alter_ext.
Qed.

Lemma insert_alter_eq {A : Type} (f : A → A) (l : list A) i v :
  <[i := v]> (alter f i l) = <[i := v]> l.
Proof.
  rewrite !list_insert_alter, list_alter_alter_eq.
  by apply list_alter_ext.
Qed.

Lemma alter_insert_ne {A : Type} (f : A → A) (l : list A) i j v :
  i ≠ j → alter f i (<[j := v]> l) = <[j := v]> (alter f i l).
Proof.
  intros Hne. rewrite !list_insert_alter. by apply list_alter_alter_ne.
Qed.

Lemma flipOrient_set h : h = 0%Z ∨ h = 1%Z → flipOrient h = (1 - h)%Z.
Proof. by intros [-> | ->]. Qed.


Lemma localAncStep_flip cfg s samp t :
  localAncStep cfg samp (flipSample s t)
  = outcome_map (λ p, (p.1, flipSample s p.2)) (localAncStep cfg samp t).
Proof.
  unfold localAncStep. destruct (useLocalAnc cfg); [|done].
  destruct t as [hf pla hi pse ins nmiss nse ths nac tac warn lg]. simpl.
  destruct (arr hf samp) as [f| | | | |]; try done. simpl.
  destruct (getLocalAnc f) as [[cur f']| | | | |]; try done. simpl.
  destruct (arr pla samp) as [prev| | | | |]; done.
Qed.

Lemma countHetSite_flip s pac x0 x1 t :
  countHetSite pac x0 x1 (flipSample s t)
  = outcome_map (flipSample s) (countHetSite pac x0 x1 t).
Proof.
  unfold countHetSite. destruct (x0 ≠c x1); [|done].
  destruct t as [hf pla hi pse ins nmiss nse ths nac tac warn lg]. simpl.
  destruct (incrAt tac (ancBucket pac)); done.
Qed.

(** The block that records a switch, at the flipped sample and at
    another one. *)
Lemma recordSwitch_flip cfg nm pac s samp h h' t :
  (samp = s → h' = (1 - h)%Z ∧ (h = 0%Z ∨ h = 1%Z)) →
  (samp ≠ s → h' = h) →
  recordSwitch cfg nm pac samp h' (flipSample s t)
  = outcome_map (flipSample s) (recordSwitch cfg nm pac samp h t).
Proof.
  intros Heq Hne. unfold recordSwitch.
  destruct t as [hf pla hi pse ins nmiss nse ths nac tac warn lg]. simpl.
  destruct (incrAt nac (ancBucket pac)) as [b| | | | |]; try done. simpl.
  assert (Hhi : <[samp := (1 - h')%Z]> (alter flipOrient s hi)
                = alter flipOrient s (<[samp := (1 - h)%Z]> hi)).
  { destruct (decide (samp = s)) as [->|Hd].
    - destruct (Heq eq_refl) as [-> Hh].
      rewrite insert_alter_eq, alter_insert_eq. f_equal.
      destruct Hh as [-> | ->]; reflexivity.
    - rewrite (Hne Hd). by rewrite alter_insert_ne. }
  destruct (verbose cfg); simpl.
  - destruct (arr pse samp) as [p| | | | |]; try done. simpl.
    destruct (arr ins samp) as [n| | | | |]; try done. simpl.
    destruct (store pse samp (nm - 1)%Z) as [p'| | | | |]; try done. simpl.
    destruct (incrAt ins samp) as [n'| | | | |]; try done. simpl.
    unfold flipSample. simpl. by rewrite Hhi.
  - destruct (store pse samp (nm - 1)%Z) as [p'| | | | |]; try done. simpl.
    destruct (incrAt ins samp) as [n'| | | | |]; try done. simpl.
    unfold flipSample. simpl. by rewrite Hhi.
Qed.

Ltac eqb_cases :=
  repeat match goal with
         | |- context [?a =c ?b] =>
             destruct (Ascii.eqb_spec a b); subst; try congruence
         end.

Lemma setOrientation_flip s samp e0 e1 e0' e1' x0 x1 t :
  (samp = s → e0' = e1 ∧ e1' = e0) →
  (samp ≠ s → e0' = e0 ∧ e1' = e1) →
  setOrientation samp e0' e1' x0 x1 (flipSample s t)
  = outcome_map (flipSample s) (setOrientation samp e0 e1 x0 x1 t).
Proof.
  intros Heq Hne. unfold setOrientation.
  destruct t as [hf pla hi pse ins nmiss nse ths nac tac warn lg].
  destruct (decide (samp = s)) as [->|Hd].
  - destruct (Heq eq_refl) as [-> ->]. unfold flipSample. simpl.
    eqb_cases; simpl; try done;
      by rewrite insert_alter_eq, alter_insert_eq.
  - destruct (Hne Hd) as [-> ->]. unfold flipSample. simpl.
    eqb_cases; simpl; try done; by rewrite alter_insert_ne.
Qed.

Lemma checkSwitch_flip cfg nm pac s samp h h' e0 e1 e0' e1' x0 x1 t :
  (samp = s → e0' = e1 ∧ e1' = e0 ∧ h' = (1 - h)%Z ∧ (h = 0%Z ∨ h = 1%Z)) →
  (samp ≠ s → e0' = e0 ∧ e1' = e1 ∧ h' = h) →
  checkSwitch cfg nm pac samp h' e0' e1' x0 x1 (flipSample s t)
  = outcome_map (flipSample s)
      (checkSwitch cfg nm pac samp h e0 e1 x0 x1 t).
Proof.
  intros Heq Hne. unfold checkSwitch. rewrite countHetSite_flip.
  destruct (countHetSite pac x0 x1 t) as [tm| | | | |]; try done.
  cbn [outcome_map mbind outcome_mbind outcome_bind].
  assert (Harr : arrZ [e0'; e1'] h' = arrZ [e0; e1] h
                 ∧ arrZ [e0'; e1'] (1 - h')%Z = arrZ [e0; e1] (1 - h)%Z).
  { destruct (decide (samp = s)) as [Hd|Hd].
    - destruct (Heq Hd) as (-> & -> & -> & [-> | ->]); by split.
    - by destruct (Hne Hd) as (-> & -> & ->). }
  destruct Harr as [-> ->].
  destruct (arrZ [e0; e1] h) as [eh0| | | | |]; try done.
  cbn [mbind outcome_mbind outcome_bind].
  destruct (arrZ [e0; e1] (1 - h)%Z) as [eh1| | | | |]; try done.
  cbn [mbind outcome_mbind outcome_bind].
  destruct (eh0 =c x0).
  - by destruct (assert (eh1 =c x1)).
  - destruct (assert _); try done.
    cbn [mbind outcome_mbind outcome_bind].
    apply recordSwitch_flip; [|intros Hd; by destruct (Hne Hd) as (_&_&?)].
    intros Hd. by destruct (Heq Hd) as (_ & _ & ? & ?).
Qed.

Lemma phaseTrack_flip cfg nm pac s samp e0 e1 e0' e1' x0 x1 t :
  orientValid s t →
  (samp = s → e0' = e1 ∧ e1' = e0) →
  (samp ≠ s → e0' = e0 ∧ e1' = e1) →
  phaseTrack cfg nm pac samp e0' e1' x0 x1 (flipSample s t)
  = outcome_map (flipSample s) (phaseTrack cfg nm pac samp e0 e1 x0 x1 t).
Proof.
  intros Hval Heq Hne. unfold phaseTrack.
  assert (Hhi : homologsInverted (flipSample s t)
                = alter flipOrient s (homologsInverted t)) by by destruct t.
  rewrite Hhi. unfold arr.
  destruct (decide (samp = s)) as [->|Hd].
  - rewrite list_lookup_alter_eq.
    destruct (homologsInverted t !! s) as [h|] eqn:Hh; [|done].
    cbn [fmap option_fmap option_map mbind outcome_mbind outcome_bind].
    destruct (Hval h Hh) as [-> |Hset].
    + change (flipOrient (-1) =? -1)%Z with true.
      change (-1 =? -1)%Z with true. cbn iota.
      by apply setOrientation_flip.
    + rewrite flipOrient_set by done.
      assert ((1 - h =? -1)%Z = false) as -> by (apply Z.eqb_neq; lia).
      assert ((h =? -1)%Z = false) as -> by (apply Z.eqb_neq; lia).
      apply checkSwitch_flip; [|done]. intros _.
      by destruct (Heq eq_refl) as [-> ->].
  - rewrite list_lookup_alter_ne by done.
    destruct (homologsInverted t !! samp) as [h|] eqn:Hh; [|done].
    cbn [mbind outcome_mbind outcome_bind].
    destruct (h =? -1)%Z.
    + by apply setOrientation_flip.
    + apply checkSwitch_flip; [done|]. intros _.
      by destruct (Hne Hd) as [-> ->].
Qed.

Lemma afterTrio_flip cfg nm pac s samp e0 e1 e0' e1' x0 x1 t :
  orientValid s t →
  (samp = s → e0' = e1 ∧ e1' = e0) →
  (samp ≠ s → e0' = e0 ∧ e1' = e1) →
  afterTrio cfg nm pac samp e0' e1' x0 x1 (flipSample s t)
  = outcome_map (flipSample s) (afterTrio cfg nm pac samp e0 e1 x0 x1 t).
Proof.
  intros Hval Heq Hne. unfold afterTrio.
  assert (Hq : (e0' =c cQ) || (e1' =c cQ) = (e0 =c cQ) || (e1 =c cQ)
               ∧ (e0' =c e1') = (e0 =c e1)).
  { destruct (decide (samp = s)) as [Hd|Hd].
    - destruct (Heq Hd) as [-> ->].
      by rewrite orb_comm, (Ascii.eqb_sym e1 e0).
    - by destruct (Hne Hd) as [-> ->]. }
  destruct Hq as [-> ->]. destruct (_ || _).
  - destruct (assert _); try done. by destruct t.
  - by apply phaseTrack_flip.
Qed.

Lemma swapAlleles_other s (E : list ascii) samp :
  samp ≠ s →
  swapAlleles s E !! (samp * 2) = E !! (samp * 2)
  ∧ swapAlleles s E !! (samp * 2 + 1) = E !! (samp * 2 + 1).
Proof.
  intros Hd. unfold swapAlleles.
  destruct (E !! (s * 2)), (E !! (s * 2 + 1)); try done.
  by rewrite !list_lookup_insert_ne by lia.
Qed.

Lemma swapAlleles_self s (E : list ascii) e0 e1 :
  allelesOf E s e0 e1 → allelesOf (swapAlleles s E) s e1 e0.
Proof.
  intros [H0 H1]. unfold swapAlleles. rewrite H0, H1. split.
  - apply list_lookup_insert_eq. rewrite length_insert.
    by eapply lookup_lt_Some.
  - rewrite list_lookup_insert_ne by lia.
    apply list_lookup_insert_eq. by eapply lookup_lt_Some.
Qed.

Lemma swapAlleles_partial s (E : list ascii) :
  E !! (s * 2) = None ∨ E !! (s * 2 + 1) = None → swapAlleles s E = E.
Proof.
  unfold swapAlleles. intros [-> | ->]; [done|]. by destruct (E !! (s * 2)).
Qed.

Lemma arr_None {A : Type} (l : list A) i : l !! i = None → arr l i = OutOfBounds.
Proof. unfold arr. by intros ->. Qed.

Lemma orientValid_frame s t t1 :
  homologsInverted t1 = homologsInverted t →
  orientValid s t → orientValid s t1.
Proof. unfold orientValid. by intros ->. Qed.

(** A turn on the array with the alleles of [s] exchanged, from the
    tracker with the orientation of [s] flipped, is the turn on the
    array as it is, flipped. *)
Lemma sampleBody_swap cfg nm (E T : list ascii) s samp t :
  orientValid s t →
  sampleBody cfg nm (swapAlleles s E) T samp (flipSample s t)
  = outcome_map (λ p, (flipSample s p.1, p.2))
      (sampleBody cfg nm E T samp t).
Proof.
  intros Hval. unfold sampleBody. rewrite localAncStep_flip.
  destruct (localAncStep cfg samp t) as [[pac t1]| | | | |] eqn:Hanc;
    try done.
  cbn [outcome_map mbind outcome_mbind outcome_bind fst snd].
  assert (Hval1 : orientValid s t1).
  { eapply orientValid_frame; [|exact Hval].
    by apply localAncStep_frame in Hanc as [? _]. }
  assert (Hwarn : ∀ b : bool,
            (if b then set_oneHapTruthWarn true (flipSample s t1)
             else flipSample s t1)
            = flipSample s (if b then set_oneHapTruthWarn true t1 else t1)).
  { intros []; by destruct t1. }
  assert (Hflipwarn : oneHapTruthWarn (flipSample s t1) = oneHapTruthWarn t1)
    by by destruct t1.
  destruct (decide (samp = s)) as [->|Hd].
  - destruct (E !! (s * 2)) as [e0|] eqn:H0;
      destruct (E !! (s * 2 + 1)) as [e1|] eqn:H1.
    + destruct (swapAlleles_self s E e0 e1) as [S0 S1]; [done|].
      rewrite (arr_lookup _ _ _ S0), (arr_lookup _ _ _ S1).
      rewrite (arr_lookup _ _ _ H0), (arr_lookup _ _ _ H1).
      cbn [mbind outcome_mbind outcome_bind].
      destruct (arr T (s * 2)) as [x0| | | | |]; try done.
      cbn [mbind outcome_mbind outcome_bind].
      destruct (assert (isTrueCode x0)); try done.
      cbn [mbind outcome_mbind outcome_bind].
      destruct (arr T (s * 2 + 1)) as [x1| | | | |]; try done.
      cbn [mbind outcome_mbind outcome_bind].
      destruct (assert (isTrueCode x1)); try done.
      cbn [mbind outcome_mbind outcome_bind].
      destruct ((x0 =c c9) || (x1 =c c9)).
      { rewrite Hflipwarn, Hwarn. reflexivity. }
      rewrite (andb_comm (e1 ≠c c9)).
      destruct (assert _); try done.
      cbn [mbind outcome_mbind outcome_bind].
      destruct (trioCheck cfg T s x0 x1) as [amb| | | | |]; try done.
      cbn [mbind outcome_mbind outcome_bind].
      destruct amb; [done|].
      rewrite (afterTrio_flip cfg nm pac s s e0 e1 e1 e0) by done.
      by destruct (afterTrio cfg nm pac s e0 e1 x0 x1 t1).
    + rewrite swapAlleles_partial by auto.
      rewrite (arr_lookup _ _ _ H0), (arr_None _ _ H1).
      cbn [mbind outcome_mbind outcome_bind].
      destruct (arr T (s * 2)) as [x0| | | | |]; try done.
      cbn [mbind outcome_mbind outcome_bind].
      by destruct (assert (isTrueCode x0)).
    + rewrite swapAlleles_partial by auto. by rewrite (arr_None _ _ H0).
    + rewrite swapAlleles_partial by auto. by rewrite (arr_None _ _ H0).
  - destruct (swapAlleles_other s E samp Hd) as [S0 S1].
    assert (arr (swapAlleles s E) (samp * 2) = arr E (samp * 2)) as ->
      by (unfold arr; by rewrite S0).
    assert (arr (swapAlleles s E) (samp * 2 + 1) = arr E (samp * 2 + 1))
      as -> by (unfold arr; by rewrite S1).
    destruct (arr E (samp * 2)) as [e0| | | | |]; try done.
    cbn [mbind outcome_mbind outcome_bind].
    destruct (arr T (samp * 2)) as [x0| | | | |]; try done.
    cbn [mbind outcome_mbind outcome_bind].
    destruct (assert (isTrueCode x0)); try done.
    cbn [mbind outcome_mbind outcome_bind].
    destruct (arr E (samp * 2 + 1)) as [e1| | | | |]; try done.
    cbn [mbind outcome_mbind outcome_bind].
    destruct (arr T (samp * 2 + 1)) as [x1| | | | |]; try done.
    cbn [mbind outcome_mbind outcome_bind].
    destruct (assert (isTrueCode x1)); try done.
    cbn [mbind outcome_mbind outcome_bind].
    destruct ((x0 =c c9) || (x1 =c c9)).
    { rewrite Hflipwarn, Hwarn. reflexivity. }
    destruct (assert _); try done.
    cbn [mbind outcome_mbind outcome_bind].
    destruct (trioCheck cfg T samp x0 x1) as [amb| | | | |]; try done.
    cbn [mbind outcome_mbind outcome_bind].
    destruct amb; [done|].
    rewrite (afterTrio_flip cfg nm pac s samp e0 e1 e0 e1) by done.
    by destruct (afterTrio cfg nm pac samp e0 e1 x0 x1 t1).
Qed.

Lemma sampleBody_orientValid cfg nm E T s samp t t' next :
  orientValid s t → sampleBody cfg nm E T samp t = Ok (t', next) →
  orientValid s t'.
Proof.
  intros Hval Hb h'.
  destruct (sampleBody_effect _ _ _ _ _ _ _ _ Hb)
    as [(Hhi & _) _|v Hun _ Hv Hhi _ _ _|h0 _ _ _ Hhi _ _ _
       |h0 n Hh0 Hv0 _ Hhi _ _ _ _]; rewrite Hhi; try apply Hval.
  - destruct (decide (samp = s)) as [->|Hne].
    + intros [(_ & <- & _)|[? _]]%list_lookup_insert_Some; [tauto|done].
    + rewrite list_lookup_insert_ne by done. apply Hval.
  - destruct (decide (samp = s)) as [->|Hne].
    + intros [(_ & <- & _)|[? _]]%list_lookup_insert_Some; [lia|done].
    + rewrite list_lookup_insert_ne by done. apply Hval.
Qed.

Lemma sampLoop_swap cfg nm (E T : list ascii) s fuel samp t :
  orientValid s t →
  sampLoop cfg nm (swapAlleles s E) T fuel samp (flipSample s t)
  = outcome_map (flipSample s) (sampLoop cfg nm E T fuel samp t).
Proof.
  revert samp t. induction fuel as [|fuel IH]; intros samp t Hval.
  - simpl. by destruct (samp <? numSamples cfg).
  - destruct (decide (samp < numSamples cfg)) as [Hlt|Hge].
    + rewrite !sampLoop_step by done. rewrite sampleBody_swap by done.
      destruct (sampleBody cfg nm E T samp t) as [[t1 next]| | | | |] eqn:Hb;
        try done.
      cbn [outcome_map mbind outcome_mbind outcome_bind fst snd].
      apply IH. by eapply sampleBody_orientValid.
    + by rewrite !sampLoop_done by lia.
Qed.

Lemma compareLocus_orientValid cfg nm E T s t t' :
  orientValid s t → compareLocus cfg nm E T t = Ok t' → orientValid s t'.
Proof.
  unfold compareLocus. apply (sampLoop_preserves cfg (orientValid s)).
  intros nm' E' T' samp t0 t1 next _. apply sampleBody_orientValid.
Qed.

(** A turn of the per-locus loop on a good estimated line, whatever
    the true stream holds. *)
Lemma locusStep_est_line cfg (l rest tru : list ascii) nm t :
  estLineOK cfg l →
  locusStep cfg (State (l ++ nl :: rest) tru nm t)
  = ('(T, g) ← readTrueAlleles (2 * numSamples cfg) tru 0;
     t' ← compareLocus cfg (nm + 1)%Z (estArray cfg l) T t;
     g' ← toEndline g;
     Ok (State rest g' (nm + 1)%Z t')).
Proof.
  intros Hok. unfold locusStep, readSite. cbn [estG trueG numMarkers trk].
  destruct (readEst_line cfg l rest Hok) as (e & He & Hend).
  destruct (skipInitial cfg (l ++ nl :: rest)) as [e0| | | | |]; try done.
  cbn [mbind outcome_mbind outcome_bind] in *. rewrite He.
  cbn [mbind outcome_mbind outcome_bind].
  destruct (readTrueAlleles (2 * numSamples cfg) tru 0)
    as [[T g]| | | | |]; try done.
  cbn [mbind outcome_mbind outcome_bind].
  destruct (compareLocus cfg (nm + 1)%Z (estArray cfg l) T t); try done.
  cbn [mbind outcome_mbind outcome_bind]. by rewrite Hend.
Qed.

Lemma mainLoop_swap cfg s (lines lines' : list (list ascii)) :
  Forall2 (swappedLine cfg s) lines lines' →
  ∀ f f' tru nm t,
    length lines ≤ f → length lines ≤ f' → orientValid s t →
    mainLoop cfg f' (State (joinLines lines') tru nm (flipSample s t))
    = outcome_map (flipState s)
        (mainLoop cfg f (State (joinLines lines) tru nm t)).
Proof.
  induction 1 as [|l l' lines lines' (Hl & Hl' & Harr) _ IH];
    intros f f' tru nm t Hf Hf' Hval.
  - by rewrite !mainLoop_nil by done.
  - destruct f as [|f]; [simpl in Hf; lia|].
    destruct f' as [|f']; [simpl in Hf'; lia|].
    rewrite !joinLines_cons.
    rewrite !mainLoop_step by (simpl; by destruct l + destruct l').
    rewrite !locusStep_est_line by done. rewrite Harr.
    destruct (readTrueAlleles (2 * numSamples cfg) tru 0)
      as [[T g]| | | | |]; try done.
    cbn [mbind outcome_mbind outcome_bind].
    unfold compareLocus at 1. rewrite sampLoop_swap by done.
    fold (compareLocus cfg (nm + 1)%Z (estArray cfg l) T t).
    destruct (compareLocus cfg (nm + 1)%Z (estArray cfg l) T t)
      as [t1| | | | |] eqn:Hc; try done.
    cbn [outcome_map mbind outcome_mbind outcome_bind].
    destruct (toEndline g) as [g'| | | | |]; try done.
    cbn [mbind outcome_mbind outcome_bind].
    apply IH; [simpl in Hf; lia|simpl in Hf'; lia|].
    by eapply compareLocus_orientValid.
Qed.

Lemma flipSample_init cfg s hapmix :
  flipSample s (initTracker cfg hapmix) = initTracker cfg hapmix.
Proof.
  unfold flipSample, initTracker. simpl. f_equal.
  apply list_eq. intros i. destruct (decide (s = i)) as [->|Hne].
  - rewrite list_lookup_alter_eq.
    destruct (replicate (numSamples cfg) (-1)%Z !! i) as [x|] eqn:Hx;
      [|done].
    apply lookup_replicate in Hx as [-> _]. reflexivity.
  - by rewrite list_lookup_alter_ne.
Qed.

Lemma orientValid_init cfg s hapmix : orientValid s (initTracker cfg hapmix).
Proof. intros h [-> _]%lookup_replicate. by left. Qed.

Lemma main_swap cfg s (lines lines' : list (list ascii)) tru hapmix :
  Forall2 (swappedLine cfg s) lines lines' →
  main cfg (joinLines lines') tru hapmix
  = outcome_map (flipState s) (main cfg (joinLines lines) tru hapmix).
Proof.
  intros Hsw. unfold main. destruct (_ && _); [done|]. unfold initState.
  rewrite <- (flipSample_init cfg s hapmix) at 1.
  apply mainLoop_swap; [done|apply joinLines_length| |apply orientValid_init].
  rewrite (Forall2_length _ _ _ Hsw). apply joinLines_length.
Qed.

(** A run that ends normally has read an estimated stream made of good
    lines. *)
Lemma toEndline_inv (s rest : list ascii) :
  toEndline s = Ok rest → ∃ l, s = l ++ nl :: rest ∧ (nl ∉ l).
Proof.
  induction s as [|c s IH]; simpl; [done|].
  destruct (Ascii.eqb_spec c nl) as [->|Hc].
  - intros [= <-]. exists []. split; [done|]. apply not_elem_of_nil.
  - intros (l & -> & Hnl)%IH. exists (c :: l). split; [done|].
    by apply not_elem_of_cons.
Qed.

Lemma skipLoop_inv k (s e0 : list ascii) :
  skipLoop k s = Ok e0 →
  ∃ pre, s = pre ++ e0 ∧ (nl ∉ pre) ∧ (length pre = k ∨ e0 = []).
Proof.
  revert s. induction k as [|k IH]; intros s H; simpl in H.
  - injection H as <-. exists []. split; [done|]. split; [|by left].
    apply not_elem_of_nil.
  - destruct s as [|c s].
    + apply IH in H as (pre & Hs & _ & _).
      symmetry in Hs. apply app_eq_nil in Hs as [-> ->].
      exists []. split; [done|]. split; [apply not_elem_of_nil|by right].
    + destruct (Ascii.eqb_spec c nl) as [->|Hc]; [done|].
      apply IH in H as (pre & -> & Hnl & Hlen).
      exists (c :: pre). split; [done|]. split.
      * by apply not_elem_of_cons.
      * destruct Hlen as [<- | ->]; [by left|by right].
Qed.

Lemma readEstAlleles_inv omit n2 (e0 : list ascii) curHap i E e rest :
  readEstAlleles omit n2 e0 curHap i = Ok (E, e) →
  toEndline e = Ok rest → i ≤ n2 →
  ∃ l0, e0 = l0 ++ nl :: rest ∧ (nl ∉ l0)
        ∧ n2 ≤ i + length (keptAlleles omit curHap l0).
Proof.
  revert curHap i E. induction e0 as [|c s IH]; intros curHap i E H Hend Hi;
    simpl in H.
  - destruct (i <? n2)%nat.
    + injection H as _ <-. done.
    + bind_inv H as u Hu. injection H as _ <-. done.
  - destruct (Ascii.eqb_spec c nl) as [->|Hc].
    { bind_inv H as u Hu. injection H as _ <-.
      apply assert_Ok, Nat.eqb_eq in Hu. simpl in Hend.
      injection Hend as <-. exists []. split; [done|].
      split; [apply not_elem_of_nil|simpl; lia]. }
    destruct (Nat.ltb_spec i n2) as [Hlt|Hge].
    + destruct (bool_decide _) eqn:Hom.
      * destruct (IH _ _ _ H Hend Hi) as (l0 & -> & Hnl & Hlen).
        exists (c :: l0). split; [done|]. split; [by apply not_elem_of_cons|].
        simpl. by rewrite Hom.
      * bind_inv H as p Hp. destruct p as [al r]. injection H as _ <-.
        destruct (IH _ _ _ Hp Hend) as (l0 & -> & Hnl & Hlen); [lia|].
        exists (c :: l0). split; [done|]. split; [by apply not_elem_of_cons|].
        simpl. rewrite Hom. simpl. lia.
    + bind_inv H as u Hu. injection H as _ <-.
      apply toEndline_inv in Hend as (l1 & -> & Hnl).
      exists (c :: l1). split; [done|]. split; [by apply not_elem_of_cons|].
      lia.
Qed.

Lemma locusStep_inv cfg st st' :
  locusStep cfg st = Ok st' →
  ∃ l, estG st = l ++ nl :: estG st' ∧ estLineOK cfg l.
Proof.
  unfold locusStep, readSite. intros H.
  bind_inv H as p Hp. destruct p as [[[E T] e] g].
  bind_inv Hp as e0 Hskip. bind_inv Hp as p1 Hest. destruct p1 as [E' e1].
  bind_inv Hp as p2 Htrue. destruct p2 as [T' g1].
  injection Hp as _ _ <- _.
  bind_inv H as t' Hc. bind_inv H as e2 He. bind_inv H as g2 Hg.
  injection H as <-. simpl.
  unfold skipInitial in Hskip.
  destruct (Z.ltb_spec (2 * skipNumInEst cfg) 0) as [|Hs]; [done|].
  apply skipLoop_inv in Hskip as (pre & Hst & Hpre & Hlen).
  destruct (readEstAlleles_inv _ _ _ _ _ _ _ _ Hest He)
    as (l0 & -> & Hnl & Hk); [lia|].
  destruct Hlen as [Hlen|Hnil]; [|by destruct l0].
  exists (pre ++ l0). rewrite Hst, <- app_assoc. split; [done|].
  unfold estLineOK, estAlleleChars.
  rewrite <- Hlen, drop_app_length, length_app.
  split_and!; [|lia|lia|lia].
  intros [?|?]%elem_of_app; done.
Qed.

Lemma mainLoop_inv cfg fuel st fin :
  mainLoop cfg fuel st = Ok fin →
  ∃ lines, estG st = joinLines lines ∧ Forall (estLineOK cfg) lines.
Proof.
  revert st. induction fuel as [|fuel IH]; intros st H; simpl in H.
  - destruct (estG st) as [|c s] eqn:He; [|done]. by exists [].
  - destruct (estG st) as [|c s] eqn:He; [by exists []|].
    bind_inv H as st' Hs.
    destruct (locusStep_inv _ _ _ Hs) as (l & Hl & Hok).
    destruct (IH _ H) as (lines & Hj & Hall).
    exists (l :: lines). rewrite joinLines_cons, <- Hj, <- Hl, He.
    split; [done|]. by constructor.
Qed.

(** Without skipping and omission, exchanging the two characters of
    sample [s] in a line is such an exchange in the array. *)
Lemma keptAlleles_none (curHap : Z) (l : list ascii) :
  keptAlleles ∅ curHap l = l.
Proof.
  revert curHap. induction l as [|c l IH]; intros curHap; [done|].
  simpl. rewrite bool_decide_eq_false_2 by set_solver. by rewrite IH.
Qed.

Lemma swapAlleles_length s (l : list ascii) :
  length (swapAlleles s l) = length l.
Proof.
  unfold swapAlleles. destruct (l !! (s * 2)), (l !! (s * 2 + 1)); try done.
  by rewrite !length_insert.
Qed.

Lemma swapAlleles_no_nl s (l : list ascii) : nl ∉ l → nl ∉ swapAlleles s l.
Proof.
  unfold swapAlleles.
  destruct (l !! (s * 2)) as [a|] eqn:Ha; [|done].
  destruct (l !! (s * 2 + 1)) as [b|] eqn:Hb; [|done].
  intros Hnl [k Hk]%list_elem_of_lookup_1. apply Hnl.
  apply list_lookup_insert_Some in Hk as [(_ & <- & _)|[_ Hk]].
  { by eapply list_elem_of_lookup_2. }
  apply list_lookup_insert_Some in Hk as [(_ & <- & _)|[_ Hk]].
  { by eapply list_elem_of_lookup_2. }
  by eapply list_elem_of_lookup_2.
Qed.

Lemma swapAlleles_take s n (l : list ascii) :
  take (2 * n) (swapAlleles s l) = swapAlleles s (take (2 * n) l).
Proof.
  unfold swapAlleles. destruct (decide (s < n)) as [Hlt|Hge].
  - rewrite !lookup_take_lt by lia.
    destruct (l !! (s * 2)), (l !! (s * 2 + 1)); try done.
    by rewrite !take_insert_lt by lia.
  - rewrite (lookup_take_ge l (2 * n) (s * 2)) by lia.
    destruct (l !! (s * 2)), (l !! (s * 2 + 1)); try done.
    by rewrite !take_insert_ge by lia.
Qed.

Lemma plain_swappedLine cfg s (l : list ascii) :
  skipNumInEst cfg = 0%Z → omitIndSet cfg = ∅ → estLineOK cfg l →
  swappedLine cfg s l (swapAlleles s l).
Proof.
  intros Hs Ho Hok.
  assert (Hchars : ∀ l', estAlleleChars cfg l' = l').
  { intros l'. unfold estAlleleChars. rewrite Hs, Ho. simpl.
    apply keptAlleles_none. }
  destruct Hok as (Hnl & H0 & Hk & Hlen). rewrite Hchars in Hlen.
  split_and!.
  - unfold estLineOK. by rewrite Hchars.
  - unfold estLineOK. rewrite Hchars, swapAlleles_length.
    split_and!; try done. by apply swapAlleles_no_nl.
  - unfold estArray. rewrite !Hchars. apply swapAlleles_take.
Qed.

(** C8.  A run of [main] that ends normally has read an estimated
    stream made of lines that hold enough allele characters.  Let a
    second estimated stream have, line by line, the same alleles in its
    arrays except that the two alleles of sample [s] are exchanged.
    Then the run on the second stream has the outcome of the first
    run, with the final orientation of [s] flipped and everything else
    equal: the personal switch counts, numSwitchErrors, totalHetSites,
    the missing count and the number of markers are the same.  Without
    skipping and omission, exchanging the two characters of the sample
    in a line of the file is such an exchange. *)
Theorem swapping_estimated_homologs_keeps_counts cfg s :
  (∀ est tru hapmix fin,
     main cfg est tru hapmix = Ok fin →
     ∃ lines, est = joinLines lines ∧ Forall (estLineOK cfg) lines)
  ∧ (∀ (lines lines' : list (list ascii)) tru hapmix,
       Forall2 (swappedLine cfg s) lines lines' →
       main cfg (joinLines lines') tru hapmix
       = outcome_map (flipState s) (main cfg (joinLines lines) tru hapmix)
       ∧ ∀ fin, main cfg (joinLines lines) tru hapmix = Ok fin →
           ∃ fin', main cfg (joinLines lines') tru hapmix = Ok fin'
                   ∧ indivNumSwitches (trk fin') = indivNumSwitches (trk fin)
                   ∧ numSwitchErrors (trk fin') = numSwitchErrors (trk fin)
                   ∧ totalHetSites (trk fin') = totalHetSites (trk fin)
                   ∧ numMissing (trk fin') = numMissing (trk fin)
                   ∧ numMarkers fin' = numMarkers fin)
  ∧ (∀ l : list ascii,
       skipNumInEst cfg = 0%Z → omitIndSet cfg = ∅ → estLineOK cfg l →
       swappedLine cfg s l (swapAlleles s l)).
Proof.
  split; [|split; [|by apply plain_swappedLine]].
  - intros est tru hapmix fin. unfold main.
    destruct (_ && _); [done|]. intros H.
    by apply mainLoop_inv in H.
  - intros lines lines' tru hapmix Hsw.
    pose proof (main_swap cfg s lines lines' tru hapmix Hsw) as Heq.
    split; [done|]. intros fin Hfin. rewrite Hfin in Heq.
    exists (flipState s fin). split; [done|].
    destruct fin as [e g nm t]. by destruct t.
Qed.

(** ** Instances *)

Lemma no_newline_check (l : list ascii) :
  forallb (λ c, c ≠c nl) l = true → nl ∉ l.
Proof.
  induction l as [|c l IH]; simpl.
  - intros _. apply not_elem_of_nil.
  - intros [Hc Hl]%andb_true_iff. apply not_elem_of_cons.
    split; [|by apply IH]. apply eqb_neq_true in Hc. congruence.
Qed.

Ltac no_newline := apply no_newline_check; reflexivity.

Lemma trio_filter_skips_exactly_triple_het_witness :
  sampleBody cfgTrio 1%Z (str "0110") (str "0110") 0 (initTracker cfgTrio [])
  = Ok (initTracker cfgTrio [], 2).
Proof.
  refine (proj1 (proj2 (proj2 (proj2
    (trio_filter_skips_exactly_triple_het cfgTrio 1%Z (str "0110")
       (str "0110") 0 (initTracker cfgTrio []) (-1)%Z (initTracker cfgTrio [])
       c0 c1 c0 c1 1%Z c1 c0 _ _ _ _ _ _ _ _ _ _ _ _ _)))) _);
    try reflexivity; try discriminate; try (split; reflexivity).
  repeat split; discriminate.
Defined.

Lemma ancestry_record_not_read_for_skipped_partner_witness :
  ∃ t', compareLocus cfgAnc 1%Z (str "01") (str "01")
          (initTracker cfgAnc [[goodLine]]) = Ok t'
        ∧ ∃ r f, hapmixFiles (initTracker cfgAnc [[goodLine]]) !! 0
                 = Some (r :: f)
                 ∧ hapmixFiles t' !! 0 = Some f.
Proof.
  eexists. split; [vm_compute; reflexivity|].
  apply (proj2 ancestry_record_not_read_for_skipped_partner cfgAnc 1%Z
           (str "01") (str "01"));
    [reflexivity|reflexivity|vm_compute; reflexivity|simpl; lia].
Defined.

Lemma orientation_set_once_then_toggles_witness :
  ∃ fin,
    mainLoop cfgA 1
      (State (str "10" ++ [nl]) (str "01" ++ [nl]) 1%Z
         (set_homologsInverted [0%Z] (initTracker cfgA []))) = Ok fin
    ∧ ∃ h', homologsInverted (trk fin) !! 0 = Some h'
            ∧ (h' = 0%Z ∨ h' = 1%Z).
Proof.
  eexists. split; [vm_compute; reflexivity|].
  apply (proj2 (proj2 (orientation_set_once_then_toggles cfgA)) 1
           (State (str "10" ++ [nl]) (str "01" ++ [nl]) 1%Z
              (set_homologsInverted [0%Z] (initTracker cfgA []))) _ 0 0%Z);
    [vm_compute; reflexivity|reflexivity|left; reflexivity].
Defined.

Ltac line_ok :=
  unfold estLineOK, trueLineOK;
  split_and!; first [no_newline|(simpl; lia)|(vm_compute; lia)].





Lemma switch_errors_bounded_by_het_sites_witness :
  ∃ fin, main cfgA estA trueA [] = Ok fin
         ∧ (numSwitchErrors (trk fin) ≤ totalHetSites (trk fin))%Z.
Proof.
  eexists. split; [vm_compute; reflexivity|].
  refine (proj2 (proj2 (proj2 (switch_errors_bounded_by_het_sites cfgA))
                   estA trueA [] _ _)).
  vm_compute. reflexivity.
Defined.

Lemma swapping_estimated_homologs_keeps_counts_witness :
  main cfgA (joinLines estLinesA') trueA []
  = outcome_map (flipState 0) (main cfgA (joinLines estLinesA) trueA []).
Proof.
  refine (proj1 (proj1 (proj2
            (swapping_estimated_homologs_keeps_counts cfgA 0))
            estLinesA estLinesA' trueA [] _)).
  repeat first [apply List.Forall2_nil|apply List.Forall2_cons].
  all: split; [line_ok|split; [line_ok|reflexivity]].
Defined.

Lemma succession_partner_in_bounds_iff_even_witness :
  trioCheck cfgTrio3 (str "010101") 2 c0 c1 = OutOfBounds.
Proof.
  refine (proj1 (proj2 (proj2 (proj2
            (succession_partner_in_bounds_iff_even cfgTrio3 (str "010101")
               _ _)) _)) c0 c1 _).
  - reflexivity.
  - reflexivity.
  - exists 1. reflexivity.
  - discriminate.
Defined.

Lemma trio_table_symmetric_witness :
  trioCheck cfgTable (str "0110") 0 c0 c1
  = trioCheck cfgTable (str "0110") 1 c1 c0.
Proof.
  refine (proj1 (trio_table_symmetric cfgTable [1%Z; 0%Z] 1%Z (str "0110")
                   (str "0110") 0 1 c0 c1 c1 c0 _ _ _ _ _ _));
    try reflexivity; split; reflexivity.
Defined.

(** * Further properties of [main] and of the functions it calls *)

(** ** The pairing table *)

Lemma arrZ_Ok {A : Type} (l : list A) (i : Z) (x : A) :
  arrZ l i = Ok x ↔ (0 ≤ i)%Z ∧ l !! Z.to_nat i = Some x.
Proof.
  unfold arrZ. destruct (Z.ltb_spec i 0).
  - split; [done|]. intros [? _]. lia.
  - rewrite arr_Ok. split; [by intros ?|by intros [_ ?]].
Qed.

Lemma setCount_insert (tbl : list Z) i v :
  tbl !! i = Some (-1)%Z → v ≠ (-1)%Z →
  setCount (<[i := v]> tbl) = (setCount tbl + 1)%Z.
Proof.
  intros Hl Hv. unfold setCount. rewrite list_fmap_insert.
  rewrite (sumZ_insert _ i 0%Z).
  - destruct (Z.eqb_spec v (-1)); lia.
  - rewrite list_lookup_fmap, Hl. reflexivity.
Qed.

Lemma setCount_bound (tbl : list Z) :
  (0 ≤ setCount tbl ≤ Z.of_nat (length tbl))%Z.
Proof.
  unfold setCount. induction tbl as [|p tbl IH]; [simpl; unfold sumZ; simpl; lia|].
  rewrite fmap_cons, sumZ_cons. simpl length. destruct (p =? -1)%Z; lia.
Qed.

Lemma setCount_full (tbl : list Z) i p :
  setCount tbl = Z.of_nat (length tbl) → tbl !! i = Some p → p ≠ (-1)%Z.
Proof.
  unfold setCount. revert i.
  induction tbl as [|x tbl IH]; intros i Hc Hl; [done|].
  rewrite fmap_cons, sumZ_cons in Hc. simpl length in Hc.
  pose proof (setCount_bound tbl) as Hb. unfold setCount in Hb.
  destruct (Z.eqb_spec x (-1)) as [->|Hx]; [lia|].
  destruct i as [|i]; simpl in Hl.
  - by injection Hl as <-.
  - eapply IH; [lia|exact Hl].
Qed.

Lemma partialTable_init n : partialTable n 0 (replicate n (-1)%Z).
Proof.
  split_and!.
  - apply length_replicate.
  - intros i p [-> _]%lookup_replicate. by left.
  - unfold setCount. induction n as [|n IH]; [done|].
    change (replicate (S n) (-1)%Z) with ((-1)%Z :: replicate n (-1)%Z).
    rewrite fmap_cons, sumZ_cons, IH. reflexivity.
Qed.

(** One pair keeps the table well-formed and sets two more entries. *)
Lemma partialTable_step n k tbl (a b : nat) :
  partialTable n k tbl →
  tbl !! a = Some (-1)%Z → tbl !! b = Some (-1)%Z → a ≠ b →
  partialTable n (k + 1)
    (<[b := Z.of_nat a]> (<[a := Z.of_nat b]> tbl)).
Proof.
  intros (Hlen & Hinv & Hcnt) Ha Hb Hab.
  assert (a < n) by (rewrite <- Hlen; by eapply lookup_lt_Some).
  assert (b < n) by (rewrite <- Hlen; by eapply lookup_lt_Some).
  split_and!.
  - by rewrite !length_insert.
  - intros i p Hl. destruct (decide (i = b)) as [->|Hib].
    { rewrite list_lookup_insert_eq in Hl
        by (rewrite length_insert; lia).
      injection Hl as <-. right. exists a. split_and!; try done.
      rewrite list_lookup_insert_ne by done.
      apply list_lookup_insert_eq. lia. }
    rewrite list_lookup_insert_ne in Hl by done.
    destruct (decide (i = a)) as [->|Hia].
    { rewrite list_lookup_insert_eq in Hl by lia.
      injection Hl as <-. right. exists b. split_and!; try done.
      apply list_lookup_insert_eq. rewrite length_insert. lia. }
    rewrite list_lookup_insert_ne in Hl by done.
    destruct (Hinv i p Hl) as [->|(q & -> & Hq & Hqi & Hlq)]; [by left|].
    right. exists q. split_and!; try done.
    assert (a ≠ q) by (intros ->; rewrite Ha in Hlq; injection Hlq; lia).
    assert (b ≠ q) by (intros ->; rewrite Hb in Hlq; injection Hlq; lia).
    by rewrite !list_lookup_insert_ne.
  - rewrite setCount_insert; [|by rewrite list_lookup_insert_ne|lia].
    rewrite setCount_insert; [lia|done|lia].
Qed.

Lemma readPairsLoop_Ok n pairs tbl k tbl' k' :
  partialTable n k tbl →
  readPairsLoop n pairs tbl k = Ok (tbl', k') →
  partialTable n k' tbl' ∧ k' = (k + Z.of_nat (length pairs))%Z
  ∧ (∀ i p, tbl !! i = Some p → p ≠ (-1)%Z → tbl' !! i = Some p)
  ∧ ∀ id1 id2, (id1, id2) ∈ pairs →
      (0 ≤ id1)%Z ∧ (0 ≤ id2)%Z
      ∧ tbl' !! Z.to_nat id1 = Some id2 ∧ tbl' !! Z.to_nat id2 = Some id1.
Proof.
  revert tbl k. induction pairs as [|[id1 id2] pairs IH]; intros tbl k Hpt H.
  - simpl in H. injection H as <- <-. split_and!; try done.
    + simpl. lia.
    + intros id1 id2 Hin. by apply elem_of_nil in Hin.
  - simpl in H. bind_inv H as p1 Hp1. apply arrZ_Ok in Hp1 as [H1 Hp1].
    bind_inv H as u Hu. destruct (Z.eqb_spec p1 (-1)) as [->|]; [|done].
    bind_inv Hu as p2 Hp2. apply arrZ_Ok in Hp2 as [H2 Hp2].
    apply assert_Ok, Z.eqb_eq in Hu as ->.
    bind_inv H as u' Hu'. apply assert_Ok in Hu'.
    rewrite !andb_true_iff, negb_true_iff, Z.eqb_neq, !Z.ltb_lt in Hu'.
    destruct Hu' as [[Hne Hlt1] Hlt2].
    assert (Hab : Z.to_nat id1 ≠ Z.to_nat id2) by lia.
    pose proof (partialTable_step n k tbl _ _ Hpt Hp1 Hp2 Hab) as Hstep.
    rewrite !Z2Nat.id in Hstep by lia.
    destruct (IH _ _ Hstep H) as (Hpt' & -> & Hkeep & Hin).
    split_and!; try done.
    + simpl length. lia.
    + intros i p Hl Hp. apply Hkeep; [|done].
      rewrite !list_lookup_insert_ne; [done|congruence|congruence].
    + intros a b [[= -> ->]|Hel]%elem_of_cons; [|by apply Hin].
      split_and!; try done.
      * apply Hkeep; [|lia]. rewrite list_lookup_insert_ne by done.
        apply list_lookup_insert_eq. by eapply lookup_lt_Some.
      * apply Hkeep; [|lia].
        apply list_lookup_insert_eq. rewrite length_insert.
        by eapply lookup_lt_Some.
Qed.

(** X1.  When [readTrioParentsPairs] returns, started on the table of
    [main], there are [numSamples / 2] pairs, every sample has a partner
    in the table, the partner is another sample and has the sample as
    its partner, every pair of the file is in the table in both
    directions, and the table is usable as the trio option of a
    configuration. *)
Theorem pairing_table_is_a_perfect_matching n pairs tbl :
  loadTrioParents n pairs = Ok tbl →
  pairedTable n tbl
  ∧ length pairs * 2 = n
  ∧ (∀ id1 id2, (id1, id2) ∈ pairs →
       (0 ≤ id1)%Z ∧ (0 ≤ id2)%Z
       ∧ tbl !! Z.to_nat id1 = Some id2 ∧ tbl !! Z.to_nat id2 = Some id1)
  ∧ ∀ cfg, numSamples cfg = n → otherParentIdx cfg = Some tbl →
      trioParentsInSuccession cfg = false → trioConfigOK cfg.
Proof.
  unfold loadTrioParents, readTrioParentsPairs. intros H.
  bind_inv H as r Hloop. destruct r as [tbl' k'].
  bind_inv H as u Hu. injection H as ->.
  apply assert_Ok, Z.eqb_eq in Hu.
  destruct (readPairsLoop_Ok _ _ _ _ _ _ (partialTable_init n) Hloop)
    as ((Hlen & Hinv & Hcnt) & -> & _ & Hin).
  assert (Hpaired : pairedTable n tbl).
  { split; [done|]. intros i Hi.
    destruct (lookup_lt_is_Some_2 tbl i) as [p Hp]; [lia|].
    destruct (Hinv i p Hp) as [->|(q & -> & Hq & Hqi & Hlq)].
    - exfalso. eapply (setCount_full tbl i); [|exact Hp|done]. lia.
    - exists q. by split_and!. }
  split_and!; try done.
  - lia.
  - intros cfg Hn Htbl Hs. unfold trioConfigOK. rewrite Htbl, Hn.
    split_and!; try done.
    intros s p Hp. destruct Hpaired as [_ Hall].
    destruct (Hall s) as (q & Hq & Hlt & _);
      [rewrite <- Hlen; by eapply lookup_lt_Some|].
    rewrite Hq in Hp. injection Hp as <-. lia.
Qed.


(** ** Skipping and omission *)

Lemma keptAlleles_subset omit curHap (l : list ascii) x :
  x ∈ keptAlleles omit curHap l → x ∈ l.
Proof.
  revert curHap. induction l as [|c l IH]; intros curHap; simpl; [done|].
  destruct (bool_decide _).
  - intros H%IH. by right.
  - intros [->|H%IH]%elem_of_cons; [by left|by right].
Qed.

Lemma estLineOK_plain cfg (l : list ascii) :
  estLineOK cfg l →
  estLineOK (plainLayout cfg) (estAlleleChars cfg l)
  ∧ estArray (plainLayout cfg) (estAlleleChars cfg l) = estArray cfg l.
Proof.
  intros (Hnl & H0 & Hk & Hlen).
  assert (Hchars : ∀ l', estAlleleChars (plainLayout cfg) l' = l').
  { intros l'. unfold estAlleleChars. simpl. apply keptAlleles_none. }
  split.
  - unfold estLineOK. rewrite Hchars. simpl. split_and!; try done; try lia.
    intros Hin. apply Hnl. unfold estAlleleChars in Hin.
    apply keptAlleles_subset in Hin.
    rewrite <- (take_drop (Z.to_nat (2 * skipNumInEst cfg)) l).
    apply elem_of_app. by right.
  - unfold estArray. by rewrite Hchars.
Qed.

Lemma sampLoop_plain cfg nm E T fuel samp t :
  sampLoop (plainLayout cfg) nm E T fuel samp t
  = sampLoop cfg nm E T fuel samp t.
Proof.
  revert samp t. induction fuel as [|fuel IH]; intros samp t; [done|].
  simpl. destruct (samp <? numSamples cfg); [|done].
  change (sampleBody (plainLayout cfg) nm E T samp t)
    with (sampleBody cfg nm E T samp t).
  destruct (sampleBody cfg nm E T samp t) as [[t' next]| | | | |]; try done.
  simpl. apply IH.
Qed.

Lemma mainLoop_plain cfg (lines : list (list ascii)) :
  Forall (estLineOK cfg) lines →
  ∀ f f' tru nm t,
    length lines ≤ f → length lines ≤ f' →
    mainLoop cfg f (State (joinLines lines) tru nm t)
    = mainLoop (plainLayout cfg) f'
        (State (joinLines (estAlleleChars cfg <$> lines)) tru nm t).
Proof.
  induction 1 as [|l lines Hl _ IH]; intros f f' tru nm t Hf Hf'.
  - by rewrite !mainLoop_nil by done.
  - destruct f as [|f]; [simpl in Hf; lia|].
    destruct f' as [|f']; [simpl in Hf'; lia|].
    destruct (estLineOK_plain cfg l Hl) as [Hl' Harr].
    rewrite fmap_cons, !joinLines_cons.
    rewrite !mainLoop_step
      by (simpl; by destruct l + destruct (estAlleleChars cfg l)).
    rewrite !locusStep_est_line by done. rewrite Harr.
    change (numSamples (plainLayout cfg)) with (numSamples cfg).
    destruct (readTrueAlleles (2 * numSamples cfg) tru 0)
      as [[T g]| | | | |]; try done.
    cbn [mbind outcome_mbind outcome_bind].
    unfold compareLocus. rewrite sampLoop_plain.
    change (numSamples (plainLayout cfg)) with (numSamples cfg).
    destruct (sampLoop cfg (nm + 1)%Z (estArray cfg l) T (numSamples cfg) 0 t)
      as [t1| | | | |]; try done.
    cbn [mbind outcome_mbind outcome_bind].
    destruct (toEndline g) as [g'| | | | |]; try done.
    cbn [mbind outcome_mbind outcome_bind].
    apply IH; simpl in *; lia.
Qed.

(** X3.  The options -s and -o only select characters of the estimated
    lines: a run on lines that hold enough allele characters is the run
    with neither option on the lines reduced to their allele characters
    (the skipped individuals and the omitted individuals, numbered
    after the skipped ones, deleted). *)
Theorem skip_and_omit_select_characters cfg (lines : list (list ascii))
    tru hapmix :
  Forall (estLineOK cfg) lines →
  main cfg (joinLines lines) tru hapmix
  = main (plainLayout cfg) (joinLines (estAlleleChars cfg <$> lines))
      tru hapmix.
Proof.
  intros Hall. unfold main.
  change (useLocalAnc (plainLayout cfg)) with (useLocalAnc cfg).
  change (numSamples (plainLayout cfg)) with (numSamples cfg).
  destruct (_ && _); [done|]. unfold initState.
  change (initTracker (plainLayout cfg) hapmix) with (initTracker cfg hapmix).
  apply mainLoop_plain; [done|apply joinLines_length|].
  rewrite <- (length_fmap (estAlleleChars cfg) lines) at 1.
  apply joinLines_length.
Qed.

(** ** The counters stratified by ancestry class *)

Lemma countHetSite_tally pac x0 x1 t t' :
  countHetSite pac x0 x1 t = Ok t' →
  switchSame t t' ∧ numMissing t' = numMissing t
  ∧ ((x0 = x1 ∧ hetSame t t')
     ∨ (x0 ≠ x1 ∧ hetCounted (ancBucket pac) t t')).
Proof.
  unfold countHetSite, switchSame, hetSame, hetCounted.
  destruct (Ascii.eqb_spec x0 x1) as [->|Hne]; simpl.
  - intros [= <-]. split_and!; try done. by left.
  - intros H. bind_inv H as b Hb. injection H as <-.
    apply incrAt_Ok in Hb as (x & Hx & ->).
    destruct t; simpl in *. split_and!; try done. right. eauto.
Qed.

Lemma recordSwitch_tally cfg nm pac samp h t t' :
  recordSwitch cfg nm pac samp h t = Ok t' →
  hetSame t t' ∧ numMissing t' = numMissing t
  ∧ switchCounted (ancBucket pac) t t'.
Proof.
  unfold recordSwitch, hetSame, switchCounted. intros H.
  bind_inv H as b Hb. apply incrAt_Ok in Hb as (y & Hy & ->).
  bind_inv H as t2 Ht2.
  assert (Hlog : ∃ log, t2 = set_blockLog log
            (set_homologsInverted
               (<[samp := (1 - h)%Z]>
                  (homologsInverted
                     (set_numAncClassSwitchErrors
                        (<[ancBucket pac := (y + 1)%Z]>
                           (numAncClassSwitchErrors t))
                        (set_numSwitchErrors (numSwitchErrors t + 1)%Z t))))
               (set_numAncClassSwitchErrors
                  (<[ancBucket pac := (y + 1)%Z]>
                     (numAncClassSwitchErrors t))
                  (set_numSwitchErrors (numSwitchErrors t + 1)%Z t)))).
  { destruct (verbose cfg).
    - bind_inv Ht2 as p Hp. bind_inv Ht2 as n Hn. injection Ht2 as <-. eauto.
    - injection Ht2 as <-. exists (blockLog t). by destruct t. }
  destruct Hlog as [log ->].
  bind_inv H as p Hp. bind_inv H as n Hn. injection H as <-.
  destruct t; simpl in *. split_and!; try done. eauto.
Qed.

Lemma checkSwitch_tally cfg nm pac samp h e0 e1 x0 x1 t t' :
  checkSwitch cfg nm pac samp h e0 e1 x0 x1 t = Ok t' →
  tallyEffect (ancBucket pac) t t' ∧ numMissing t' = numMissing t.
Proof.
  unfold checkSwitch. intros H.
  bind_inv H as tm Htm.
  apply countHetSite_tally in Htm as ([Hs1 Hs2] & Hm & Hhet).
  bind_inv H as eh0 H0. bind_inv H as eh1 H1.
  destruct (Ascii.eqb_spec eh0 x0) as [->|Hne0].
  - bind_inv H as u Hu. injection H as <-. split; [|done].
    destruct Hhet as [[_ Hh]|[_ Hh]]; [by left|right; by left].
  - bind_inv H as u Hu. apply assert_Ok, andb_true_iff in Hu as [Hu _].
    apply Ascii.eqb_eq in Hu. subst eh0.
    apply recordSwitch_tally in H as ([Hh1 Hh2] & Hm' & y & Hy & Hn & Hg).
    split; [|congruence].
    destruct Hhet as [[-> _]|[_ (x & Hx & Ht & Hg')]]; [done|].
    right. right. split.
    + exists x. split_and!; [done|congruence|congruence].
    + exists y. rewrite <- Hs1, <- Hs2. done.
Qed.

Lemma afterTrio_tally cfg nm pac samp e0 e1 x0 x1 t t' :
  afterTrio cfg nm pac samp e0 e1 x0 x1 t = Ok t' →
  tallyEffect (ancBucket pac) t t'
  ∧ (numMissing t' = numMissing t
     ∨ numMissing t' = (numMissing t + 1)%Z).
Proof.
  unfold afterTrio, phaseTrack. destruct (_ || _).
  { intros H. bind_inv H as u Hu. injection H as <-.
    split; [left; by destruct t|right; by destruct t]. }
  intros H. bind_inv H as h Hh. destruct (h =? -1)%Z.
  - apply setOrientation_Ok in H as [[_ ->]|(_ & v & _ & ->)].
    + split; [by left|by left].
    + split; [left; by destruct t|left; by destruct t].
  - apply checkSwitch_tally in H as [? ?]. auto.
Qed.

Lemma sampleBody_tally cfg nm E T samp t t' next :
  sampleBody cfg nm E T samp t = Ok (t', next) →
  ∃ pac t1, localAncStep cfg samp t = Ok (pac, t1)
    ∧ tallyEffect (ancBucket pac) t t'
    ∧ (numMissing t' = numMissing t
       ∨ numMissing t' = (numMissing t + 1)%Z).
Proof.
  intros H. unfold sampleBody in H.
  bind_inv H as p Hanc. destruct p as [pac t1]. exists pac, t1.
  split; [done|].
  apply localAncStep_frame in Hanc
    as (_ & _ & _ & Hm & Hns & Hth & Hnac & Htac & _ & _).
  assert (Hframe : ∀ u, tallyEffect (ancBucket pac) t1 u
            ∧ (numMissing u = numMissing t1
               ∨ numMissing u = (numMissing t1 + 1)%Z) →
            tallyEffect (ancBucket pac) t u
            ∧ (numMissing u = numMissing t
               ∨ numMissing u = (numMissing t + 1)%Z)).
  { intros u [He Hn]. split; [|by rewrite <- Hm].
    unfold tallyEffect, hetSame, hetCounted, switchSame, switchCounted in *.
    by rewrite <- Hns, <- Hth, <- Hnac, <- Htac. }
  apply Hframe.
  bind_inv H as e0 He0. bind_inv H as x0 Hx0. bind_inv H as u0 Hc0.
  bind_inv H as e1 He1. bind_inv H as x1 Hx1. bind_inv H as u1 Hc1.
  destruct (_ || _).
  { injection H as <- _. destruct (_ && _).
    - split; [left; by destruct t1|left; by destruct t1].
    - split; [by left|by left]. }
  bind_inv H as u2 Hm2. bind_inv H as amb Htrio. destruct amb.
  { injection H as <- _. split; [by left|by left]. }
  bind_inv H as t2 Hafter. injection H as <- _.
  by eapply afterTrio_tally.
Qed.

Lemma tallyOK_step b t t' : tallyOK t → tallyEffect b t t' → tallyOK t'.
Proof.
  intros (Ln & Lt & Sn & St & Hle) He. unfold tallyOK.
  destruct He as [[[Ht Hg] [Hn Hs]]
                 |[[(x & Hx & Ht & Hg) [Hn Hs]]
                  |[(x & Hx & Ht & Hg) (y & Hy & Hn & Hs)]]].
  - by rewrite Ht, Hg, Hn, Hs.
  - rewrite Ht, Hg, Hn, Hs, length_insert, (sumZ_insert _ _ _ _ Hx).
    split_and!; [done|done|done|lia|].
    intros c y0 x0 Hy0. destruct (decide (c = b)) as [->|Hne].
    + rewrite list_lookup_insert_eq by (by eapply lookup_lt_Some).
      intros [= <-]. specialize (Hle _ _ _ Hy0 Hx). lia.
    + rewrite list_lookup_insert_ne by done. by apply Hle.
  - rewrite Ht, Hg, Hn, Hs, !length_insert,
      (sumZ_insert _ _ _ _ Hx), (sumZ_insert _ _ _ _ Hy).
    split_and!; [done|done|lia|lia|].
    intros c y0 x0. destruct (decide (c = b)) as [->|Hne].
    + rewrite !list_lookup_insert_eq by (by eapply lookup_lt_Some).
      intros [= <-] [= <-]. specialize (Hle _ _ _ Hy Hx). lia.
    + rewrite !list_lookup_insert_ne by done. by apply Hle.
Qed.

Lemma classBucketsZero_step cfg samp pac t t1 t' :
  localAncStep cfg samp t = Ok (pac, t1) →
  tallyEffect (ancBucket pac) t t' →
  classBucketsZero cfg t → classBucketsZero cfg t'.
Proof.
  intros Hanc He Hz Hu c Hc. destruct (Hz Hu c Hc) as [Hn Ht].
  unfold localAncStep in Hanc. rewrite Hu in Hanc. injection Hanc as <- _.
  change (ancBucket (-1)) with 3 in He.
  destruct He as [[[Ht' _] [Hn' _]]
                 |[[(x & _ & Ht' & _) [Hn' _]]
                  |[(x & _ & Ht' & _) (y & _ & Hn' & _)]]];
    rewrite Ht', Hn'; rewrite ?list_lookup_insert_ne by lia; done.
Qed.

Lemma four_cells (l : list Z) :
  length l = 4 → (∀ c, c < 3 → l !! c = Some 0%Z) →
  l = [0; 0; 0; sumZ l]%Z.
Proof.
  intros Hlen Hz. destruct l as [|a [|b [|c [|d [|]]]]]; try done.
  pose proof (Hz 0 ltac:(lia)) as [= ->].
  pose proof (Hz 1 ltac:(lia)) as [= ->].
  pose proof (Hz 2 ltac:(lia)) as [= ->].
  unfold sumZ. simpl. by rewrite Z.add_0_r.
Qed.

(** X4.  At the end of a run the four counters of switch errors by
    ancestry class add up to numSwitchErrors, the four counters of
    heterozygous sites add up to totalHetSites, and in every class the
    switch errors are at most the heterozygous sites.  Without local
    ancestry everything is counted in the last, ambiguous class. *)
Theorem ancestry_classes_partition_the_counts cfg est tru hapmix fin :
  main cfg est tru hapmix = Ok fin →
  sumZ (numAncClassSwitchErrors (trk fin)) = numSwitchErrors (trk fin)
  ∧ sumZ (totalAncClassHetSites (trk fin)) = totalHetSites (trk fin)
  ∧ (∀ c, c < 4 →
       ∃ y x, numAncClassSwitchErrors (trk fin) !! c = Some y
              ∧ totalAncClassHetSites (trk fin) !! c = Some x
              ∧ (0 ≤ y ≤ x)%Z)
  ∧ (useLocalAnc cfg = false →
     numAncClassSwitchErrors (trk fin)
       = [0; 0; 0; numSwitchErrors (trk fin)]%Z
     ∧ totalAncClassHetSites (trk fin)
       = [0; 0; 0; totalHetSites (trk fin)]%Z).
Proof.
  unfold main. destruct (_ && _); [done|]. intros Hrun.
  assert (HP : tallyOK (trk fin) ∧ classBucketsZero cfg (trk fin)).
  { eapply (mainLoop_preserves cfg
              (λ t, tallyOK t ∧ classBucketsZero cfg t)); [| |exact Hrun].
    - intros nm E T samp t t' next _ [Hok Hz] Hb.
      apply sampleBody_tally in Hb as (pac & t1 & Hanc & He & _).
      split; [by eapply tallyOK_step|by eapply classBucketsZero_step].
    - split.
      + unfold tallyOK. simpl. split_and!; try done.
        intros c y x Hy Hx.
        destruct c as [|[|[|[|c]]]]; simplify_eq/=; lia.
      + intros _ c Hc. simpl. destruct c as [|[|[|c]]]; [done..|lia]. }
  destruct HP as [(Ln & Lt & Sn & St & Hle) Hz].
  split_and!; [done|done| |].
  - intros c Hc.
    destruct (lookup_lt_is_Some_2 (numAncClassSwitchErrors (trk fin)) c)
      as [y Hy]; [lia|].
    destruct (lookup_lt_is_Some_2 (totalAncClassHetSites (trk fin)) c)
      as [x Hx]; [lia|].
    exists y, x. split; [done|]. split; [done|]. by eapply Hle.
  - intros Hu. rewrite <- Sn, <- St.
    split; apply four_cells; try done; intros c Hc; by apply Hz.
Qed.

(** ** The rates of the report *)

Lemma ratio_unit (a b : Z) :
  (0 ≤ a ≤ b)%Z → (0 < b)%Z →
  (0 <= inject_Z a / inject_Z b)%Q ∧ (inject_Z a / inject_Z b <= 1)%Q.
Proof.
  intros Hab Hb. split.
  - apply Qle_shift_div_l.
    + change 0%Q with (inject_Z 0). rewrite <- Zlt_Qlt. lia.
    + rewrite Qmult_0_l. change 0%Q with (inject_Z 0).
      rewrite <- Zle_Qle. lia.
  - apply Qle_shift_div_r.
    + change 0%Q with (inject_Z 0). rewrite <- Zlt_Qlt. lia.
    + rewrite Qmult_1_l. rewrite <- Zle_Qle. lia.
Qed.

Lemma ratio_pos (a b : Z) :
  (0 < a)%Z → (0 < b)%Z → (0 < inject_Z a / inject_Z b)%Q.
Proof.
  intros Ha Hb. apply Qlt_shift_div_l.
  - change 0%Q with (inject_Z 0). rewrite <- Zlt_Qlt. lia.
  - rewrite Qmult_0_l. change 0%Q with (inject_Z 0). rewrite <- Zlt_Qlt. lia.
Qed.

Lemma sampLoop_numMissing cfg nm E T fuel samp t t' :
  sampLoop cfg nm E T fuel samp t = Ok t' →
  (numMissing t ≤ numMissing t'
   ≤ numMissing t + Z.of_nat (numSamples cfg - samp))%Z.
Proof.
  revert samp t. induction fuel as [|fuel IH]; intros samp t H.
  - simpl in H. destruct (samp <? numSamples cfg); [done|].
    injection H as <-. lia.
  - destruct (decide (samp < numSamples cfg)) as [Hlt|Hge].
    + rewrite sampLoop_step in H by done.
      bind_inv H as r Hb. destruct r as [t1 next].
      pose proof (sampleBody_next _ _ _ _ _ _ _ _ Hb) as Hnext.
      apply sampleBody_tally in Hb as (pac & t0 & _ & _ & Hm).
      apply IH in H. lia.
    + rewrite sampLoop_done in H by lia. injection H as <-. lia.
Qed.

Lemma locusStep_numMissing cfg st st' :
  locusStep cfg st = Ok st' →
  numMarkers st' = (numMarkers st + 1)%Z
  ∧ (numMissing (trk st) ≤ numMissing (trk st')
     ≤ numMissing (trk st) + Z.of_nat (numSamples cfg))%Z.
Proof.
  unfold locusStep. intros H.
  bind_inv H as r Hr. destruct r as [[[E T] e] g].
  bind_inv H as t' Hc. bind_inv H as e' He. bind_inv H as g' Hg.
  injection H as <-. simpl. split; [done|].
  apply sampLoop_numMissing in Hc. lia.
Qed.

Lemma mainLoop_numMissing cfg fuel st fin :
  mainLoop cfg fuel st = Ok fin →
  (0 ≤ numMarkers st)%Z →
  (0 ≤ numMissing (trk st) ≤ Z.of_nat (numSamples cfg) * numMarkers st)%Z →
  (0 ≤ numMissing (trk fin) ≤ Z.of_nat (numSamples cfg) * numMarkers fin)%Z.
Proof.
  revert st. induction fuel as [|fuel IH]; intros st H Hnm Hb.
  - simpl in H. destruct (estG st); [|done]. by injection H as <-.
  - simpl in H. destruct (estG st); [by injection H as <-|].
    bind_inv H as st' Hs. apply locusStep_numMissing in Hs as [Hn Hm].
    eapply IH; [exact H|lia|nia].
Qed.

(** X5.  At the end of a run the number of missing estimated genotypes
    is at most [numSamples * numMarkers]; so when the missing rate is
    printed, its denominator is not zero and the rate is above 0 and at
    most 1. *)
Theorem missing_rate_is_a_proportion cfg est tru hapmix fin :
  main cfg est tru hapmix = Ok fin →
  (0 ≤ numMissing (trk fin)
   ≤ Z.of_nat (numSamples cfg) * numMarkers fin)%Z
  ∧ (missingRate cfg fin = None ↔ numMissing (trk fin) = 0%Z)
  ∧ ∀ q, missingRate cfg fin = Some q → (0 < q)%Q ∧ (q <= 1)%Q.
Proof.
  unfold main. destruct (_ && _); [done|]. intros Hrun.
  apply mainLoop_numMissing in Hrun; [|done|simpl; lia].
  split; [done|]. unfold missingRate.
  destruct (Z.ltb_spec 0 (numMissing (trk fin))) as [Hpos|Hz].
  - split; [split; [done|lia]|]. intros q [= <-]. split.
    + apply ratio_pos; lia.
    + apply ratio_unit; lia.
  - split; [split; [lia|done]|done].
Qed.

Lemma main_preserves cfg (P : tracker → Prop) est tru hapmix fin :
  (∀ nm E T samp t t' next,
     samp < numSamples cfg → P t →
     sampleBody cfg nm E T samp t = Ok (t', next) → P t') →
  P (initTracker cfg hapmix) →
  main cfg est tru hapmix = Ok fin → P (trk fin).
Proof.
  intros Hturn Hinit. unfold main. destruct (_ && _); [done|].
  by apply mainLoop_preserves.
Qed.

(** X6.  At the end of a run numSwitchErrors lies between 0 and
    totalHetSites.  The switch rate has no value exactly when no
    heterozygous site was counted (the division by zero of the report);
    otherwise it lies between 0 and 1, and it is 0 exactly when no
    switch error was counted. *)
Theorem switch_rate_is_a_proportion cfg est tru hapmix fin :
  main cfg est tru hapmix = Ok fin →
  (0 ≤ numSwitchErrors (trk fin) ≤ totalHetSites (trk fin))%Z
  ∧ (switchRate fin = None ↔ totalHetSites (trk fin) = 0%Z)
  ∧ ∀ q, switchRate fin = Some q →
      (0 <= q)%Q ∧ (q <= 1)%Q
      ∧ (q == 0 ↔ numSwitchErrors (trk fin) = 0%Z)%Q.
Proof.
  intros Hrun.
  assert (Hb : (0 ≤ numSwitchErrors (trk fin) ≤ totalHetSites (trk fin))%Z).
  { eapply (main_preserves cfg
              (λ t, (0 ≤ numSwitchErrors t ≤ totalHetSites t)%Z));
      [|done|exact Hrun].
    intros nm E T samp t t' next _ Ht Hbody. simpl.
    apply sampleBody_tally in Hbody as (pac & t1 & _ & He & _).
    destruct He as [[[_ Hg] [_ Hs]]
                   |[[(x & _ & _ & Hg) [_ Hs]]
                    |[(x & _ & _ & Hg) (y & _ & _ & Hs)]]]; lia. }
  split; [done|]. unfold switchRate.
  destruct (Z.eqb_spec (totalHetSites (trk fin)) 0) as [Hz|Hnz].
  - split; [done|]. intros q [=].
  - split; [split; [done|lia]|]. intros q [= <-].
    rewrite Qred_correct.
    destruct (ratio_unit (numSwitchErrors (trk fin))
                (totalHetSites (trk fin))) as [H0 H1]; [lia|lia|].
    split; [done|]. split; [done|].
    destruct (decide (numSwitchErrors (trk fin) = 0%Z)) as [->|Hne].
    + split; [done|]. intros _. unfold Qdiv. by rewrite Qmult_0_l.
    + split; [|done]. intros Hq. exfalso.
      assert (Hp : (0 < inject_Z (numSwitchErrors (trk fin))
                        / inject_Z (totalHetSites (trk fin)))%Q)
        by (apply ratio_pos; lia).
      rewrite Hq in Hp. by apply Qlt_irrefl in Hp.
Qed.

(** ** The streams of a run that ends normally *)

Lemma readTrueAlleles_omit n2 (s : list ascii) i curHap :
  readTrueAlleles n2 s i = readEstAlleles ∅ n2 s curHap i.
Proof.
  revert i curHap. induction s as [|c s IH]; intros i curHap; [done|].
  simpl. destruct (c =c nl); [done|]. destruct (i <? n2); [|done].
  rewrite bool_decide_eq_false_2 by set_solver.
  by rewrite (IH (S i) (curHap + 1)%Z).
Qed.

Lemma readTrueAlleles_inv n2 (s : list ascii) i T g rest :
  readTrueAlleles n2 s i = Ok (T, g) →
  toEndline g = Ok rest → i ≤ n2 →
  ∃ l, s = l ++ nl :: rest ∧ (nl ∉ l) ∧ n2 ≤ i + length l.
Proof.
  rewrite (readTrueAlleles_omit n2 s i 0). intros H Hend Hi.
  destruct (readEstAlleles_inv _ _ _ _ _ _ _ _ H Hend Hi)
    as (l & -> & Hnl & Hlen).
  rewrite keptAlleles_none in Hlen. eauto.
Qed.

Lemma locusStep_inv_lines cfg st st' :
  locusStep cfg st = Ok st' →
  ∃ l tl, estG st = l ++ nl :: estG st'
          ∧ trueG st = tl ++ nl :: trueG st'
          ∧ estLineOK cfg l ∧ trueLineOK cfg tl
          ∧ numMarkers st' = (numMarkers st + 1)%Z
          ∧ compareLocus cfg (numMarkers st + 1)%Z (estArray cfg l)
              (trueArray cfg tl) (trk st) = Ok (trk st').
Proof.
  intros H. destruct (locusStep_inv _ _ _ H) as (l & Hl & Hok).
  assert (Htl : ∃ tl, trueG st = tl ++ nl :: trueG st' ∧ trueLineOK cfg tl).
  { unfold locusStep, readSite in H.
    bind_inv H as p Hp. destruct p as [[[E T] e] g].
    bind_inv Hp as e0 Hskip. bind_inv Hp as p1 Hest. destruct p1 as [E' e1].
    bind_inv Hp as p2 Htrue. destruct p2 as [T' g1].
    injection Hp as _ _ _ <-.
    bind_inv H as t' Hc. bind_inv H as e2 He. bind_inv H as g2 Hg.
    injection H as <-. simpl.
    destruct (readTrueAlleles_inv _ _ _ _ _ _ Htrue Hg)
      as (tl & -> & Hnl & Hlen); [lia|].
    exists tl. split; [done|]. split; [done|lia]. }
  destruct Htl as (tl & Htl & Htok). exists l, tl.
  destruct st as [e g nm t]. simpl in *. subst e g.
  rewrite locusStep_lines in H by done.
  bind_inv H as t' Hc. injection H as <-. by simpl.
Qed.

Lemma mainLoop_inv_lines cfg fuel st fin :
  mainLoop cfg fuel st = Ok fin →
  ∃ lines, estG st = joinLines (lines.*1)
           ∧ trueG st = joinLines (lines.*2) ++ trueG fin
           ∧ Forall (λ p, estLineOK cfg p.1 ∧ trueLineOK cfg p.2) lines
           ∧ estG fin = []
           ∧ numMarkers fin = (numMarkers st + Z.of_nat (length lines))%Z
           ∧ processLoci cfg (numMarkers st) (lociOf cfg lines) (trk st)
             = Ok (trk fin).
Proof.
  revert st. induction fuel as [|fuel IH]; intros st H; simpl in H.
  - destruct (estG st) as [|c s] eqn:He; [|done]. injection H as <-.
    exists []. simpl. split_and!; try done. lia.
  - destruct (estG st) as [|c s] eqn:He.
    { injection H as <-. exists []. simpl. split_and!; try done. lia. }
    bind_inv H as st' Hs.
    destruct (locusStep_inv_lines _ _ _ Hs)
      as (l & tl & Hl & Htl & Hok & Htok & Hnm & Hc).
    destruct (IH _ H) as (lines & Hj & Hjt & Hall & Hend & Hn & Hp).
    exists ((l, tl) :: lines). rewrite !fmap_cons, !joinLines_cons. simpl.
    rewrite <- He, Hl, Htl, Hj, Hjt, <- app_assoc. simpl.
    split_and!; try done.
    + by constructor.
    + lia.
    + rewrite Hc. simpl. by rewrite <- Hnm.
Qed.

Lemma main_inv_lines cfg est tru hapmix fin :
  main cfg est tru hapmix = Ok fin →
  (useLocalAnc cfg = true → numSamples cfg ≤ length hapmix)
  ∧ ∃ lines,
      est = joinLines (lines.*1)
      ∧ tru = joinLines (lines.*2) ++ trueG fin
      ∧ Forall (λ p, estLineOK cfg p.1 ∧ trueLineOK cfg p.2) lines
      ∧ estG fin = []
      ∧ numMarkers fin = Z.of_nat (length lines)
      ∧ processLoci cfg 0 (lociOf cfg lines) (initTracker cfg hapmix)
        = Ok (trk fin).
Proof.
  unfold main. destruct (useLocalAnc cfg) eqn:Hu; simpl.
  - destruct (Nat.ltb_spec (length hapmix) (numSamples cfg)) as [|Hge];
      [done|].
    intros Hrun. split; [done|].
    by apply mainLoop_inv_lines in Hrun.
  - intros Hrun. split; [done|]. by apply mainLoop_inv_lines in Hrun.
Qed.

(** X7.  A run of [main] ends normally exactly when the HAPMIX files of
    all samples can be opened, the estimated stream is a sequence of
    lines and the true stream starts with as many lines, each holding
    enough allele characters, and the comparison of the loci given by
    these lines in turn ends normally.  The run then ends with the
    estimated stream used up, the true stream after those lines, the
    number of the lines as numMarkers, and the tracker of that
    comparison. *)
Theorem normal_end_characterised cfg est tru hapmix fin :
  main cfg est tru hapmix = Ok fin
  ↔ (useLocalAnc cfg = true → numSamples cfg ≤ length hapmix)
    ∧ ∃ lines,
        est = joinLines (lines.*1)
        ∧ tru = joinLines (lines.*2) ++ trueG fin
        ∧ Forall (λ p, estLineOK cfg p.1 ∧ trueLineOK cfg p.2) lines
        ∧ estG fin = []
        ∧ numMarkers fin = Z.of_nat (length lines)
        ∧ processLoci cfg 0 (lociOf cfg lines) (initTracker cfg hapmix)
          = Ok (trk fin).
Proof.
  split; [apply main_inv_lines|].
  intros (Hh & lines & -> & -> & Hall & Hend & Hnm & Hp). unfold main.
  assert (useLocalAnc cfg && (length hapmix <? numSamples cfg) = false)
    as ->.
  { destruct (useLocalAnc cfg); [|done]. simpl.
    apply Nat.ltb_ge. by apply Hh. }
  unfold initState. rewrite mainLoop_lines; [|done|].
  - unfold lociOf in Hp. rewrite Hp. simpl.
    destruct fin as [e g nm t]. simpl in *. by subst.
  - rewrite <- (length_fmap fst lines) at 1. apply joinLines_length.
Qed.

Lemma countNl_app (s s' : list ascii) :
  countNl (s ++ s') = countNl s + countNl s'.
Proof. unfold countNl. by rewrite filter_app, length_app. Qed.

Lemma countNl_line (l : list ascii) : nl ∉ l → countNl l = 0.
Proof.
  intros Hnl. unfold countNl.
  induction l as [|c l IH]; [done|].
  apply not_elem_of_cons in Hnl as [Hc Hnl].
  rewrite filter_cons_False by congruence. by apply IH.
Qed.

Lemma countNl_joinLines (lines : list (list ascii)) :
  Forall (λ l, nl ∉ l) lines → countNl (joinLines lines) = length lines.
Proof.
  induction 1 as [|l lines Hl _ IH]; [done|].
  rewrite joinLines_cons, countNl_app, (countNl_line l Hl).
  change (nl :: joinLines lines) with ([nl] ++ joinLines lines).
  rewrite countNl_app, IH. reflexivity.
Qed.

Lemma last_joinLines (lines : list (list ascii)) c :
  last (joinLines lines) = Some c → c = nl.
Proof.
  induction lines as [|l lines IH] using rev_ind; [done|].
  unfold joinLines. rewrite map_app, concat_app. simpl.
  rewrite app_nil_r, app_assoc, last_snoc. by intros [= <-].
Qed.

(** X8.  A run ends normally only on an estimated stream that is empty
    or ends with a newline; numMarkers is then the number of newlines
    of the estimated stream, and the true stream holds at least as many
    newlines. *)
Theorem normal_end_needs_whole_lines cfg est tru hapmix fin :
  main cfg est tru hapmix = Ok fin →
  (∀ c, last est = Some c → c = nl)
  ∧ numMarkers fin = Z.of_nat (countNl est)
  ∧ countNl est ≤ countNl tru.
Proof.
  intros H. apply main_inv_lines in H
    as (_ & lines & -> & -> & Hall & _ & Hnm & _).
  split; [apply last_joinLines|].
  assert (H1 : Forall (λ l : list ascii, nl ∉ l) (lines.*1)).
  { apply Forall_fmap. eapply Forall_impl; [exact Hall|].
    by intros p [[? _] _]. }
  assert (H2 : Forall (λ l : list ascii, nl ∉ l) (lines.*2)).
  { apply Forall_fmap. eapply Forall_impl; [exact Hall|].
    by intros p [_ [? _]]. }
  rewrite countNl_app, !countNl_joinLines, !length_fmap by done.
  split; [done|lia].
Qed.

(** ** Inputs that end a run early *)


(** X10.  When the true stream is at its end, a turn of the per-locus
    loop does not end normally; with at least one sample and without
    local ancestry, the characters stored for the missing line fail the
    assertion on the true alleles. *)
Theorem true_stream_at_its_end_fails_the_locus cfg l rest nm t :
  estLineOK cfg l →
  (∀ st', locusStep cfg (State (l ++ nl :: rest) [] nm t) ≠ Ok st')
  ∧ (0 < numSamples cfg → useLocalAnc cfg = false →
     locusStep cfg (State (l ++ nl :: rest) [] nm t) = AssertFail).
Proof.
  intros Hok. split.
  - intros st' H. apply locusStep_inv_lines in H as (_ & tl & _ & H & _).
    simpl in H. by destruct tl.
  - intros Hn Hu. rewrite locusStep_est_line by done.
    destruct Hok as (_ & _ & _ & Hlen).
    assert (HE : length (estArray cfg l) = 2 * numSamples cfg).
    { unfold estArray. rewrite length_take. lia. }
    unfold readTrueAlleles.
    destruct (Nat.ltb_spec 0 (2 * numSamples cfg)); [|lia].
    cbn [mbind outcome_mbind outcome_bind].
    unfold compareLocus.
    destruct (numSamples cfg) as [|n] eqn:Hnum; [lia|].
    rewrite sampLoop_step by lia.
    destruct (lookup_lt_is_Some_2 (estArray cfg l) 0) as [e0 He0]; [lia|].
    destruct (lookup_lt_is_Some_2 (estArray cfg l) 1) as [e1 He1]; [lia|].
    unfold sampleBody, localAncStep. rewrite Hu.
    cbn [mbind outcome_mbind outcome_bind].
    change (0 * 2) with 0. rewrite (arr_lookup _ _ _ He0).
    cbn [mbind outcome_mbind outcome_bind].
    replace (2 * S n - 0) with (S (S (2 * n))) by lia. reflexivity.
Qed.

(** ** Missing truth *)

Lemma set_warn_same (t : tracker) :
  set_oneHapTruthWarn (oneHapTruthWarn t) t = t.
Proof. by destruct t. Qed.

Lemma sampleBody_truth_missing cfg nm (E T : list ascii) samp t pac t1
    e0 e1 x0 x1 :
  localAncStep cfg samp t = Ok (pac, t1) →
  allelesOf E samp e0 e1 → allelesOf T samp x0 x1 →
  isTrueCode x0 = true → isTrueCode x1 = true →
  x0 = c9 ∨ x1 = c9 →
  sampleBody cfg nm E T samp t
  = Ok (set_oneHapTruthWarn
          (oneHapTruthWarn t || negb ((x0 =c c9) && (x1 =c c9))) t1,
        S samp).
Proof.
  intros Hanc [He0 He1] [Hx0 Hx1] Hc0 Hc1 Hm.
  pose proof (localAncStep_frame _ _ _ _ _ Hanc)
    as (_ & _ & _ & _ & _ & _ & _ & _ & Hw & _).
  unfold sampleBody. rewrite Hanc.
  cbn [mbind outcome_mbind outcome_bind].
  rewrite (arr_lookup _ _ _ He0), (arr_lookup _ _ _ Hx0).
  cbn [mbind outcome_mbind outcome_bind]. rewrite Hc0.
  cbn [assert mbind outcome_mbind outcome_bind].
  rewrite (arr_lookup _ _ _ He1), (arr_lookup _ _ _ Hx1).
  cbn [mbind outcome_mbind outcome_bind]. rewrite Hc1.
  cbn [assert mbind outcome_mbind outcome_bind].
  assert ((x0 =c c9) || (x1 =c c9) = true) as ->.
  { destruct Hm as [->| ->]; [done|]. by rewrite orb_true_r. }
  rewrite <- Hw. f_equal. f_equal.
  destruct (oneHapTruthWarn t1) eqn:Hw1; simpl.
  - by rewrite <- Hw1, set_warn_same.
  - destruct (x0 =c c9), (x1 =c c9); simpl; try done;
      by rewrite <- Hw1, set_warn_same.
Qed.

Lemma sampLoop_truth_missing cfg nm (E T : list ascii) :
  useLocalAnc cfg = false → 2 * numSamples cfg ≤ length E →
  (∀ s, s < numSamples cfg → truthMissing T s) →
  ∀ fuel samp t, numSamples cfg - samp ≤ fuel →
    ∃ w, sampLoop cfg nm E T fuel samp t = Ok (set_oneHapTruthWarn w t)
         ∧ (oneHapTruthWarn t = true → w = true).
Proof.
  intros Hu HE Hall. induction fuel as [|fuel IH]; intros samp t Hf.
  - rewrite sampLoop_done by lia. exists (oneHapTruthWarn t).
    by rewrite set_warn_same.
  - destruct (decide (samp < numSamples cfg)) as [Hlt|Hge].
    2:{ rewrite sampLoop_done by lia. exists (oneHapTruthWarn t).
        by rewrite set_warn_same. }
    rewrite sampLoop_step by done.
    destruct (Hall samp Hlt) as (x0 & x1 & HT & Hc0 & Hc1 & Hm).
    destruct (lookup_lt_is_Some_2 E (samp * 2)) as [e0 He0]; [lia|].
    destruct (lookup_lt_is_Some_2 E (samp * 2 + 1)) as [e1 He1]; [lia|].
    rewrite (sampleBody_truth_missing cfg nm E T samp t (-1)%Z t e0 e1 x0 x1);
      try done.
    2:{ unfold localAncStep. by rewrite Hu. }
    cbn [mbind outcome_mbind outcome_bind].
    destruct (IH (S samp) (set_oneHapTruthWarn
                (oneHapTruthWarn t || negb ((x0 =c c9) && (x1 =c c9))) t))
      as (w & -> & Hw); [lia|].
    exists w. split; [by destruct t|].
    intros Ht. apply Hw. destruct t; simpl in *. by rewrite Ht.
Qed.

(** X11.  A sample whose true genotype is missing on a haplotype is
    skipped before its estimated genotype is looked at: whatever the
    estimated alleles are, the turn ends normally, the loop index
    advances by one, and only the flag of the warning can change; it is
    set when exactly one of the two true alleles is missing.  Without
    local ancestry, a locus at which the truth of every sample is
    missing leaves the tracker as it is, up to that flag. *)
Theorem missing_truth_skips_the_sample cfg nm (E T : list ascii) :
  (∀ samp t pac t1 e0 e1 x0 x1,
     localAncStep cfg samp t = Ok (pac, t1) →
     allelesOf E samp e0 e1 → allelesOf T samp x0 x1 →
     isTrueCode x0 = true → isTrueCode x1 = true →
     x0 = c9 ∨ x1 = c9 →
     sampleBody cfg nm E T samp t
     = Ok (set_oneHapTruthWarn
             (oneHapTruthWarn t || negb ((x0 =c c9) && (x1 =c c9))) t1,
           S samp))
  ∧ (useLocalAnc cfg = false → 2 * numSamples cfg ≤ length E →
     (∀ s, s < numSamples cfg → truthMissing T s) →
     ∀ t, ∃ w, compareLocus cfg nm E T t = Ok (set_oneHapTruthWarn w t)
               ∧ (oneHapTruthWarn t = true → w = true)).
Proof.
  split.
  - intros. by eapply sampleBody_truth_missing.
  - intros Hu HE Hall t. unfold compareLocus.
    apply sampLoop_truth_missing; try done. lia.
Qed.

(** ** Genotypes that a run accepts *)

Lemma setOrientation_agree samp e0 e1 x0 x1 t t' :
  setOrientation samp e0 e1 x0 x1 t = Ok t' →
  (e0 = x0 ∧ e1 = x1) ∨ (e0 = x1 ∧ e1 = x0).
Proof.
  unfold setOrientation. destruct (Ascii.eqb_spec x0 x1) as [->|Hne].
  - intros H. bind_inv H as u Hu.
    apply assert_Ok, andb_true_iff in Hu as [->%Ascii.eqb_eq ->%Ascii.eqb_eq].
    by left.
  - destruct (Ascii.eqb_spec e0 x0) as [->|Hne0].
    + intros H. bind_inv H as u Hu. apply assert_Ok, Ascii.eqb_eq in Hu.
      by left.
    + intros H. bind_inv H as u Hu.
      apply assert_Ok, andb_true_iff in Hu as [->%Ascii.eqb_eq ->%Ascii.eqb_eq].
      by right.
Qed.

Lemma arrZ_pair (e0 e1 : ascii) (h : Z) (a b : ascii) :
  arrZ [e0; e1] h = Ok a → arrZ [e0; e1] (1 - h)%Z = Ok b →
  (h = 0%Z ∧ a = e0 ∧ b = e1) ∨ (h = 1%Z ∧ a = e1 ∧ b = e0).
Proof.
  intros Ha Hb.
  apply arrZ_Ok in Ha as [H0 Ha]. apply arrZ_Ok in Hb as [H1 Hb].
  assert (h = 0 ∨ h = 1)%Z as [-> | ->] by lia.
  - left. simpl in *. by simplify_eq.
  - right. simpl in *. by simplify_eq.
Qed.

Lemma checkSwitch_agree cfg nm pac samp h e0 e1 x0 x1 t t' :
  checkSwitch cfg nm pac samp h e0 e1 x0 x1 t = Ok t' →
  (e0 = x0 ∧ e1 = x1) ∨ (e0 = x1 ∧ e1 = x0).
Proof.
  unfold checkSwitch. intros H.
  bind_inv H as tm Htm. bind_inv H as a Ha. bind_inv H as b Hb.
  destruct (arrZ_pair _ _ _ _ _ Ha Hb) as [(-> & -> & ->)|(-> & -> & ->)].
  - destruct (Ascii.eqb_spec e0 x0) as [->|Hne].
    + bind_inv H as u Hu. apply assert_Ok, Ascii.eqb_eq in Hu. by left.
    + bind_inv H as u Hu.
      apply assert_Ok, andb_true_iff in Hu as [->%Ascii.eqb_eq ->%Ascii.eqb_eq].
      by right.
  - destruct (Ascii.eqb_spec e1 x0) as [->|Hne].
    + bind_inv H as u Hu. apply assert_Ok, Ascii.eqb_eq in Hu. by right.
    + bind_inv H as u Hu.
      apply assert_Ok, andb_true_iff in Hu as [->%Ascii.eqb_eq ->%Ascii.eqb_eq].
      by left.
Qed.

Lemma afterTrio_agree cfg nm pac samp e0 e1 x0 x1 t t' :
  afterTrio cfg nm pac samp e0 e1 x0 x1 t = Ok t' →
  (e0 = cQ ∧ e1 = cQ) ∨ (e0 = x0 ∧ e1 = x1) ∨ (e0 = x1 ∧ e1 = x0).
Proof.
  unfold afterTrio, phaseTrack. destruct (_ || _) eqn:Hq.
  - intros H. bind_inv H as u Hu. apply assert_Ok, Ascii.eqb_eq in Hu.
    subst e1. rewrite orb_diag in Hq. apply Ascii.eqb_eq in Hq. by left.
  - intros H. bind_inv H as h Hh. right. destruct (h =? -1)%Z.
    + by eapply setOrientation_agree.
    + by eapply checkSwitch_agree.
Qed.

Lemma sampleBody_agree cfg nm (E T : list ascii) samp t t' next :
  sampleBody cfg nm E T samp t = Ok (t', next) →
  siteOK E T samp ∨ trioFlagged cfg T samp.
Proof.
  unfold sampleBody. intros H.
  bind_inv H as r Hanc. destruct r as [pac t1].
  bind_inv H as e0 He0. bind_inv H as x0 Hx0. bind_inv H as u0 Hc0.
  bind_inv H as e1 He1. bind_inv H as x1 Hx1. bind_inv H as u1 Hc1.
  apply arr_Ok in He0, Hx0, He1, Hx1. apply assert_Ok in Hc0, Hc1.
  destruct (_ || _) eqn:Hm.
  { left. exists e0, e1, x0, x1. split_and!; try done.
    apply orb_true_iff in Hm as [->%Ascii.eqb_eq| ->%Ascii.eqb_eq]; auto. }
  bind_inv H as u2 Hm2. bind_inv H as amb Htrio. destruct amb.
  { right. by exists x0, x1. }
  bind_inv H as t2 Hafter. left. exists e0, e1, x0, x1.
  split_and!; try done. apply afterTrio_agree in Hafter. tauto.
Qed.

Lemma sampLoop_all_turns cfg nm E T (Q : nat → Prop) :
  trioParentsInSuccession cfg = false →
  (∀ s t t' next, sampleBody cfg nm E T s t = Ok (t', next) → Q s) →
  ∀ fuel samp t t', sampLoop cfg nm E T fuel samp t = Ok t' →
    ∀ s, samp ≤ s < numSamples cfg → Q s.
Proof.
  intros Hs HQ. induction fuel as [|fuel IH]; intros samp t t' H s Hr.
  - simpl in H. destruct (Nat.ltb_spec samp (numSamples cfg)); [done|lia].
  - rewrite sampLoop_step in H by lia.
    bind_inv H as r Hb. destruct r as [t1 next].
    destruct (decide (s = samp)) as [->|Hne]; [by eapply HQ|].
    apply sampleBody_next in Hb as [->|[_ Hs']]; [|congruence].
    eapply IH; [exact H|lia].
Qed.

Lemma processLoci_all cfg (Q : list ascii → list ascii → Prop) :
  (∀ nm E T t t', compareLocus cfg nm E T t = Ok t' → Q E T) →
  ∀ loci nm t t', processLoci cfg nm loci t = Ok t' →
    Forall (λ p, Q p.1 p.2) loci.
Proof.
  intros HQ. induction loci as [|[E T] loci IH]; intros nm t t' H;
    [done|].
  simpl in H. bind_inv H as t1 Hc. constructor; [by eapply HQ|by eapply IH].
Qed.

Lemma trioCheck_off cfg T s x0 x1 :
  trioParentsInSuccession cfg = false → otherParentIdx cfg = None →
  trioCheck cfg T s x0 x1 = Ok false.
Proof.
  intros Hs Hn. unfold trioCheck, trioApplies. rewrite Hs, Hn.
  rewrite bool_decide_eq_false_2; [done|]. intros H. by apply H.
Qed.

(** X12.  A turn of the per-sample loop ends normally only at a site
    with consistent genotypes (valid true alleles and, unless one of
    them is missing, an estimated genotype that is missing on both
    haplotypes or equal to the true one in one of the two orders) or at
    a site flagged by the trio check.  So without the trio options a
    run ends normally only when the two streams are made of lines with
    enough characters whose genotypes are consistent for every
    sample. *)
Theorem normal_end_means_consistent_genotypes cfg :
  (∀ nm (E T : list ascii) samp t t' next,
     sampleBody cfg nm E T samp t = Ok (t', next) →
     siteOK E T samp ∨ trioFlagged cfg T samp)
  ∧ (trioParentsInSuccession cfg = false →
     ∀ nm (E T : list ascii) t t',
       compareLocus cfg nm E T t = Ok t' →
       ∀ s, s < numSamples cfg → siteOK E T s ∨ trioFlagged cfg T s)
  ∧ (trioParentsInSuccession cfg = false → otherParentIdx cfg = None →
     ∀ est tru hapmix fin,
       main cfg est tru hapmix = Ok fin →
       ∃ lines, est = joinLines (lines.*1)
                ∧ tru = joinLines (lines.*2) ++ trueG fin
                ∧ Forall (linesOK cfg) lines).
Proof.
  assert (Hlocus : trioParentsInSuccession cfg = false →
     ∀ nm (E T : list ascii) t t',
       compareLocus cfg nm E T t = Ok t' →
       ∀ s, s < numSamples cfg → siteOK E T s ∨ trioFlagged cfg T s).
  { intros Hs nm E T t t' H s Hlt.
    eapply (sampLoop_all_turns cfg nm E T
              (λ s, siteOK E T s ∨ trioFlagged cfg T s) Hs);
      [|exact H|lia].
    intros. by eapply sampleBody_agree. }
  split; [|split; [done|]].
  - intros. by eapply sampleBody_agree.
  - intros Hs Hn est tru hapmix fin H.
    apply main_inv_lines in H as (_ & lines & -> & -> & Hall & _ & _ & Hp).
    exists lines. split; [done|]. split; [done|].
    apply (processLoci_all cfg
             (λ E T, ∀ s, s < numSamples cfg → siteOK E T s)) in Hp.
    + unfold lociOf in Hp. rewrite Forall_map in Hp.
      rewrite Forall_forall in Hall, Hp. apply Forall_forall.
      intros p Hin. destruct (Hall p Hin) as [? ?].
      split; [done|]. split; [done|]. by apply Hp.
    + intros nm E T t t' Hc s Hlt.
      destruct (Hlocus Hs nm E T t t' Hc s Hlt)
        as [?|(x0 & x1 & _ & Hf)]; [done|].
      by rewrite trioCheck_off in Hf.
Qed.

(** ** The records of verbose mode *)

Lemma sumZ_app (l k : list Z) : sumZ (l ++ k) = (sumZ l + sumZ k)%Z.
Proof.
  induction l as [|x l IH]; [done|].
  change ((x :: l) ++ k) with (x :: (l ++ k)). rewrite !sumZ_cons, IH. lia.
Qed.

Lemma blockSum_cons s a n l d log :
  blockSum s ((a, n, l, d) :: log)
  = ((if (a =? Z.of_nat s)%Z then d else 0) + blockSum s log)%Z.
Proof. unfold blockSum. by rewrite fmap_cons, sumZ_cons. Qed.

Lemma blockCount_cons s a n l d log :
  blockCount s ((a, n, l, d) :: log)
  = ((if (a =? Z.of_nat s)%Z then 1 else 0) + blockCount s log)%Z.
Proof. unfold blockCount. by rewrite fmap_cons, sumZ_cons. Qed.

Lemma blockSum_app s log log' :
  blockSum s (log ++ log') = (blockSum s log + blockSum s log')%Z.
Proof. unfold blockSum. by rewrite fmap_app, sumZ_app. Qed.

Lemma blockCount_app s log log' :
  blockCount s (log ++ log') = (blockCount s log + blockCount s log')%Z.
Proof. unfold blockCount. by rewrite fmap_app, sumZ_app. Qed.

(** The effect of a turn on the log and on the arrays it is made
    from. *)
Lemma recordSwitch_log cfg nm pac samp h t t' :
  recordSwitch cfg nm pac samp h t = Ok t' →
  ∃ p k, prevSwitchError t !! samp = Some p
         ∧ indivNumSwitches t !! samp = Some k
         ∧ blockLog t'
           = (if verbose cfg
              then blockLog t
                   ++ [(Z.of_nat samp, k, nm - 1, nm - 1 - p)%Z]
              else blockLog t)
         ∧ prevSwitchError t' = <[samp := (nm - 1)%Z]> (prevSwitchError t)
         ∧ indivNumSwitches t'
           = <[samp := (k + 1)%Z]> (indivNumSwitches t).
Proof.
  unfold recordSwitch. intros H.
  bind_inv H as b Hb. bind_inv H as t2 Ht2.
  bind_inv H as p' Hp. bind_inv H as n' Hn. injection H as <-.
  apply store_Ok in Hp as [Hlt ->].
  apply incrAt_Ok in Hn as (k & Hk & ->).
  destruct (verbose cfg).
  - bind_inv Ht2 as p Hp. bind_inv Ht2 as k' Hk'. injection Ht2 as <-.
    apply arr_Ok in Hp, Hk'. destruct t; simpl in *.
    exists p, k. rewrite Hk in Hk'. injection Hk' as <-. done.
  - injection Ht2 as <-.
    destruct (lookup_lt_is_Some_2 _ _ Hlt) as [p Hp].
    destruct t; simpl in *. exists p, k. done.
Qed.

Lemma countHetSite_log pac x0 x1 t t' :
  countHetSite pac x0 x1 t = Ok t' →
  blockLog t' = blockLog t ∧ prevSwitchError t' = prevSwitchError t
  ∧ indivNumSwitches t' = indivNumSwitches t.
Proof.
  unfold countHetSite. destruct (x0 ≠c x1).
  - intros H. bind_inv H as b Hb. injection H as <-. by destruct t.
  - by intros [= <-].
Qed.

Lemma sampleBody_log cfg nm E T samp t t' next :
  sampleBody cfg nm E T samp t = Ok (t', next) →
  (blockLog t' = blockLog t ∧ prevSwitchError t' = prevSwitchError t
   ∧ indivNumSwitches t' = indivNumSwitches t)
  ∨ ∃ p k, prevSwitchError t !! samp = Some p
           ∧ indivNumSwitches t !! samp = Some k
           ∧ blockLog t'
             = (if verbose cfg
                then blockLog t
                     ++ [(Z.of_nat samp, k, nm - 1, nm - 1 - p)%Z]
                else blockLog t)
           ∧ prevSwitchError t' = <[samp := (nm - 1)%Z]> (prevSwitchError t)
           ∧ indivNumSwitches t'
             = <[samp := (k + 1)%Z]> (indivNumSwitches t).
Proof.
  unfold sampleBody. intros H.
  bind_inv H as r Hanc. destruct r as [pac t1].
  apply localAncStep_frame in Hanc
    as (_ & Hp & Hi & _ & _ & _ & _ & _ & _ & Hl).
  rewrite <- Hp, <- Hi, <- Hl.
  bind_inv H as e0 He0. bind_inv H as x0 Hx0. bind_inv H as u0 Hc0.
  bind_inv H as e1 He1. bind_inv H as x1 Hx1. bind_inv H as u1 Hc1.
  destruct (_ || _).
  { injection H as <- _. left. destruct (_ && _); [by destruct t1|done]. }
  bind_inv H as u2 Hm2. bind_inv H as amb Htrio. destruct amb.
  { injection H as <- _. by left. }
  bind_inv H as t2 Hafter. injection H as <- _.
  unfold afterTrio, phaseTrack in Hafter. destruct (_ || _).
  { bind_inv Hafter as u Hu. injection Hafter as <-. left. by destruct t1. }
  bind_inv Hafter as h Hh. destruct (h =? -1)%Z.
  { apply setOrientation_Ok in Hafter as [[_ ->]|(_ & v & _ & ->)];
      left; [done|by destruct t1]. }
  unfold checkSwitch in Hafter. bind_inv Hafter as tm Htm.
  apply countHetSite_log in Htm as (Hl' & Hp' & Hi').
  rewrite <- Hl', <- Hp', <- Hi'.
  bind_inv Hafter as a Ha. bind_inv Hafter as b Hb.
  destruct (a =c x0).
  - bind_inv Hafter as u Hu. injection Hafter as <-. by left.
  - bind_inv Hafter as u Hu. right. by eapply recordSwitch_log.
Qed.

Lemma logOK_step cfg nm E T samp t t' next :
  verbose cfg = true → samp < numSamples cfg → logOK cfg t →
  sampleBody cfg nm E T samp t = Ok (t', next) → logOK cfg t'.
Proof.
  intros Hv Hlt (Lp & Li & Hall) Hb.
  apply sampleBody_log in Hb
    as [(Hl & Hp & Hi)|(p & k & Hps & Hks & Hl & Hp & Hi)].
  { unfold logOK. by rewrite Hl, Hp, Hi. }
  rewrite Hv in Hl. unfold logOK.
  rewrite Hl, Hp, Hi, !length_insert. split; [done|]. split; [done|].
  intros s Hs. destruct (Hall s Hs) as (p0 & k0 & Hp0 & Hk0 & Hsum & Hcnt).
  rewrite blockSum_app, blockCount_app, blockSum_cons, blockCount_cons.
  unfold blockSum at 2, blockCount at 2. simpl.
  destruct (decide (s = samp)) as [->|Hne].
  - rewrite Z.eqb_refl, !list_lookup_insert_eq by lia.
    exists (nm - 1)%Z, (k + 1)%Z. split_and!; try done.
    + rewrite Hsum. replace p0 with p by congruence. unfold sumZ. simpl. lia.
    + rewrite Hcnt. replace k0 with k by congruence. unfold sumZ. simpl. lia.
  - rewrite !list_lookup_insert_ne by done.
    destruct (Z.eqb_spec (Z.of_nat samp) (Z.of_nat s)); [lia|].
    exists p0, k0. split_and!; try done; unfold sumZ; simpl; lia.
Qed.

Lemma lastBlocks_from cfg st :
  length (prevSwitchError (trk st)) = numSamples cfg →
  length (indivNumSwitches (trk st)) = numSamples cfg →
  ∀ m a, a + m ≤ numSamples cfg →
    ∃ last,
      mapM (λ samp,
              p ← arr (prevSwitchError (trk st)) samp;
              n ← arr (indivNumSwitches (trk st)) samp;
              Ok (Z.of_nat samp, n, numMarkers st - 1,
                  numMarkers st - 1 - p)%Z) (seq a m) = Ok last
      ∧ ∀ s p, prevSwitchError (trk st) !! s = Some p →
          (a ≤ s < a + m →
           blockSum s last = (numMarkers st - 1 - p)%Z
           ∧ blockCount s last = 1%Z)
          ∧ (s < a → blockSum s last = 0%Z ∧ blockCount s last = 0%Z).
Proof.
  intros Lp Li. induction m as [|m IH]; intros a Ha.
  - exists []. split; [done|]. intros s p _. split; [lia|done].
  - destruct (lookup_lt_is_Some_2 (prevSwitchError (trk st)) a)
      as [pa Hpa]; [lia|].
    destruct (lookup_lt_is_Some_2 (indivNumSwitches (trk st)) a)
      as [ka Hka]; [lia|].
    destruct (IH (S a)) as (last & Hlast & Hall); [lia|].
    exists ((Z.of_nat a, ka, numMarkers st - 1, numMarkers st - 1 - pa)%Z
            :: last).
    split.
    + simpl. rewrite (arr_lookup _ _ _ Hpa). simpl.
      rewrite (arr_lookup _ _ _ Hka). simpl.
      simpl in Hlast. by rewrite Hlast.
    + intros s p Hp. rewrite blockSum_cons, blockCount_cons.
      destruct (Hall s p Hp) as [Hin Hout].
      destruct (Z.eqb_spec (Z.of_nat a) (Z.of_nat s)) as [Heq|Hne].
      * assert (s = a) as -> by lia. destruct Hout as [-> ->]; [lia|].
        replace p with pa by congruence. split; [|lia]. intros _. lia.
      * split.
        -- intros Hs. destruct Hin as [-> ->]; [lia|]. lia.
        -- intros Hs. destruct Hout as [-> ->]; [lia|]. lia.
Qed.

(** X13.  In verbose mode a run that ends normally has written, for
    every sample, one record for each of its switch errors and one last
    record; the block lengths of these records add up to the index of
    the last locus, [numMarkers - 1]. *)
Theorem verbose_blocks_add_up_to_the_last_locus cfg est tru hapmix fin :
  verbose cfg = true →
  main cfg est tru hapmix = Ok fin →
  ∃ last, lastBlocks cfg fin = Ok last
    ∧ ∀ s, s < numSamples cfg →
        blockSum s (blockLog (trk fin) ++ last) = (numMarkers fin - 1)%Z
        ∧ ∃ k, indivNumSwitches (trk fin) !! s = Some k
               ∧ blockCount s (blockLog (trk fin) ++ last) = (k + 1)%Z.
Proof.
  intros Hv Hrun.
  assert (Hlog : logOK cfg (trk fin)).
  { eapply (main_preserves cfg (logOK cfg)); [| |exact Hrun].
    - intros nm E T samp t t' next Hlt Hok Hb. by eapply logOK_step.
    - unfold logOK. simpl. rewrite !length_replicate.
      split; [done|]. split; [done|]. intros s Hs. exists 0%Z, 0%Z.
      split_and!; try done; by apply lookup_replicate_2. }
  destruct Hlog as (Lp & Li & Hall).
  destruct (lastBlocks_from cfg fin Lp Li (numSamples cfg) 0)
    as (last & Hlast & Hsum); [lia|].
  exists last. split; [unfold lastBlocks; by rewrite Hv|].
  intros s Hs. destruct (Hall s Hs) as (p & k & Hp & Hk & Hbs & Hbc).
  destruct (Hsum s p Hp) as [[Hs1 Hs2] _]; [lia|].
  rewrite blockSum_app, blockCount_app, Hbs, Hbc, Hs1, Hs2.
  split; [lia|]. exists k. done.
Qed.

(** ** Verbose mode does not change the counts *)

Lemma store_arr {A : Type} (l : list A) i v :
  store l i v = (x ← arr l i; Ok (<[i := v]> l)).
Proof.
  unfold store, arr. destruct (Nat.ltb_spec i (length l)) as [Hlt|Hge].
  - by destruct (lookup_lt_is_Some_2 _ _ Hlt) as [x ->].
  - by rewrite (lookup_ge_None_2 _ _ Hge).
Qed.

Lemma localAncStep_erase c samp t :
  outcome_map (λ '(p, t'), (p, eraseLog t')) (localAncStep c samp t)
  = localAncStep (setVerbose false c) samp (eraseLog t).
Proof.
  destruct t. unfold localAncStep, eraseLog. simpl.
  destruct (useLocalAnc c); [|done].
  destruct (arr hapmixFiles0 samp) as [f| | | | |]; try done. simpl.
  destruct (getLocalAnc f) as [[cur f']| | | | |]; try done. simpl.
  by destruct (arr prevLocalAnc0 samp).
Qed.

Lemma setOrientation_erase samp e0 e1 x0 x1 t :
  outcome_map eraseLog (setOrientation samp e0 e1 x0 x1 t)
  = setOrientation samp e0 e1 x0 x1 (eraseLog t).
Proof.
  destruct t. unfold setOrientation, eraseLog. simpl.
  destruct (x0 =c x1).
  - by destruct (_ && _).
  - destruct (e0 =c x0).
    + by destruct (e1 =c x1).
    + by destruct (_ && _).
Qed.

Lemma countHetSite_erase pac x0 x1 t :
  outcome_map eraseLog (countHetSite pac x0 x1 t)
  = countHetSite pac x0 x1 (eraseLog t).
Proof.
  destruct t. unfold countHetSite, eraseLog, incrAt. simpl.
  destruct (x0 ≠c x1); [|done].
  by destruct (arr totalAncClassHetSites0 (ancBucket pac)).
Qed.

Lemma recordSwitch_erase c nm pac samp h t :
  outcome_map eraseLog (recordSwitch c nm pac samp h t)
  = recordSwitch (setVerbose false c) nm pac samp h (eraseLog t).
Proof.
  destruct t. unfold recordSwitch, eraseLog, incrAt. simpl.
  destruct (arr numAncClassSwitchErrors0 (ancBucket pac)); try done. simpl.
  rewrite (store_arr prevSwitchError0).
  destruct (verbose c); simpl.
  - destruct (arr prevSwitchError0 samp) eqn:Hp; try done; simpl.
    destruct (arr indivNumSwitches0 samp) eqn:Hi; try done; simpl.
    rewrite ?store_arr, ?Hp. simpl. by rewrite ?Hi.
  - rewrite ?store_arr.
    destruct (arr prevSwitchError0 samp); try done. simpl.
    by destruct (arr indivNumSwitches0 samp).
Qed.

Lemma checkSwitch_erase c nm pac samp h e0 e1 x0 x1 t :
  outcome_map eraseLog (checkSwitch c nm pac samp h e0 e1 x0 x1 t)
  = checkSwitch (setVerbose false c) nm pac samp h e0 e1 x0 x1 (eraseLog t).
Proof.
  unfold checkSwitch. rewrite <- countHetSite_erase.
  destruct (countHetSite pac x0 x1 t) as [tm| | | | |]; try done. simpl.
  destruct (arrZ [e0; e1] h) as [a| | | | |]; try done. simpl.
  destruct (arrZ [e0; e1] (1 - h)) as [b| | | | |]; try done. simpl.
  destruct (a =c x0).
  - by destruct (b =c x1).
  - destruct (_ && _); [|done]. simpl. apply recordSwitch_erase.
Qed.

Lemma afterTrio_erase c nm pac samp e0 e1 x0 x1 t :
  outcome_map eraseLog (afterTrio c nm pac samp e0 e1 x0 x1 t)
  = afterTrio (setVerbose false c) nm pac samp e0 e1 x0 x1 (eraseLog t).
Proof.
  unfold afterTrio, phaseTrack. destruct (_ || _).
  - destruct (e0 =c e1); [|done]. by destruct t.
  - assert (homologsInverted (eraseLog t) = homologsInverted t) as ->
      by by destruct t.
    destruct (arr (homologsInverted t) samp) as [h| | | | |]; try done.
    simpl. destruct (h =? -1)%Z.
    + apply setOrientation_erase.
    + apply checkSwitch_erase.
Qed.

Lemma sampleBody_erase c nm E T samp t :
  outcome_map (λ '(t', next), (eraseLog t', next))
    (sampleBody c nm E T samp t)
  = sampleBody (setVerbose false c) nm E T samp (eraseLog t).
Proof.
  unfold sampleBody. rewrite <- localAncStep_erase.
  destruct (localAncStep c samp t) as [[pac t1]| | | | |]; try done. simpl.
  destruct (arr E (samp * 2)) as [e0| | | | |]; try done. simpl.
  destruct (arr T (samp * 2)) as [x0| | | | |]; try done. simpl.
  destruct (isTrueCode x0); [|done]. simpl.
  destruct (arr E (samp * 2 + 1)) as [e1| | | | |]; try done. simpl.
  destruct (arr T (samp * 2 + 1)) as [x1| | | | |]; try done. simpl.
  destruct (isTrueCode x1); [|done]. simpl.
  assert (oneHapTruthWarn (eraseLog t1) = oneHapTruthWarn t1) as ->
    by by destruct t1.
  destruct (_ || _).
  { destruct (_ && _); [|done]. by destruct t1. }
  destruct (_ && _); [|done]. simpl.
  change (trioCheck (setVerbose false c)) with (trioCheck c).
  destruct (trioCheck c T samp x0 x1) as [amb| | | | |]; try done. simpl.
  destruct amb; [done|].
  rewrite <- afterTrio_erase.
  by destruct (afterTrio c nm pac samp e0 e1 x0 x1 t1).
Qed.

Lemma sampLoop_erase c nm E T fuel samp t :
  outcome_map eraseLog (sampLoop c nm E T fuel samp t)
  = sampLoop (setVerbose false c) nm E T fuel samp (eraseLog t).
Proof.
  revert samp t. induction fuel as [|fuel IH]; intros samp t; simpl.
  - by destruct (samp <? numSamples c).
  - destruct (samp <? numSamples c); [|done].
    rewrite <- sampleBody_erase.
    destruct (sampleBody c nm E T samp t) as [[t1 next]| | | | |]; try done.
    simpl. apply IH.
Qed.

Lemma locusStep_erase c st :
  outcome_map eraseLogState (locusStep c st)
  = locusStep (setVerbose false c) (eraseLogState st).
Proof.
  unfold locusStep. simpl.
  change (readSite (setVerbose false c)) with (readSite c).
  destruct (readSite c (estG st) (trueG st)) as [[[[E T] e] g]| | | | |];
    try done.
  simpl. unfold compareLocus. rewrite <- sampLoop_erase.
  change (numSamples (setVerbose false c)) with (numSamples c).
  destruct (sampLoop c (numMarkers st + 1) E T (numSamples c) 0 (trk st));
    try done.
  simpl. destruct (toEndline e); try done. simpl.
  by destruct (toEndline g).
Qed.

Lemma mainLoop_erase c fuel st :
  outcome_map eraseLogState (mainLoop c fuel st)
  = mainLoop (setVerbose false c) fuel (eraseLogState st).
Proof.
  revert st. induction fuel as [|fuel IH]; intros st; simpl.
  - by destruct (estG st).
  - destruct (estG st); [done|]. rewrite <- locusStep_erase.
    destruct (locusStep c st); try done. simpl. apply IH.
Qed.

Lemma main_erase c est tru hapmix :
  outcome_map eraseLogState (main c est tru hapmix)
  = main (setVerbose false c) est tru hapmix.
Proof.
  unfold main. simpl. destruct (_ && _); [done|].
  by rewrite mainLoop_erase.
Qed.

Lemma blockLog_quiet c nm E T samp t t' next :
  verbose c = false → sampleBody c nm E T samp t = Ok (t', next) →
  blockLog t' = blockLog t.
Proof.
  intros Hv Hb.
  apply sampleBody_log in Hb as [(Hl & _)|(p & k & _ & _ & Hl & _)];
    [done|]. by rewrite Hv in Hl.
Qed.

(** X14.  Verbose mode only adds records to the log: the run with -v
    and the run without it have the same outcome, and when they end
    normally, the same streams, number of markers and tracker, log
    apart.  Without -v the log stays empty. *)
Theorem verbose_mode_changes_only_the_log cfg est tru hapmix :
  outcome_map eraseLogState (main (setVerbose true cfg) est tru hapmix)
  = main (setVerbose false cfg) est tru hapmix
  ∧ ∀ fin, main (setVerbose false cfg) est tru hapmix = Ok fin →
      blockLog (trk fin) = [].
Proof.
  split; [exact (main_erase (setVerbose true cfg) est tru hapmix)|].
  intros fin Hrun.
  eapply (main_preserves (setVerbose false cfg) (λ t, blockLog t = []));
    [|done|exact Hrun].
  intros nm E T samp t t' next _ Ht Hb. simpl.
  by rewrite (blockLog_quiet (setVerbose false cfg) _ _ _ _ _ _ _
                eq_refl Hb).
Qed.

(** ** The ancestry class of a HAPMIX record *)




Lemma getLocalAnc_Ok f cls f' :
  getLocalAnc f = Ok (cls, f') →
  ∃ pos a h b,
    f = Posterior pos a h b :: f'
    ∧ (997 # 1000 <= a + h + b)%Q ∧ (a + h + b <= 1003 # 1000)%Q
    ∧ cls = (if Qgtb a (9 # 10) then 0
             else if Qgtb h (9 # 10) then 1
             else if Qgtb b (9 # 10) then 2 else -1)%Z.
Proof.
  destruct f as [|[|pos a h b] f]; try done. simpl. intros H.
  bind_inv H as u Hu. injection H as <- <-.
  apply assert_Ok, andb_true_iff in Hu as [H1%Qle_bool_iff H2%Qle_bool_iff].
  exists pos, a, h, b. done.
Qed.

Lemma getLocalAnc_class f cls f' :
  getLocalAnc f = Ok (cls, f') →
  (cls = -1 ∨ cls = 0 ∨ cls = 1 ∨ cls = 2)%Z.
Proof.
  intros H.
  apply getLocalAnc_Ok in H as (pos & a & h & b & _ & _ & _ & ->).
  destruct (Qgtb a _); [auto|]. destruct (Qgtb h _); [auto|].
  destruct (Qgtb b _); auto.
Qed.

Lemma localAncStep_bucket cfg samp t pac t1 :
  localAncStep cfg samp t = Ok (pac, t1) → ancBucket pac ≤ 3.
Proof.
  unfold localAncStep. destruct (useLocalAnc cfg).
  - intros H. bind_inv H as f Hf. bind_inv H as r Hr.
    destruct r as [cur f']. bind_inv H as prev Hp.
    injection H as <- _. apply getLocalAnc_class in Hr.
    destruct (_ && _); [|done].
    destruct Hr as [->|[->|[->| ->]]]; vm_compute; lia.
  - intros [= <- _]. vm_compute. lia.
Qed.


(** ** The HAPMIX streams over a run *)

Lemma drop_cons_next {A : Type} (l : list A) k r f :
  drop k l = r :: f → drop (S k) l = f ∧ S k ≤ length l.
Proof.
  revert l. induction k as [|k IH]; intros l H.
  - rewrite drop_0 in H. subst l. split; [done|simpl; lia].
  - destruct l as [|x l]; [done|]. simpl in H.
    destruct (IH _ H) as [? ?]. split; [done|simpl; lia].
Qed.

Lemma mainLoop_hapmix cfg (hapmix : list (list hapmixLine)) fuel st fin :
  useLocalAnc cfg = true → trioParentsInSuccession cfg = false →
  mainLoop cfg fuel st = Ok fin →
  (0 ≤ numMarkers st)%Z →
  (∀ s, s < numSamples cfg →
     ∃ f, hapmix !! s = Some f
          ∧ hapmixFiles (trk st) !! s
            = Some (drop (Z.to_nat (numMarkers st)) f)
          ∧ Z.to_nat (numMarkers st) ≤ length f) →
  ∀ s, s < numSamples cfg →
    ∃ f, hapmix !! s = Some f
         ∧ hapmixFiles (trk fin) !! s
           = Some (drop (Z.to_nat (numMarkers fin)) f)
         ∧ Z.to_nat (numMarkers fin) ≤ length f.
Proof.
  intros Hu Hs. revert st.
  induction fuel as [|fuel IH]; intros st H Hnm Hall; simpl in H.
  - destruct (estG st); [|done]. by injection H as <-.
  - destruct (estG st) as [|c0 e0]; [by injection H as <-|].
    bind_inv H as st' Hstep.
    apply locusStep_inv_lines in Hstep
      as (l & tl & _ & _ & _ & _ & Hn & Hc).
    apply (IH st' H); [lia|].
    intros s Hlt. destruct (Hall s Hlt) as (f & Hf & Hd & Hlen).
    destruct (sampLoop_lockstep cfg _ _ _ Hu Hs _ _ _ _ Hc) as [_ Hread].
    destruct (Hread s) as (r & f' & Hl & Hl'); [lia|].
    rewrite Hd in Hl. injection Hl as Hl.
    apply drop_cons_next in Hl as [Hl Hlen'].
    exists f. rewrite Hn, Hl'.
    replace (Z.to_nat (numMarkers st + 1)) with (S (Z.to_nat (numMarkers st)))
      by lia.
    by rewrite Hl.
Qed.

(** X16.  With local ancestry and without the in-succession
    convention, a run that ends normally has read from the HAPMIX
    stream of every sample exactly one record for each locus: every
    stream holds at least [numMarkers] records and is left after the
    first [numMarkers] of them. *)
Theorem one_ancestry_record_per_locus cfg est tru hapmix fin :
  useLocalAnc cfg = true → trioParentsInSuccession cfg = false →
  main cfg est tru hapmix = Ok fin →
  ∀ s, s < numSamples cfg →
    ∃ f, hapmix !! s = Some f
         ∧ hapmixFiles (trk fin) !! s
           = Some (drop (Z.to_nat (numMarkers fin)) f)
         ∧ Z.to_nat (numMarkers fin) ≤ length f.
Proof.
  intros Hu Hs. unfold main. rewrite Hu. simpl.
  destruct (Nat.ltb_spec (length hapmix) (numSamples cfg)) as [|Hlen];
    [done|].
  intros Hrun. eapply (mainLoop_hapmix cfg hapmix); try done.
  intros s Hlt. simpl. rewrite Hu.
  destruct (lookup_lt_is_Some_2 hapmix s) as [f Hf]; [lia|].
  exists f. split; [done|]. split; [|lia].
  rewrite lookup_take_lt by done. by rewrite Hf.
Qed.

(** ** The omitted individuals *)



(** ** Genotypes that a run rejects *)

Ltac allele_cases Hbad :=
  repeat (match goal with
          | |- context [Ascii.eqb ?a ?b] =>
              destruct (Ascii.eqb_spec a b); subst;
              cbn [negb orb andb assert mbind outcome_mbind outcome_bind]
          end);
  try done; exfalso; apply Hbad; intuition congruence.

Lemma afterTrio_inconsistent cfg nm pac samp e0 e1 x0 x1 t :
  trackerOK cfg t → samp < numSamples cfg → ancBucket pac ≤ 3 →
  ¬ ((e0 = cQ ∧ e1 = cQ) ∨ (e0 = x0 ∧ e1 = x1) ∨ (e0 = x1 ∧ e1 = x0)) →
  afterTrio cfg nm pac samp e0 e1 x0 x1 t = AssertFail.
Proof.
  intros (Lh & Hv & _ & _ & _ & Lt) Hlt Hb Hbad.
  destruct (lookup_lt_is_Some_2 (homologsInverted t) samp) as [h Hh];
    [lia|].
  destruct (lookup_lt_is_Some_2 (totalAncClassHetSites t) (ancBucket pac))
    as [x Hx]; [lia|].
  unfold afterTrio, phaseTrack, setOrientation, checkSwitch, countHetSite,
    incrAt.
  rewrite (arr_lookup _ _ _ Hh), (arr_lookup _ _ _ Hx).
  cbn [mbind outcome_mbind outcome_bind].
  destruct (Hv _ _ Hh) as [->|[->| ->]].
  - change (-1 =? -1)%Z with true. cbv iota.
    allele_cases Hbad.
  - change (0 =? -1)%Z with false. cbv iota.
    change (arrZ [e0; e1] 0) with (Ok e0).
    change (arrZ [e0; e1] (1 - 0)) with (Ok e1).
    allele_cases Hbad.
  - change (1 =? -1)%Z with false. cbv iota.
    change (arrZ [e0; e1] 1) with (Ok e1).
    change (arrZ [e0; e1] (1 - 1)) with (Ok e0).
    allele_cases Hbad.
Qed.

(** X18.  At a site whose true genotype is valid and not missing, an
    estimated allele that is the truth-set missing marker fails an
    assertion, before the trio check is made; and when the trio check
    does not flag the site, an estimated genotype that is neither
    missing on both haplotypes nor the true genotype in one of the two
    orders fails an assertion, whatever the orientation of the sample
    is. *)
Theorem inconsistent_genotype_fails_an_assertion
    cfg nm (E T : list ascii) samp t pac t1 e0 e1 x0 x1 :
  localAncStep cfg samp t = Ok (pac, t1) →
  allelesOf E samp e0 e1 → allelesOf T samp x0 x1 →
  isTrueCode x0 = true → isTrueCode x1 = true →
  x0 ≠ c9 → x1 ≠ c9 →
  (e0 = c9 ∨ e1 = c9 → sampleBody cfg nm E T samp t = AssertFail)
  ∧ (trackerOK cfg t → samp < numSamples cfg →
     trioCheck cfg T samp x0 x1 = Ok false →
     ¬ ((e0 = cQ ∧ e1 = cQ) ∨ (e0 = x0 ∧ e1 = x1)
        ∨ (e0 = x1 ∧ e1 = x0)) →
     sampleBody cfg nm E T samp t = AssertFail).
Proof.
  intros Hanc HE HT Hc0 Hc1 Hn0 Hn1.
  assert (Hnine : e0 = c9 ∨ e1 = c9 →
            sampleBody cfg nm E T samp t = AssertFail).
  { intros Hm. destruct HE as [He0 He1], HT as [Hx0 Hx1].
    unfold sampleBody. rewrite Hanc.
    cbn [mbind outcome_mbind outcome_bind].
    rewrite (arr_lookup _ _ _ He0), (arr_lookup _ _ _ Hx0).
    cbn [mbind outcome_mbind outcome_bind]. rewrite Hc0.
    cbn [assert mbind outcome_mbind outcome_bind].
    rewrite (arr_lookup _ _ _ He1), (arr_lookup _ _ _ Hx1).
    cbn [mbind outcome_mbind outcome_bind]. rewrite Hc1.
    cbn [assert mbind outcome_mbind outcome_bind].
    destruct (Ascii.eqb_spec x0 c9); [done|].
    destruct (Ascii.eqb_spec x1 c9); [done|]. simpl.
    destruct Hm as [->| ->]; [done|].
    by destruct (Ascii.eqb_spec e0 c9). }
  split; [done|].
  intros Hok Hlt Htrio Hbad.
  destruct (decide (e0 = c9)) as [?|Hm0]; [auto|].
  destruct (decide (e1 = c9)) as [?|Hm1]; [auto|].
  rewrite (sampleBody_to_trio _ _ _ _ _ _ _ _ _ _ _ _ Hanc HE HT)
    by assumption.
  rewrite Htrio. cbn [mbind outcome_mbind outcome_bind].
  rewrite afterTrio_inconsistent; try done.
  - eapply trackerOK_frame; [|exact Hok]. by eapply localAncStep_frame.
  - by eapply localAncStep_bucket.
Qed.

(** ** Instances of the properties of this part *)

Lemma pairing_table_is_a_perfect_matching_witness :
  pairedTable 2 [1; 0]%Z.
Proof.
  refine (proj1 (pairing_table_is_a_perfect_matching 2 [(0, 1)%Z]
                   [1; 0]%Z _)).
  vm_compute. reflexivity.
Defined.


Lemma skip_and_omit_select_characters_witness :
  main cfgSkipOmit (joinLines linesSkipOmit) trueA []
  = main (plainLayout cfgSkipOmit)
      (joinLines (estAlleleChars cfgSkipOmit <$> linesSkipOmit)) trueA [].
Proof.
  apply (skip_and_omit_select_characters cfgSkipOmit linesSkipOmit trueA []).
  repeat first [apply List.Forall_nil|apply List.Forall_cons].
  all: line_ok.
Defined.

Lemma ancestry_classes_partition_the_counts_witness :
  ∃ fin, main cfgAnc estA trueA hapmixA = Ok fin
         ∧ sumZ (numAncClassSwitchErrors (trk fin))
           = numSwitchErrors (trk fin).
Proof.
  eexists. split; [vm_compute; reflexivity|].
  refine (proj1 (ancestry_classes_partition_the_counts cfgAnc estA trueA
                   hapmixA _ _)).
  vm_compute. reflexivity.
Defined.

Lemma missing_rate_is_a_proportion_witness :
  ∃ fin, main cfgA estMissing trueOne [] = Ok fin
         ∧ (0 ≤ numMissing (trk fin)
            ≤ Z.of_nat (numSamples cfgA) * numMarkers fin)%Z.
Proof.
  eexists. split; [vm_compute; reflexivity|].
  refine (proj1 (missing_rate_is_a_proportion cfgA estMissing trueOne
                   [] _ _)).
  vm_compute. reflexivity.
Defined.

Lemma switch_rate_is_a_proportion_witness :
  ∃ fin, main cfgA estA trueA [] = Ok fin
         ∧ (0 ≤ numSwitchErrors (trk fin) ≤ totalHetSites (trk fin))%Z.
Proof.
  eexists. split; [vm_compute; reflexivity|].
  refine (proj1 (switch_rate_is_a_proportion cfgA estA trueA [] _ _)).
  vm_compute. reflexivity.
Defined.

Lemma normal_end_needs_whole_lines_witness :
  ∃ fin, main cfgA estA trueA [] = Ok fin
         ∧ numMarkers fin = Z.of_nat (countNl estA).
Proof.
  eexists. split; [vm_compute; reflexivity|].
  refine (proj1 (proj2 (normal_end_needs_whole_lines cfgA estA trueA
                          [] _ _))).
  vm_compute. reflexivity.
Defined.


Lemma true_stream_at_its_end_fails_the_locus_witness :
  locusStep cfgA (State (str "01" ++ nl :: []) [] 0 (initTracker cfgA []))
  = AssertFail.
Proof.
  refine (proj2 (true_stream_at_its_end_fails_the_locus cfgA (str "01") []
                   0%Z (initTracker cfgA []) _) _ _).
  - line_ok.
  - simpl. lia.
  - reflexivity.
Defined.

Lemma missing_truth_skips_the_sample_witness :
  sampleBody cfgA 1%Z (str "99") (str "90") 0 (initTracker cfgA [])
  = Ok (set_oneHapTruthWarn true (initTracker cfgA []), 1).
Proof.
  refine (proj1 (missing_truth_skips_the_sample cfgA 1%Z (str "99")
                   (str "90")) 0 (initTracker cfgA []) (-1)%Z
            (initTracker cfgA []) c9 c9 c9 c0 _ _ _ _ _ _).
  - reflexivity.
  - split; reflexivity.
  - split; reflexivity.
  - reflexivity.
  - reflexivity.
  - left. reflexivity.
Defined.

Lemma normal_end_means_consistent_genotypes_witness :
  siteOK (str "01") (str "01") 0 ∨ trioFlagged cfgA (str "01") 0.
Proof.
  refine (proj1 (normal_end_means_consistent_genotypes cfgA) 1%Z
            (str "01") (str "01") 0 (initTracker cfgA []) _ _ _).
  vm_compute. reflexivity.
Defined.

Lemma verbose_blocks_add_up_to_the_last_locus_witness :
  ∃ fin last,
    main cfgVerbose estA trueA [] = Ok fin
    ∧ lastBlocks cfgVerbose fin = Ok last
    ∧ blockSum 0 (blockLog (trk fin) ++ last) = (numMarkers fin - 1)%Z.
Proof.
  assert (Hrun : ∃ fin, main cfgVerbose estA trueA [] = Ok fin)
    by (eexists; vm_compute; reflexivity).
  destruct Hrun as [fin Hrun].
  destruct (verbose_blocks_add_up_to_the_last_locus cfgVerbose estA trueA
              [] fin eq_refl Hrun) as (last & Hlast & Hall).
  exists fin, last. split; [exact Hrun|]. split; [exact Hlast|].
  apply (Hall 0). simpl. lia.
Defined.

Lemma verbose_mode_changes_only_the_log_witness :
  ∃ fin, main (setVerbose false cfgA) estA trueA [] = Ok fin
         ∧ blockLog (trk fin) = [].
Proof.
  eexists. split; [vm_compute; reflexivity|].
  refine (proj2 (verbose_mode_changes_only_the_log cfgA estA trueA [])
            _ _).
  vm_compute. reflexivity.
Defined.


Lemma one_ancestry_record_per_locus_witness :
  ∃ fin, main cfgAnc estA trueA hapmixA = Ok fin
         ∧ ∃ f, hapmixA !! 0 = Some f
                ∧ hapmixFiles (trk fin) !! 0
                  = Some (drop (Z.to_nat (numMarkers fin)) f)
                ∧ Z.to_nat (numMarkers fin) ≤ length f.
Proof.
  eexists. split; [vm_compute; reflexivity|].
  refine (one_ancestry_record_per_locus cfgAnc estA trueA hapmixA _
            _ _ _ 0 _).
  - reflexivity.
  - reflexivity.
  - vm_compute. reflexivity.
  - simpl. lia.
Defined.


Lemma inconsistent_genotype_fails_an_assertion_witness :
  sampleBody cfgA 1%Z (str "11") (str "00") 0 (initTracker cfgA [])
  = AssertFail.
Proof.
  refine (proj2 (inconsistent_genotype_fails_an_assertion cfgA 1%Z
                   (str "11") (str "00") 0 (initTracker cfgA []) (-1)%Z
                   (initTracker cfgA []) c1 c1 c0 c0 _ _ _ _ _ _ _)
            _ _ _ _).
  - reflexivity.
  - split; reflexivity.
  - split; reflexivity.
  - reflexivity.
  - reflexivity.
  - discriminate.
  - discriminate.
  - apply trackerOK_init.
  - simpl. lia.
  - reflexivity.
  - intros [[H _]|[[H _]|[H _]]]; discriminate H.
Defined.
